(** * 2048: the board state machine of [src/App.js]

    A shallow embedding of the game core ([toBoard], [spawn], [slideLine],
    [move], [anyMovesLeft]) and the proofs of its specification, followed
    by further properties of the core and of the pure parts of the
    component around it ([tileStyle], [measure], [onTouchEnd]).

    Modelling conventions.
    - A tile object is a record; the optional fields [bump] and [dead] are
      booleans ([undefined] reads as [false]).
    - A JavaScript array of tiles is a [list cell], a cell being
      [undefined] (a hole or an index past the end), [null] or a tile object.
      Reading past the end gives [Undefined]; writing past the end extends
      the array with holes.
    - The [Set] of locked indices is a [gset nat].
    - Numbers are unbounded integers: tile values and scores stay far below
      2^53, where JavaScript numbers are exact.
    - A [TypeError] raised by the engine is the [Thrown] outcome.
    - A draw of [Math.random()] is a rational number, given to [spawn] by
      its caller, and the counter of [uid] is passed in and out. The
      arithmetic on a draw is exact, so that the theorems about [spawn]
      hold for every draw and none says which draw gives which cell.
    - The component [Game2048] is not modelled as a whole: its state lives
      in React and its timers. What [step] and [reset] compute from the
      state is stated on the calls they make ([move], [spawn], [toBoard],
      [anyMovesLeft]).
    - The loops of [slideLine] and of [move] carry a ghost log of what they
      did beside the variables of the source; nothing reads it.
    - Every object of the board sits in one cell only ([cloneTiles] makes
      the objects, [toBoard] puts each in one cell, [slideLine] moves or
      replaces them), so that writing a field of the object of a cell is
      replacing the value of that cell. The mark [dead] is put on a tile
      that has left the line, where nothing reads it. *)

From stdpp Require Import base list gmap strings.
From Stdlib Require Import ZArith QArith Qround Qabs Qminmax Lia.

#[local] Set Warnings "-clear-no-such-hyp".

Local Open Scope Z_scope.
Local Open Scope nat_scope.

(** ** Data model *)

Record tile := mkTile {
  tile_id : Z;
  tile_r : Z;
  tile_c : Z;
  tile_value : Z;
  tile_bump : bool;
  tile_dead : bool
}.

Inductive cell :=
| Undefined
| Null
| Obj (t : tile).

#[global] Instance tile_eq_dec : EqDecision tile.
Proof. solve_decision. Defined.

#[global] Instance cell_eq_dec : EqDecision cell.
Proof. solve_decision. Defined.

Inductive error := TypeError.

Inductive outcome (A : Type) :=
| Returned (a : A)
| Thrown (e : error).
Arguments Returned {A} a.
Arguments Thrown {A} e.

(** [if (x)] on a cell. *)
Definition truthy (x : cell) : bool :=
  match x with Obj _ => true | _ => false end.

(** The tile to push, [if (x)]. *)
Definition cell_tiles (x : cell) : list tile :=
  match x with Obj t => [t] | _ => [] end.

(** [a[i]] *)
Definition aget (a : list cell) (i : nat) : cell := default Undefined (a !! i).

(** [a[i] = x] *)
Definition aset (a : list cell) (i : nat) (x : cell) : list cell :=
  if decide (i < length a) then <[i:=x]> a
  else a ++ replicate (i - length a) Undefined ++ [x].

(** [a[k] = x] for an integer [k]: a negative [k] names a property that is
    no element of the array. *)
Definition aset_Z (a : list cell) (k : Z) (x : cell) : list cell :=
  if decide (0 ≤ k)%Z then aset a (Z.to_nat k) x else a.

Abbreviation board := (list (list cell)).

(** [b[r]], for a row that exists. *)
Definition brow (b : board) (r : nat) : list cell := default [] (b !! r).

(** [b[r][c]] *)
Definition bget (b : board) (r c : nat) : cell := aget (brow b r) c.

(** ** utils *)

(** [rnd n], for a draw [u] of [Math.random()]. The product is the exact
    one, where the engine rounds it to the nearest double before taking
    the floor: for a given draw the two can differ by one. *)
Definition rnd (n : nat) (u : Q) : nat :=
  Z.to_nat (Qfloor (u * inject_Z (Z.of_nat n))).

(** [uid]: the counter is threaded by the callers; a call returns the
    current value and increments it. *)
Definition uid (next : Z) : Z * Z := (next, (next + 1)%Z).

Definition empty (n : nat) : board := replicate n (replicate n Null).

(** [{ ...t }] *)
Definition copy (t : tile) : tile :=
  {| tile_id := tile_id t; tile_r := tile_r t; tile_c := tile_c t;
     tile_value := tile_value t; tile_bump := tile_bump t;
     tile_dead := tile_dead t |}.

Definition cloneTiles (tiles : list tile) : list tile := copy <$> tiles.

(** [b[t.r][t.c] = t]: a row outside the grid is [undefined], and setting a
    property on it throws. *)
Definition place (b : board) (t : tile) : outcome board :=
  if decide (0 ≤ tile_r t < Z.of_nat (length b))%Z then
    let ri := Z.to_nat (tile_r t) in
    Returned (<[ri := aset_Z (brow b ri) (tile_c t) (Obj t)]> b)
  else Thrown TypeError.

Fixpoint place_all (b : board) (tiles : list tile) : outcome board :=
  match tiles with
  | [] => Returned b
  | t :: ts =>
      match place b t with
      | Returned b' => place_all b' ts
      | Thrown e => Thrown e
      end
  end.

Definition toBoard (tiles : list tile) (n : nat) : outcome board :=
  place_all (empty n) tiles.

(** ** spawn *)

(** [for r < n: for c < n: if (!b[r][c]) free.push([r, c])] *)
Definition free_cells (b : board) (n : nat) : list (nat * nat) :=
  r ← seq 0 n; c ← seq 0 n; if truthy (bget b r c) then [] else [(r, c)].

Definition spawn (tiles : list tile) (n : nat) (bias : Q) (u1 u2 : Q)
    (next : Z) : outcome (list tile * Z) :=
  match toBoard tiles n with
  | Thrown e => Thrown e
  | Returned b =>
      let free := free_cells b n in
      if decide (length free = 0) then Returned (tiles, next)
      else
        match free !! rnd (length free) u1 with
        | None => Thrown TypeError
        | Some (r, c) =>
            let v := if Qlt_le_dec u2 bias then 2%Z else 4%Z in
            let '(i, next') := uid next in
            Returned (tiles ++ [ {| tile_id := i; tile_r := Z.of_nat r;
                                    tile_c := Z.of_nat c; tile_value := v;
                                    tile_bump := false; tile_dead := false |} ],
                      next')
        end
  end.

(** ** slideLine *)

(** What one iteration of the outer loop did; kept in a ghost log beside
    the state of the source. *)
Inductive event :=
| Slid (i ni : nat) (t : tile)
| Merged (i ni : nat) (t u : tile).

Record pass := mkPass {
  st_line : list cell;
  st_locked : gset nat;
  st_moved : bool;
  st_gained : Z;
  st_log : list event
}.

(** [{ ...u, value: newVal, bump: true }] *)
Definition merged (u : tile) : tile :=
  {| tile_id := tile_id u; tile_r := tile_r u; tile_c := tile_c u;
     tile_value := (tile_value u * 2)%Z; tile_bump := true;
     tile_dead := tile_dead u |}.

(** The [while (true)] loop, started at [ni]; [fuel] bounds the number of
    iterations. *)
Fixpoint scan (fuel n : nat) (line : list cell) (locked : gset nat)
    (dir : Z) (v : Z) (ni : nat) : nat :=
  match fuel with
  | O => ni
  | S fuel' =>
      let j := (Z.of_nat ni + dir)%Z in
      if decide (j < 0 ∨ j >= Z.of_nat n)%Z then ni
      else
        let jn := Z.to_nat j in
        match aget line jn with
        | Null => scan fuel' n line locked dir v jn
        | Obj u =>
            if bool_decide (jn ∉ locked) && bool_decide (tile_value u = v)
            then jn else ni
        | Undefined => ni
        end
  end.

(** The body of [for (const i of order)]. *)
Definition slide_step (n : nat) (dir : Z) (st : pass) (i : nat) : pass :=
  match aget (st_line st) i with
  | Obj t =>
      let ni := scan n n (st_line st) (st_locked st) dir (tile_value t) i in
      if decide (ni ≠ i) then
        let relocate :=
          {| st_line := aset (aset (st_line st) ni (Obj t)) i Null;
             st_locked := st_locked st;
             st_moved := true;
             st_gained := st_gained st;
             st_log := st_log st ++ [Slid i ni t] |} in
        match aget (st_line st) ni with
        | Obj u =>
            if bool_decide (tile_value u = tile_value t)
               && bool_decide (ni ∉ st_locked st)
            then
              {| st_line := aset (aset (st_line st) ni (Obj (merged u))) i Null;
                 st_locked := {[ni]} ∪ st_locked st;
                 st_moved := true;
                 st_gained := (st_gained st + tile_value u * 2)%Z;
                 st_log := st_log st ++ [Merged i ni t u] |}
            else relocate
        | _ => relocate
        end
      else st
  | _ => st
  end.

Definition order (n : nat) (dir : Z) : list nat :=
  if decide (dir = 1%Z) then reverse (seq 0 n) else seq 0 n.

Definition slide_run (line : list cell) (dir : Z) : pass :=
  let n := length line in
  foldl (slide_step n dir)
        {| st_line := line; st_locked := ∅; st_moved := false;
           st_gained := 0%Z; st_log := [] |}
        (order n dir).

Record slid := mkSlid {
  res_line : list cell;
  res_moved : bool;
  res_gained : Z
}.

Definition slideLine (line : list cell) (dir : Z) : slid :=
  let st := slide_run line dir in
  {| res_line := st_line st; res_moved := st_moved st;
     res_gained := st_gained st |}.

(** ** move *)

(** [x.r = r; x.c = c] on the tile object [x]. *)
Definition at_cell (r c : nat) (t : tile) : tile :=
  {| tile_id := tile_id t; tile_r := Z.of_nat r; tile_c := Z.of_nat c;
     tile_value := tile_value t; tile_bump := tile_bump t;
     tile_dead := tile_dead t |}.

(** [if (b[r][c]) { b[r][c].r = r; b[r][c].c = c; }] *)
Definition relabel_at (r c : nat) (b : board) : board :=
  match bget b r c with
  | Obj t => <[r := <[c := Obj (at_cell r c t)]> (brow b r)]> b
  | _ => b
  end.

(** [b[r][c] = x] *)
Definition bset (b : board) (r c : nat) (x : cell) : board :=
  <[r := aset (brow b r) c x]> b.

(** The state of the loops of [move]; [mv_log] is the ghost log of the
    line passes, each event beside the number of its row or column. *)
Record moving := mkMoving {
  mv_board : board;
  mv_moved : bool;
  mv_gained : Z;
  mv_log : list (nat * event)
}.

(** The body of [for (let r = 0; r < n; r++)] for 'L' and 'R'. *)
Definition row_step (n : nat) (d : Z) (m : moving) (r : nat) : moving :=
  let line := brow (mv_board m) r in
  let res := slide_run line d in
  let b1 := <[r := st_line res]> (mv_board m) in
  {| mv_board := foldl (λ b c, relabel_at r c b) b1 (seq 0 n);
     mv_moved := mv_moved m || st_moved res;
     mv_gained := (mv_gained m + st_gained res)%Z;
     mv_log := mv_log m ++ (pair r <$> st_log res) |}.

(** The body of [for (let c = 0; c < n; c++)] for the other directions. *)
Definition col_step (n : nat) (d : Z) (m : moving) (c : nat) : moving :=
  let col := (λ r, bget (mv_board m) r c) <$> seq 0 n in
  let res := slide_run col d in
  {| mv_board :=
       foldl (λ b r, relabel_at r c (bset b r c (aget (st_line res) r)))
             (mv_board m) (seq 0 n);
     mv_moved := mv_moved m || st_moved res;
     mv_gained := (mv_gained m + st_gained res)%Z;
     mv_log := mv_log m ++ (pair c <$> st_log res) |}.

Definition horizontal (dir : string) : bool :=
  bool_decide (dir = "L"%string) || bool_decide (dir = "R"%string).

Definition move_loop (b : board) (n : nat) (dir : string) : moving :=
  let m0 := {| mv_board := b; mv_moved := false; mv_gained := 0%Z;
               mv_log := [] |} in
  if horizontal dir
  then foldl (row_step n (if decide (dir = "L"%string) then (-1)%Z else 1%Z))
             m0 (seq 0 n)
  else foldl (col_step n (if decide (dir = "U"%string) then (-1)%Z else 1%Z))
             m0 (seq 0 n).

(** [for r < n: for c < n: if (b[r][c]) next.push(b[r][c])] *)
Definition collect (b : board) (n : nat) : list tile :=
  r ← seq 0 n; c ← seq 0 n; cell_tiles (bget b r c).

Record moved_board := mkMoved {
  out_tiles : list tile;
  out_moved : bool;
  out_gained : Z
}.

(** The final loop state of [move], ghost log included. *)
Definition move_run (tiles : list tile) (n : nat) (dir : string)
    : outcome moving :=
  match toBoard (cloneTiles tiles) n with
  | Thrown e => Thrown e
  | Returned b => Returned (move_loop b n dir)
  end.

Definition move (tiles : list tile) (n : nat) (dir : string)
    : outcome moved_board :=
  match move_run tiles n dir with
  | Thrown e => Thrown e
  | Returned m =>
      Returned {| out_tiles :=
                    filter (λ t, tile_dead t = false) (collect (mv_board m) n);
                  out_moved := mv_moved m;
                  out_gained := mv_gained m |}
  end.

(** ** anyMovesLeft *)

(** The body of the two loops: [true] when it returns [true]. *)
Definition moves_at (board0 : board) (n r c : nat) : bool :=
  match bget board0 r c with
  | Obj t =>
      (bool_decide (r + 1 < n) &&
       match bget board0 (r + 1) c with
       | Obj u => bool_decide (tile_value u = tile_value t)
       | _ => false
       end)
      ||
      (bool_decide (c + 1 < n) &&
       match bget board0 r (c + 1) with
       | Obj u => bool_decide (tile_value u = tile_value t)
       | _ => false
       end)
  | _ => true
  end.

Definition anyMovesLeft (board0 : board) : bool :=
  let n := length board0 in
  existsb (λ r, existsb (λ c, moves_at board0 n r c) (seq 0 n)) (seq 0 n).

(** ** Layout, visuals and touch

    The numbers of the layout are integers: the width [clientWidth] of an
    element is one, and [n] is the number of cells a side. The coordinates
    of a touch are rational numbers. *)

(** The two tables of [tileStyle], as lists of a key and its classes. *)
Definition swatches_light : list (Z * string) :=
  [ (2%Z, "from-[#D9FBFF] to-[#CFE8FF] text-zinc-800"%string);
    (4%Z, "from-[#E7F9D9] to-[#CFF6C8] text-zinc-800"%string);
    (8%Z, "from-[#FFE6C7] to-[#FFD6A5] text-zinc-900"%string);
    (16%Z, "from-[#FFD2E1] to-[#FFC2DD] text-zinc-900"%string);
    (32%Z, "from-[#FFD9D6] to-[#FFB4A2] text-zinc-900"%string);
    (64%Z, "from-[#F9D3FF] to-[#E5B8FF] text-zinc-900"%string);
    (128%Z, "from-[#D7F3FF] to-[#A5E4FF] text-zinc-900"%string);
    (256%Z, "from-[#D7FFF1] to-[#B2F7EF] text-zinc-900"%string);
    (512%Z, "from-[#E5F0FF] to-[#C4D7FF] text-zinc-900"%string);
    (1024%Z, "from-[#E6E1FF] to-[#CDBAFF] text-zinc-900"%string);
    (2048%Z, "from-[#FFECC7] to-[#FFD36E] text-zinc-900"%string) ].

Definition swatches_dark : list (Z * string) :=
  [ (2%Z, "from-[#243b55] to-[#141e30] text-white"%string);
    (4%Z, "from-[#0f2027] to-[#203a43] text-white"%string);
    (8%Z, "from-[#42275a] to-[#734b6d] text-white"%string);
    (16%Z, "from-[#283c86] to-[#45a247] text-white"%string);
    (32%Z, "from-[#614385] to-[#516395] text-white"%string);
    (64%Z, "from-[#457fca] to-[#5691c8] text-white"%string);
    (128%Z, "from-[#3a1c71] to-[#d76d77] text-white"%string);
    (256%Z, "from-[#36d1dc] to-[#5b86e5] text-white"%string);
    (512%Z, "from-[#00b09b] to-[#96c93d] text-white"%string);
    (1024%Z, "from-[#f7971e] to-[#ffd200] text-white"%string);
    (2048%Z, "from-[#d53369] to-[#daae51] text-white"%string) ].

(** [tileStyle]: the table of the theme read at [v], or else at 2048
    ([base[v] || base[2048]]; no class string of the tables is empty). *)
Definition tileStyle (v : Z) (theme : string) : string :=
  let base : gmap Z string :=
    list_to_map (if decide (theme = "light"%string)
                 then swatches_light else swatches_dark) in
  let sw := match base !! v with
            | Some s => s
            | None => default "undefined"%string (base !! 2048%Z)
            end in
  ("bg-gradient-to-br " +:+ sw)%string.

(** [GAP], and the cell size that [measure] sets for a container of
    [clientWidth] pixels:
    [Math.max(56, Math.floor((size - GAP * (n + 1)) / n))]. The division is
    that of the integers for [n] > 0. *)
Definition GAP : Z := 12.

Definition measure (clientWidth n : Z) : Z :=
  let size := Z.min clientWidth 620 in
  Z.max 56 ((size - GAP * (n + 1)) / n).

(** [sizePx], the side of the board for a cell size. *)
Definition sizePx (cell n : Z) : Z := (cell * n + GAP * (n + 1))%Z.

(** [onTouchEnd], for the displacement [(dx, dy)] of the touch: the
    direction given to [step], or nothing for a short swipe. *)
Definition onTouchEnd (dx dy : Q) : option string :=
  if Qlt_le_dec (Qmax (Qabs dx) (Qabs dy)) 28 then None
  else Some (if Qlt_le_dec (Qabs dy) (Qabs dx)
             then (if Qlt_le_dec 0 dx then "R" else "L")
             else (if Qlt_le_dec 0 dy then "D" else "U"))%string.

(** ** Examples *)

Definition T (i r c v : Z) : tile :=
  {| tile_id := i; tile_r := r; tile_c := c; tile_value := v;
     tile_bump := false; tile_dead := false |}.

Definition line_2_2_2 : list cell :=
  [Obj (T 1 0 0 2); Null; Obj (T 2 0 2 2); Obj (T 3 0 3 2)].

(** * Vocabulary of the specification and of the proofs *)

(** Where the scan can stop: on its start, on an empty cell, or on an
    unlocked tile of the value sought. *)
Definition rests (line : list cell) (locked : gset nat) (v : Z)
    (start ni : nat) : Prop :=
  ni = start ∨ aget line ni = Null ∨
  ∃ u, aget line ni = Obj u ∧ tile_value u = v ∧ ni ∉ locked.

(** The three things an iteration can do: nothing, relocate the tile to
    an empty cell, or merge it into an unlocked tile of its value. *)
Inductive stepped (n : nat) (dir : Z) (st : pass) (i : nat) : pass → Prop :=
| stepped_skip : stepped n dir st i st
| stepped_slide t ni k :
    aget (st_line st) i = Obj t →
    aget (st_line st) ni = Null →
    ni < n → 0 < k →
    Z.of_nat ni = (Z.of_nat i + Z.of_nat k * dir)%Z →
    stepped n dir st i
      {| st_line := <[i:=Null]> (<[ni:=Obj t]> (st_line st));
         st_locked := st_locked st;
         st_moved := true;
         st_gained := st_gained st;
         st_log := st_log st ++ [Slid i ni t] |}
| stepped_merge t u ni k :
    aget (st_line st) i = Obj t →
    aget (st_line st) ni = Obj u →
    tile_value u = tile_value t →
    ni ∉ st_locked st →
    ni < n → ni ≠ i → 0 < k →
    Z.of_nat ni = (Z.of_nat i + Z.of_nat k * dir)%Z →
    stepped n dir st i
      {| st_line := <[i:=Null]> (<[ni:=Obj (merged u)]> (st_line st));
         st_locked := {[ni]} ∪ st_locked st;
         st_moved := true;
         st_gained := (st_gained st + tile_value u * 2)%Z;
         st_log := st_log st ++ [Merged i ni t u] |}.

Definition tiles_of (a : list cell) : list tile := a ≫= cell_tiles.

Definition values (ts : list tile) : list Z := tile_value <$> ts.

Definition total (vs : list Z) : Z := foldr Z.add 0%Z vs.

(** Every cell weighs its index, whatever it holds. *)
Fixpoint isum (f : nat → cell → Z) (k : nat) (a : list cell) : Z :=
  match a with
  | [] => 0%Z
  | x :: a' => (f k x + isum f (S k) a')%Z
  end.

Definition event_source (e : event) : nat :=
  match e with Slid i _ _ | Merged i _ _ _ => i end.

Definition merge_targets (log : list event) : list nat :=
  omap (λ e, match e with Merged _ ni _ _ => Some ni | _ => None end) log.

(** The two tiles a merge consumes, and the tile it makes. *)
Definition operands (log : list event) : list tile :=
  log ≫= λ e, match e with Merged _ _ t u => [t; u] | _ => [] end.

Definition products (log : list event) : list tile :=
  log ≫= λ e, match e with Merged _ _ _ u => [merged u] | _ => [] end.

(** How far a tile at index [i] is from the edge the line slides to,
    counted from one. *)
Definition rank (n : nat) (dir : Z) (i : nat) (x : cell) : Z :=
  if truthy x
  then (if decide (dir = 1%Z) then Z.of_nat n - Z.of_nat i
        else Z.of_nat i + 1)%Z
  else 0%Z.

Definition potential (n : nat) (dir : Z) (a : list cell) : Z :=
  isum (rank n dir) 0 a.

(** What holds of the state of the loop once the indices [visited] were
    processed. *)
Record slide_inv (line0 : list cell) (dir : Z) (visited : list nat)
    (st : pass) : Prop := {
  inv_length : length (st_line st) = length line0;
  inv_conserved :
    tiles_of (st_line st) ++ operands (st_log st)
    ≡ₚ tiles_of line0 ++ products (st_log st);
  inv_gained : st_gained st = total (values (products (st_log st)));
  inv_moved : st_moved st = bool_decide (st_log st ≠ []);
  inv_still : st_log st = [] → st_line st = line0;
  inv_locked : ∀ ni, ni ∈ st_locked st ↔ ni ∈ merge_targets (st_log st);
  inv_targets : NoDup (merge_targets (st_log st));
  inv_potential :
    (potential (length line0) dir (st_line st) + Z.of_nat (length (st_log st))
     ≤ potential (length line0) dir line0)%Z;
  inv_visited : ∀ ni, ni ∈ st_locked st → ni ∈ visited;
  inv_final : ∀ i ni t u,
    Merged i ni t u ∈ st_log st → aget (st_line st) ni = Obj (merged u);
  inv_untouched : ∀ j, j ∉ visited → aget (st_line st) j = aget line0 j;
  inv_sources : NoDup (event_source <$> st_log st);
  inv_sources_visited : ∀ e, e ∈ st_log st → event_source e ∈ visited;
  inv_input : ∀ j u,
    j ∉ st_locked st → aget (st_line st) j = Obj u → u ∈ tiles_of line0;
  inv_operands : ∀ i ni t u,
    Merged i ni t u ∈ st_log st →
    aget line0 i = Obj t ∧ u ∈ tiles_of line0 ∧ tile_value u = tile_value t
    ∧ ni < length line0 ∧ i < length line0;
  inv_slid : ∀ i ni t,
    Slid i ni t ∈ st_log st → aget line0 i = Obj t ∧ ni ≠ i ∧ ni < length line0
}.

Definition start (line0 : list cell) : pass :=
  {| st_line := line0; st_locked := ∅; st_moved := false;
     st_gained := 0%Z; st_log := [] |}.

(** No tile has an empty cell next to it in the direction of the slide,
    nor a tile of its value. *)
Definition blocked (line : list cell) (dir : Z) : Prop :=
  ∀ i t, aget line i = Obj t →
    (Z.of_nat i + dir < 0 ∨ Z.of_nat i + dir >= Z.of_nat (length line))%Z
    ∨ aget line (Z.to_nat (Z.of_nat i + dir)) = Undefined
    ∨ ∃ u, aget line (Z.to_nat (Z.of_nat i + dir)) = Obj u
           ∧ tile_value u ≠ tile_value t.

(** A line without an empty cell and without two neighbours of one value. *)
Definition packed (line : list cell) : Prop :=
  (∀ i, i < length line → ∃ t, aget line i = Obj t)
  ∧ ∀ i t u, aget line i = Obj t → aget line (S i) = Obj u →
             tile_value t ≠ tile_value u.

(** An [n] by [n] array of arrays. *)
Definition shape (n : nat) (b : board) : Prop :=
  length b = n ∧ ∀ r, r < n → length (brow b r) = n.

Definition relabel (r c : nat) (x : cell) : cell :=
  match x with Obj t => Obj (at_cell r c t) | _ => x end.

(** A move works on the rows ([h = true]) or on the columns of the board;
    the cell [k] of the line [L] is [b[L][k]] or [b[k][L]]. *)
Definition cget (h : bool) (b : board) (L k : nat) : cell :=
  if h then bget b L k else bget b k L.

Definition relabel_in (h : bool) (L k : nat) (x : cell) : cell :=
  if h then relabel L k x else relabel k L x.

Definition line_of (h : bool) (b : board) (n L : nat) : list cell :=
  (λ k, cget h b L k) <$> seq 0 n.

Definition line_step (h : bool) : nat → Z → moving → nat → moving :=
  if h then row_step else col_step.

(** The pass over the line [L] of the board the move starts from. *)
Definition run (h : bool) (n : nat) (d : Z) (b0 : board) (L : nat) : pass :=
  slide_run (line_of h b0 n L) d.

Definition moving0 (b0 : board) : moving :=
  {| mv_board := b0; mv_moved := false; mv_gained := 0%Z; mv_log := [] |}.

Record move_inv (h : bool) (n : nat) (d : Z) (b0 : board)
    (visited : list nat) (m : moving) : Prop := {
  mi_shape : shape n (mv_board m);
  mi_cells : ∀ L k, L < n → k < n →
    cget h (mv_board m) L k
    = if decide (L ∈ visited)
      then relabel_in h L k (aget (st_line (run h n d b0 L)) k)
      else cget h b0 L k;
  mi_moved : mv_moved m = existsb (λ L, st_moved (run h n d b0 L)) visited;
  mi_gained : mv_gained m = total ((λ L, st_gained (run h n d b0 L)) <$> visited);
  mi_log : mv_log m = visited ≫= λ L, pair L <$> st_log (run h n d b0 L)
}.

(** The direction [slideLine] is called with. *)
Definition slide_dir (dir : string) : Z :=
  if horizontal dir
  then (if decide (dir = "L"%string) then (-1)%Z else 1%Z)
  else (if decide (dir = "U"%string) then (-1)%Z else 1%Z).

Definition position (t : tile) : Z * Z := (tile_r t, tile_c t).

Definition cell_pos (r c : nat) : Z * Z := (Z.of_nat r, Z.of_nat c).

(** The board invariant: at most one tile per cell, every tile inside the
    grid. *)
Definition wellFormed (n : nat) (tiles : list tile) : Prop :=
  NoDup (position <$> tiles)
  ∧ Forall (λ t, (0 ≤ tile_r t < Z.of_nat n)%Z
                 ∧ (0 ≤ tile_c t < Z.of_nat n)%Z) tiles.

(** The mark [dead] is set by [slideLine] on tiles that [move] drops: no
    tile a caller holds carries it. *)
Definition alive (tiles : list tile) : Prop :=
  Forall (λ t, tile_dead t = false) tiles.

(** The tile a cell ends up with: the last one placed there. *)
Definition last_at (tiles : list tile) (p : Z * Z) : option tile :=
  last (filter (λ t, position t = p) tiles).

(** Every tile of the grid of [b] carries the coordinates of its cell. *)
Definition labelled (n : nat) (b : board) : Prop :=
  ∀ r c t, r < n → c < n → bget b r c = Obj t → position t = cell_pos r c.

#[global] Instance wellFormed_dec n tiles : Decision (wellFormed n tiles).
Proof. unfold wellFormed. apply _. Defined.

#[global] Instance alive_dec tiles : Decision (alive tiles).
Proof. unfold alive. apply _. Defined.

Definition two_twos : list tile := [T 1 0 0 2; T 2 0 1 2].

Definition two_four : list tile := [T 1 0 0 2; T 2 0 1 4].

(** The rule, on the tiles of a line listed from the edge they slide to:
    a tile merges with the next one when their values are equal, and the
    merged tile takes no part in a second merge. *)
Fixpoint squash (ts : list tile) : list tile :=
  match ts with
  | [] => []
  | t :: tl =>
      match tl with
      | [] => [t]
      | u :: rest =>
          if bool_decide (tile_value t = tile_value u)
          then merged t :: squash rest
          else t :: squash tl
      end
  end.

Fixpoint squash_gain (ts : list tile) : Z :=
  match ts with
  | [] => 0%Z
  | t :: tl =>
      match tl with
      | [] => 0%Z
      | u :: rest =>
          if bool_decide (tile_value t = tile_value u)
          then (tile_value t * 2 + squash_gain rest)%Z
          else squash_gain tl
      end
  end.

(** The same rule, one tile at a time: the tiles settled so far, whether
    the last of them may still merge, and the score. *)
Record settled := mkSettled {
  sq_out : list tile;
  sq_free : bool;
  sq_gain : Z
}.

Definition settle (s : settled) (t : tile) : settled :=
  match last (sq_out s) with
  | Some u =>
      if sq_free s && bool_decide (tile_value u = tile_value t)
      then {| sq_out := take (length (sq_out s) - 1) (sq_out s) ++ [merged u];
              sq_free := false;
              sq_gain := (sq_gain s + tile_value u * 2)%Z |}
      else {| sq_out := sq_out s ++ [t]; sq_free := true;
              sq_gain := sq_gain s |}
  | None => {| sq_out := sq_out s ++ [t]; sq_free := true;
               sq_gain := sq_gain s |}
  end.

Definition unsettled : settled :=
  {| sq_out := []; sq_free := false; sq_gain := 0%Z |}.

(** The index of the cell at distance [q] from the edge the line slides
    to, and a line read from that edge. *)
Definition idx (n : nat) (dir : Z) (q : nat) : nat :=
  if decide (dir = 1%Z) then n - 1 - q else q.

Definition toward (dir : Z) (a : list cell) : list cell :=
  if decide (dir = 1%Z) then reverse a else a.

(** The state of the loop once the [k] cells nearest the edge were
    visited, against the tiles [s] settled from them. *)
Record settled_inv (line0 : list cell) (dir : Z) (k : nat) (st : pass)
    (s : settled) : Prop := {
  sq_length : length (st_line st) = length line0;
  sq_bound : length (sq_out s) ≤ k;
  sq_placed : ∀ q t,
    sq_out s !! q = Some t →
    aget (st_line st) (idx (length line0) dir q) = Obj t;
  sq_gap : ∀ q,
    length (sq_out s) ≤ q → q < k →
    aget (st_line st) (idx (length line0) dir q) = Null;
  sq_rest : ∀ q,
    k ≤ q → q < length line0 →
    aget (st_line st) (idx (length line0) dir q)
    = aget line0 (idx (length line0) dir q);
  sq_locked : ∀ j,
    j ∈ st_locked st →
    ∃ q, q < length (sq_out s) ∧ j = idx (length line0) dir q;
  sq_last : ∀ p,
    length (sq_out s) = S p →
    (sq_free s = true ↔ idx (length line0) dir p ∉ st_locked st);
  sq_gained : st_gained st = sq_gain s
}.

Definition line_empty : list cell := [Null; Null; Null; Null].

(** The cells that [move] merged into. *)
Definition merge_cells (h : bool) (log : list (nat * event)) : list (nat * nat) :=
  omap (λ le, match le.2 with
              | Merged _ ni _ _ => Some (if h then (le.1, ni) else (ni, le.1))
              | _ => None
              end) log.

Definition four_twos : list cell :=
  [Obj (T 1 0 0 2); Obj (T 2 0 1 2); Obj (T 3 0 2 2); Obj (T 4 0 3 2)].

Definition cell_free (tiles : list tile) (r c : nat) : Prop :=
  ∀ t, t ∈ tiles → position t ≠ cell_pos r c.

Definition spawned (next : Z) (r c : nat) (v : Z) : tile :=
  {| tile_id := next; tile_r := Z.of_nat r; tile_c := Z.of_nat c;
     tile_value := v; tile_bump := false; tile_dead := false |}.

Definition one_tile : list tile := [T 1 0 0 2].

Definition restored : list tile := [T 3 0 0 2].

Definition stacked : list tile := [T 1 0 0 2; T 2 0 0 4].

Definition checkerboard : board :=
  [ [Obj (T 1 0 0 2); Obj (T 2 0 1 4); Obj (T 3 0 2 2); Obj (T 4 0 3 4)];
    [Obj (T 5 1 0 4); Obj (T 6 1 1 2); Obj (T 7 1 2 4); Obj (T 8 1 3 2)];
    [Obj (T 9 2 0 2); Obj (T 10 2 1 4); Obj (T 11 2 2 2); Obj (T 12 2 3 4)];
    [Obj (T 13 3 0 4); Obj (T 14 3 1 2); Obj (T 15 3 2 4); Obj (T 16 3 3 2)] ].


(** ** Vocabulary of the further properties *)

(** The identities of a tile list. *)
Definition ids (ts : list tile) : list Z := tile_id <$> ts.

(** The line the rule gives: the squashed tiles against the edge the line
    slides to, empty cells behind them. *)
Definition squashed (line : list cell) (dir : Z) : list cell :=
  let ts := squash (tiles_of (toward dir line)) in
  toward dir ((Obj <$> ts) ++ replicate (length line - length ts) Null).

(** No cell of the grid is a hole. *)
Definition solid (n : nat) (b : board) : Prop :=
  ∀ r c, r < n → c < n → bget b r c ≠ Undefined.

(** The shape of a board, the labelling of its tiles and the absence of
    holes are decidable. *)
#[global] Instance shape_dec n b : Decision (shape n b).
Proof.
  refine (match decide (length b = n
                        ∧ Forall (λ r, length (brow b r) = n) (seq 0 n)) with
          | left H => left _
          | right H => right _
          end).
  - destruct H as [Hl Hrows]. split; [done|]. intros r Hr.
    rewrite Forall_forall in Hrows. apply Hrows, elem_of_seq. lia.
  - intros [Hl Hrows]. apply H. split; [done|].
    apply Forall_forall. intros r Hr%elem_of_seq. apply Hrows. lia.
Defined.

#[global] Instance labelled_dec n b : Decision (labelled n b).
Proof.
  assert (∀ r c, Decision (match bget b r c with
                           | Obj t => position t = cell_pos r c
                           | _ => True
                           end)) as Hdec
    by (intros r c; destruct (bget b r c); apply _).
  refine (match decide (Forall (λ r, Forall (λ c,
                          match bget b r c with
                          | Obj t => position t = cell_pos r c
                          | _ => True
                          end) (seq 0 n)) (seq 0 n)) with
          | left H => left _
          | right H => right _
          end).
  - intros r c t Hr Hc Ht. rewrite Forall_forall in H.
    assert (r ∈ seq 0 n) as Hin by (apply elem_of_seq; lia).
    specialize (H r Hin). rewrite Forall_forall in H.
    assert (c ∈ seq 0 n) as Hin' by (apply elem_of_seq; lia).
    specialize (H c Hin'). by rewrite Ht in H.
  - intros Hlab. apply H. apply Forall_forall. intros r Hr%elem_of_seq.
    apply Forall_forall. intros c Hc%elem_of_seq.
    destruct (bget b r c) as [| |t] eqn:Ht; [done..|].
    apply (Hlab r c t); [lia|lia|done].
Defined.

#[global] Instance solid_dec n b : Decision (solid n b).
Proof.
  refine (match decide (Forall (λ r, Forall (λ c,
                          bget b r c ≠ Undefined) (seq 0 n)) (seq 0 n)) with
          | left H => left _
          | right H => right _
          end).
  - intros r c Hr Hc. rewrite Forall_forall in H.
    assert (r ∈ seq 0 n) as Hin by (apply elem_of_seq; lia).
    specialize (H r Hin). rewrite Forall_forall in H.
    apply H, elem_of_seq. lia.
  - intros Hsolid. apply H. apply Forall_forall. intros r Hr%elem_of_seq.
    apply Forall_forall. intros c Hc%elem_of_seq. apply Hsolid; lia.
Defined.

(** The directions that [step] is called with. *)
Definition directions : list string := ["L"; "R"; "U"; "D"]%string.

(** The identities are pairwise distinct and were issued by the counter of
    [uid], which stands at [next]. *)
Definition fresh_ids (next : Z) (tiles : list tile) : Prop :=
  NoDup (ids tiles) ∧ Forall (λ t, (tile_id t < next)%Z) tiles.

#[global] Instance fresh_ids_dec next tiles : Decision (fresh_ids next tiles).
Proof. unfold fresh_ids. apply _. Defined.

(** A power of two, 2 at least. *)
Definition power_of_two (v : Z) : Prop :=
  (2 ≤ v)%Z ∧ v = (2 ^ Z.log2 v)%Z.

#[global] Instance power_of_two_dec v : Decision (power_of_two v).
Proof. unfold power_of_two. apply _. Defined.

(** What holds of the tiles of a game in progress, [next] being the
    counter of [uid]. *)
Definition game_inv (n : nat) (next : Z) (tiles : list tile) : Prop :=
  wellFormed n tiles ∧ alive tiles ∧ fresh_ids next tiles
  ∧ Forall (λ t, power_of_two (tile_value t)) tiles.

#[global] Instance game_inv_dec n next tiles : Decision (game_inv n next tiles).
Proof. unfold game_inv. apply _. Defined.

(** A line, a board and a full tile set without a move left, for the
    examples. *)
Definition line_2_0_2_4 : list cell :=
  [Obj (T 1 0 0 2); Null; Obj (T 2 0 2 2); Obj (T 3 0 3 4)].

Definition board_2_4 : board :=
  [ [Obj (T 1 0 0 2); Null]; [Null; Obj (T 2 1 1 4)] ].

Definition full_2_4 : list tile := [T 1 0 0 2; T 2 0 1 4; T 3 1 0 4; T 4 1 1 2].

(** A decidable proposition about given values, by evaluation. *)
Ltac by_computation := apply (bool_decide_unpack _); vm_compute; exact I.

(** * Arrays *)

Section arrays.
Implicit Types (a : list cell) (x : cell) (i j : nat).

Lemma aget_lt a i : i < length a → a !! i = Some (aget a i).
Proof.
  intros H. unfold aget.
  destruct (lookup_lt_is_Some_2 a i H) as [y ->]. done.
Qed.

Lemma aget_ge a i : length a ≤ i → aget a i = Undefined.
Proof. intros H. unfold aget. by rewrite lookup_ge_None_2. Qed.

Lemma aget_defined a i : aget a i ≠ Undefined → i < length a.
Proof.
  intros H. destruct (decide (i < length a)) as [|Hn]; [done|].
  exfalso. apply H, aget_ge. lia.
Qed.

Lemma aset_lt a i x : i < length a → aset a i x = <[i:=x]> a.
Proof. intros H. unfold aset. by rewrite decide_True. Qed.

Lemma aget_insert a i j x :
  i < length a → aget (<[i:=x]> a) j = if decide (i = j) then x else aget a j.
Proof.
  intros H. unfold aget. destruct (decide (i = j)) as [->|Hne].
  - by rewrite list_lookup_insert_eq.
  - by rewrite list_lookup_insert_ne.
Qed.

(** Reading after writing, in and out of range alike. *)
Lemma aget_aset a i j x :
  aget (aset a i x) j = if decide (i = j) then x else aget a j.
Proof.
  unfold aset. destruct (decide (i < length a)) as [Hlt|Hge].
  - by apply aget_insert.
  - unfold aget. destruct (decide (i = j)) as [->|Hne].
    + rewrite lookup_app_r by lia.
      rewrite lookup_app_r by (rewrite length_replicate; lia).
      rewrite length_replicate. by replace (j - _ - _) with 0 by lia.
    + destruct (decide (j < length a)) as [Hj|Hj].
      * by rewrite lookup_app_l.
      * rewrite (lookup_ge_None_2 a j) by lia.
        rewrite lookup_app_r by lia.
        destruct (decide (j - length a < i - length a)) as [Hk|Hk].
        -- rewrite lookup_app_l by (rewrite length_replicate; lia).
           by rewrite lookup_replicate_2.
        -- rewrite lookup_app_r by (rewrite length_replicate; lia).
           rewrite length_replicate.
           rewrite lookup_ge_None_2; [done|]. simpl. lia.
Qed.

Lemma length_aset_lt a i x : i < length a → length (aset a i x) = length a.
Proof. intros H. rewrite aset_lt by done. apply length_insert. Qed.

Lemma length_aset_ge a i x : length a ≤ length (aset a i x).
Proof.
  unfold aset. case_decide.
  - by rewrite length_insert.
  - rewrite length_app. lia.
Qed.
End arrays.

(** * The scan of [slideLine] *)

Section scanning.
Variables (n : nat) (line : list cell) (locked : gset nat) (dir v : Z).

Lemma scan_rests fuel start :
  rests line locked v start (scan fuel n line locked dir v start).
Proof.
  revert start. induction fuel as [|fuel IH]; intros start; simpl.
  { by left. }
  case_decide as Hj; [by left|].
  destruct (aget line (Z.to_nat (Z.of_nat start + dir))) as [| |u] eqn:Hc.
  - by left.
  - destruct (IH (Z.to_nat (Z.of_nat start + dir))) as [->|H]; [|by right].
    right. by left.
  - destruct (bool_decide _ && bool_decide _) eqn:Hb; [|by left].
    apply andb_prop in Hb as [H1 H2].
    apply bool_decide_eq_true in H1, H2.
    right. right. by exists u.
Qed.

(** The scan walks from its start in steps of [dir]. *)
Lemma scan_walks fuel start :
  ∃ k : nat,
    Z.of_nat (scan fuel n line locked dir v start)
    = (Z.of_nat start + Z.of_nat k * dir)%Z
    ∧ (scan fuel n line locked dir v start ≠ start → 0 < k).
Proof.
  revert start. induction fuel as [|fuel IH]; intros start; simpl.
  { exists 0. split; [lia|done]. }
  case_decide as Hj; [exists 0; split; [lia|done]|].
  destruct (aget line (Z.to_nat (Z.of_nat start + dir))) as [| |u] eqn:Hc.
  - exists 0; split; [lia|done].
  - destruct (IH (Z.to_nat (Z.of_nat start + dir))) as (k & Hk & _).
    exists (S k). split; [|lia]. rewrite Hk. lia.
  - destruct (bool_decide _ && bool_decide _).
    + exists 1. split; lia.
    + exists 0; split; [lia|done].
Qed.

Lemma scan_bound fuel start :
  start < n → scan fuel n line locked dir v start < n.
Proof.
  revert start. induction fuel as [|fuel IH]; intros start Hs; simpl; [done|].
  case_decide as Hj; [done|].
  destruct (aget line (Z.to_nat (Z.of_nat start + dir))) as [| |u]; [done| |].
  - apply IH. lia.
  - destruct (bool_decide _ && bool_decide _); [lia|done].
Qed.




End scanning.

(** * One iteration of [slideLine] *)

Section stepping.
Variables (n : nat) (dir : Z).

Lemma slide_step_stepped st i :
  length (st_line st) = n → i < n →
  stepped n dir st i (slide_step n dir st i).
Proof.
  intros Hlen Hi. unfold slide_step.
  destruct (aget (st_line st) i) as [| |t] eqn:Ht; try constructor.
  set (ni := scan n n (st_line st) (st_locked st) dir (tile_value t) i).
  destruct (scan_walks n (st_line st) (st_locked st) dir (tile_value t) n i)
    as (k & Hk & Hk0).
  pose proof (scan_bound n (st_line st) (st_locked st) dir (tile_value t) n i Hi)
    as Hni.
  pose proof (scan_rests n (st_line st) (st_locked st) dir (tile_value t) n i)
    as Hrest.
  fold ni in Hk, Hk0, Hni, Hrest.
  case_decide as Hne; [|constructor].
  destruct Hrest as [?|[Hnull|(u & Hu & Hv & Hl)]]; [done|..].
  - rewrite Hnull.
    rewrite (aset_lt (st_line st)) by lia.
    rewrite aset_lt by (rewrite length_insert; lia).
    by eapply stepped_slide; eauto.
  - rewrite Hu, Hv.
    rewrite !bool_decide_eq_true_2 by done. simpl.
    rewrite (aset_lt (st_line st)) by lia.
    rewrite aset_lt by (rewrite length_insert; lia).
    rewrite <- Hv.
    eapply stepped_merge; eauto.
Qed.
End stepping.

(** A loop invariant that may speak of the indices already visited. *)
Lemma foldl_visited {A B} (f : A → B → A) (P : list B → A → Prop) l a :
  P [] a →
  (∀ pre x post a', l = pre ++ x :: post → P pre a' → P (pre ++ [x]) (f a' x)) →
  P l (foldl f a l).
Proof.
  intros H0 Hstep.
  assert (∀ post pre a', l = pre ++ post → P pre a' → P l (foldl f a' post))
    as Hgen.
  { induction post as [|x post IH]; intros pre a' -> Hp; simpl.
    - by rewrite app_nil_r.
    - apply (IH (pre ++ [x])); [by rewrite <- app_assoc|].
      eapply Hstep; [reflexivity|done]. }
  by apply (Hgen l []).
Qed.

Lemma order_NoDup n dir : NoDup (order n dir).
Proof.
  unfold order. case_decide.
  - rewrite reverse_Permutation. apply NoDup_seq.
  - apply NoDup_seq.
Qed.

Lemma order_lt n dir i : i ∈ order n dir → i < n.
Proof.
  unfold order. case_decide; rewrite ?elem_of_reverse, elem_of_seq; lia.
Qed.

(** * The tiles of a line *)

Lemma total_app vs ws : total (vs ++ ws) = (total vs + total ws)%Z.
Proof. induction vs as [|v vs IH]; simpl; lia. Qed.

#[global] Instance total_Permutation : Proper ((≡ₚ) ==> (=)) total.
Proof. induction 1; simpl; lia. Qed.

Lemma app_swap_ends {A} (xs ds ys : list A) : xs ++ ds ++ ys ≡ₚ ys ++ ds ++ xs.
Proof.
  rewrite (comm (++) xs), <- app_assoc.
  rewrite (app_assoc ds), (comm (++) ds ys). by rewrite <- app_assoc.
Qed.

Lemma tiles_of_insert a i x :
  i < length a →
  tiles_of (<[i:=x]> a) ++ cell_tiles (aget a i) ≡ₚ tiles_of a ++ cell_tiles x.
Proof.
  intros Hi. pose proof (aget_lt a i Hi) as Hget.
  set (y := aget a i) in *.
  assert (tiles_of a
          = tiles_of (take i a) ++ cell_tiles y ++ tiles_of (drop (S i) a)) as ->.
  { rewrite <- (take_drop_middle a i y Hget) at 1.
    unfold tiles_of. by rewrite bind_app, bind_cons. }
  rewrite insert_take_drop by done.
  unfold tiles_of at 1. rewrite bind_app, bind_cons.
  fold (tiles_of (take i a)) (tiles_of (drop (S i) a)).
  rewrite <- !app_assoc. f_equiv. apply app_swap_ends.
Qed.

Lemma tiles_of_elem a j u : aget a j = Obj u → u ∈ tiles_of a.
Proof.
  intros H. unfold tiles_of. apply list_elem_of_bind.
  exists (Obj u). split; [by left|].
  apply list_elem_of_lookup. exists j.
  rewrite <- H. apply aget_lt, aget_defined. by rewrite H.
Qed.

Lemma tiles_of_elem_inv a u : u ∈ tiles_of a → ∃ j, aget a j = Obj u.
Proof.
  unfold tiles_of. intros (x & Hx & Hin)%list_elem_of_bind.
  apply list_elem_of_lookup in Hin as [j Hj]. exists j.
  unfold aget. rewrite Hj. simpl.
  destruct x; simpl in Hx; try by apply elem_of_nil in Hx.
  apply list_elem_of_singleton in Hx. by subst.
Qed.

Lemma isum_insert f k a i x :
  i < length a →
  isum f k (<[i:=x]> a)
  = (isum f k a - f (k + i)%nat (aget a i) + f (k + i)%nat x)%Z.
Proof.
  revert k i. induction a as [|y a IH]; intros k i Hi; simpl in *; [lia|].
  destruct i as [|i]; simpl.
  - rewrite Nat.add_0_r. unfold aget. simpl. lia.
  - rewrite IH by lia. replace (S k + i) with (k + S i) by lia.
    unfold aget. simpl. lia.
Qed.

(** * The loop of [slideLine] *)

Lemma rank_obj n dir i t :
  rank n dir i (Obj t)
  = (if decide (dir = 1%Z) then Z.of_nat n - Z.of_nat i else Z.of_nat i + 1)%Z.
Proof. done. Qed.

Lemma rank_null n dir i : rank n dir i Null = 0%Z.
Proof. done. Qed.

Lemma order_lookup n dir j :
  j < n →
  order n dir !! j = Some (if decide (dir = 1%Z) then n - 1 - j else j).
Proof.
  intros Hj. unfold order. case_decide.
  - rewrite reverse_lookup by (rewrite length_seq; lia).
    rewrite length_seq, lookup_seq_lt by lia. f_equal. lia.
  - by rewrite lookup_seq_lt.
Qed.

Lemma order_length n dir : length (order n dir) = n.
Proof. unfold order. case_decide; rewrite ?length_reverse, length_seq; done. Qed.

(** A cell that lies from [i] in the direction of the slide was visited
    before [i]. *)
Lemma order_ahead n dir pre i post ni k :
  dir = 1%Z ∨ dir = (-1)%Z →
  order n dir = pre ++ i :: post →
  ni < n → 0 < k → Z.of_nat ni = (Z.of_nat i + Z.of_nat k * dir)%Z →
  ni ∈ pre.
Proof.
  intros Hdir Hord Hni Hk Hwalk.
  assert (length pre < n) as Hpre.
  { rewrite <- (order_length n dir), Hord, length_app. simpl. lia. }
  pose proof (order_lookup n dir (length pre) Hpre) as Hi.
  rewrite Hord, list_lookup_middle in Hi by done.
  set (j := if decide (dir = 1%Z) then n - 1 - ni else ni).
  assert (j < length pre ∧ ni = if decide (dir = 1%Z) then n - 1 - j else j)
    as [Hj Hnij].
  { unfold j. injection Hi as Hi.
    destruct Hdir as [-> | ->]; repeat case_decide; try done; lia. }
  pose proof (order_lookup n dir j ltac:(lia)) as Hlook.
  rewrite <- Hnij, Hord, lookup_app_l in Hlook by done.
  by eapply list_elem_of_lookup_2.
Qed.

Lemma operands_snoc log e : operands (log ++ [e]) = operands log ++ operands [e].
Proof. unfold operands. by rewrite bind_app. Qed.

Lemma products_snoc log e : products (log ++ [e]) = products log ++ products [e].
Proof. unfold products. by rewrite bind_app. Qed.

Lemma merge_targets_snoc log e :
  merge_targets (log ++ [e]) = merge_targets log ++ merge_targets [e].
Proof. unfold merge_targets. by rewrite omap_app. Qed.

Lemma merge_targets_elem log i ni t u :
  Merged i ni t u ∈ log → ni ∈ merge_targets log.
Proof.
  intros H. unfold merge_targets. apply list_elem_of_omap.
  by exists (Merged i ni t u).
Qed.

Lemma values_app ts us : values (ts ++ us) = values ts ++ values us.
Proof. unfold values. by rewrite fmap_app. Qed.

Section slide_invariants.
Variables (line0 : list cell) (dir : Z).
Hypothesis Hdir : dir = 1%Z ∨ dir = (-1)%Z.
Local Abbreviation n := (length line0).

Lemma slide_inv_start : slide_inv line0 dir [] (start line0).
Proof.
  split; simpl; try done.
  - intros ni. set_solver.
  - constructor.
  - lia.
  - intros i ni t u H. by apply elem_of_nil in H.
  - constructor.
  - intros e H. by apply elem_of_nil in H.
  - intros j u _ H. by eapply tiles_of_elem.
  - intros i ni t u H. by apply elem_of_nil in H.
  - intros i ni t H. by apply elem_of_nil in H.
Qed.

Lemma aget_rewritten (a : list cell) i ni x y j :
  i < length a → ni < length a →
  aget (<[i:=x]> (<[ni:=y]> a)) j
  = if decide (i = j) then x else if decide (ni = j) then y else aget a j.
Proof.
  intros Hi Hni. rewrite aget_insert by (by rewrite length_insert).
  case_decide; [done|]. by apply aget_insert.
Qed.

Lemma slide_inv_step pre i post st :
  order n dir = pre ++ i :: post →
  slide_inv line0 dir pre st →
  slide_inv line0 dir (pre ++ [i]) (slide_step n dir st i).
Proof.
  intros Hord Hinv.
  assert (i < n) as Hi.
  { apply (order_lt n dir). rewrite Hord. set_solver. }
  assert (i ∉ pre) as Hfresh.
  { pose proof (order_NoDup n dir) as Hnd. rewrite Hord in Hnd.
    apply NoDup_app in Hnd as (_ & Hnd & _).
    intros Hin. apply (Hnd i Hin). by left. }
  destruct Hinv as [Hlen Hcons Hgain Hmoved Hstill Hlocked Htargets Hpot
                      Hvis Hfinal Huntouched Hsrc Hsrcv Hinput Hops Hslid].
  destruct (slide_step_stepped n dir st i Hlen Hi)
    as [|t ni k Ht Hnull Hni Hk Hwalk
        |t u ni k Ht Hu Hv Hunl Hni Hne Hk Hwalk].
  - split; try done.
    + intros ni H. apply elem_of_app. left. by apply Hvis.
    + intros j Hj. apply Huntouched. set_solver.
    + intros e He. set_solver.
  - assert (ni ∈ pre) as Hahead by (eapply order_ahead; eauto).
    assert (ni ≠ i) as Hne by (by intros ->).
    split; simpl.
    + by rewrite !length_insert.
    + rewrite operands_snoc, products_snoc. simpl. rewrite !app_nil_r.
      rewrite <- Hcons. f_equiv.
      apply (inj (.++ [t])).
      pose proof (tiles_of_insert (<[ni:=Obj t]> (st_line st)) i Null) as H1.
      rewrite length_insert, aget_insert, decide_False in H1 by lia.
      rewrite Ht in H1. simpl in H1. rewrite app_nil_r in H1.
      rewrite H1 by lia.
      pose proof (tiles_of_insert (st_line st) ni (Obj t)) as H2.
      rewrite Hnull in H2. simpl in H2. rewrite app_nil_r in H2.
      apply H2. lia.
    + rewrite products_snoc. simpl. by rewrite app_nil_r.
    + apply eq_sym, bool_decide_eq_true_2. by destruct (st_log st).
    + intros H. by destruct (st_log st).
    + intros ni'. rewrite merge_targets_snoc. simpl. rewrite app_nil_r.
      apply Hlocked.
    + rewrite merge_targets_snoc. simpl. by rewrite app_nil_r.
    + unfold potential in *. rewrite !isum_insert by (rewrite ?length_insert; lia).
      rewrite aget_insert, decide_False by lia.
      rewrite Ht, Hnull, length_app, !rank_obj, !rank_null. simpl.
      destruct Hdir as [-> | ->]; repeat case_decide; try done; lia.
    + intros ni' H. apply elem_of_app. left. by apply Hvis.
    + intros i' ni' t' u' Hin.
      apply elem_of_app in Hin as [Hin|Hin]; [|set_solver].
      rewrite aget_rewritten by lia.
      assert (ni' ∈ pre) as Hpre'.
      { eapply Hvis, Hlocked, merge_targets_elem, Hin. }
      pose proof (Hfinal _ _ _ _ Hin) as Hf.
      rewrite decide_False by (by intros ->).
      rewrite decide_False by (intros ->; congruence). done.
    + intros j Hj. rewrite aget_rewritten by lia.
      rewrite !decide_False by set_solver. apply Huntouched. set_solver.
    + rewrite fmap_app. simpl. apply NoDup_app. split; [done|]. split.
      * intros x (e & -> & He)%list_elem_of_fmap Hx.
        apply list_elem_of_singleton in Hx. apply Hfresh.
        rewrite <- Hx. by apply Hsrcv.
      * apply NoDup_singleton.
    + intros e [He|He]%elem_of_app.
      * apply elem_of_app. left. by apply Hsrcv.
      * apply list_elem_of_singleton in He. subst. simpl. set_solver.
    + intros j u Hj. rewrite aget_rewritten by lia.
      repeat case_decide; try done.
      * intros [= <-]. eapply tiles_of_elem.
        rewrite <- Huntouched by done. done.
      * by apply Hinput.
    + intros i' ni' t' u' Hin.
      apply elem_of_app in Hin as [Hin|Hin]; [|set_solver].
      by apply Hops.
    + intros i' ni' t' Hin.
      apply elem_of_app in Hin as [Hin|Hin]; [by apply Hslid|].
      apply list_elem_of_singleton in Hin. injection Hin as -> -> ->.
      by rewrite <- Huntouched.
  - assert (ni ∈ pre) as Hahead by (eapply order_ahead; eauto).
    split; simpl.
    + by rewrite !length_insert.
    + assert (tiles_of (<[i:=Null]> (<[ni:=Obj (merged u)]> (st_line st)))
              ++ [t; u] ≡ₚ tiles_of (st_line st) ++ [merged u]) as Hstep.
      { pose proof (tiles_of_insert (<[ni:=Obj (merged u)]> (st_line st)) i Null)
          as H1.
        rewrite length_insert, aget_insert, decide_False in H1 by lia.
        rewrite Ht in H1. simpl in H1. rewrite app_nil_r in H1.
        pose proof (tiles_of_insert (st_line st) ni (Obj (merged u))) as H2.
        rewrite Hu in H2. simpl in H2.
        rewrite <- H2 by lia. rewrite <- H1 by lia.
        by rewrite <- app_assoc. }
      rewrite operands_snoc, products_snoc. simpl.
      rewrite (app_assoc (tiles_of line0)), <- Hcons.
      rewrite (comm (++) (operands (st_log st)) [t; u]), app_assoc, Hstep.
      rewrite <- !app_assoc. f_equiv. apply (comm (++)).
    + rewrite products_snoc, values_app, total_app. simpl. rewrite Hgain. lia.
    + apply eq_sym, bool_decide_eq_true_2. by destruct (st_log st).
    + intros H. by destruct (st_log st).
    + intros ni'. rewrite merge_targets_snoc. simpl.
      rewrite elem_of_app, elem_of_union, Hlocked. set_solver.
    + rewrite merge_targets_snoc. simpl. apply NoDup_app. split; [done|].
      split; [|apply NoDup_singleton].
      intros x Hx Hx'. apply list_elem_of_singleton in Hx'. subst.
      by apply Hunl, Hlocked.
    + unfold potential in *. rewrite !isum_insert by (rewrite ?length_insert; lia).
      rewrite aget_insert, decide_False by lia.
      rewrite Ht, Hu, length_app, !rank_obj, !rank_null. simpl.
      destruct Hdir as [-> | ->]; repeat case_decide; try done; lia.
    + intros ni' [H|H]%elem_of_union; apply elem_of_app; left.
      * apply elem_of_singleton in H. by subst.
      * by apply Hvis.
    + intros i' ni' t' u' Hin. rewrite aget_rewritten by lia.
      apply elem_of_app in Hin as [Hin|Hin].
      * assert (ni' ∈ st_locked st) as Hl'.
        { eapply Hlocked, merge_targets_elem, Hin. }
        rewrite decide_False by (intros ->; by apply Hfresh, Hvis).
        rewrite decide_False by (by intros ->).
        by eapply Hfinal.
      * apply list_elem_of_singleton in Hin. injection Hin as -> -> -> ->.
        rewrite decide_False by done. by rewrite decide_True.
    + intros j Hj. rewrite aget_rewritten by lia.
      rewrite !decide_False by set_solver. apply Huntouched. set_solver.
    + rewrite fmap_app. simpl. apply NoDup_app. split; [done|]. split.
      * intros x (e & -> & He)%list_elem_of_fmap Hx.
        apply list_elem_of_singleton in Hx. apply Hfresh.
        rewrite <- Hx. by apply Hsrcv.
      * apply NoDup_singleton.
    + intros e [He|He]%elem_of_app.
      * apply elem_of_app. left. by apply Hsrcv.
      * apply list_elem_of_singleton in He. subst. simpl. set_solver.
    + intros j u' Hj. rewrite aget_rewritten by lia.
      repeat case_decide; try done.
      * subst. set_solver.
      * apply Hinput. set_solver.
    + intros i' ni' t' u' Hin.
      apply elem_of_app in Hin as [Hin|Hin]; [by apply Hops|].
      apply list_elem_of_singleton in Hin. injection Hin as -> -> -> ->.
      split; [by rewrite <- Huntouched|].
      split; [by eapply Hinput|]. done.
    + intros i' ni' t' Hin.
      apply elem_of_app in Hin as [Hin|Hin]; [by apply Hslid|].
      apply list_elem_of_singleton in Hin. done.
Qed.

Lemma slide_run_inv :
  slide_inv line0 dir (order n dir) (slide_run line0 dir).
Proof.
  unfold slide_run. apply (foldl_visited _ (slide_inv line0 dir)).
  - apply slide_inv_start.
  - intros pre i post st Hord Hinv. by eapply slide_inv_step.
Qed.
End slide_invariants.

(** ** Lines on which nothing can move *)

Lemma slide_step_blocked line dir st i :
  blocked line dir → st_line st = line →
  slide_step (length line) dir st i = st.
Proof.
  intros Hb Hline. unfold slide_step. rewrite Hline.
  destruct (aget line i) as [| |t] eqn:Ht; try done.
  assert (scan (length line) (length line) line (st_locked st) dir
               (tile_value t) i = i) as ->.
  { assert (i < length line) as Hi by (apply aget_defined; by rewrite Ht).
    destruct (length line) as [|k] eqn:Hlen; [lia|]. simpl.
    case_decide as Hj; [done|].
    destruct (Hb i t Ht) as [Hout|[Hund|(u & Hu & Hne)]].
    - rewrite Hlen in Hout. lia.
    - by rewrite Hund.
    - rewrite Hu. rewrite (bool_decide_eq_false_2 (tile_value u = _)) by done.
      by rewrite andb_false_r. }
  by rewrite decide_False by (by intros ?).
Qed.

Lemma slide_run_blocked line dir :
  blocked line dir → slide_run line dir = start line.
Proof.
  intros Hb. unfold slide_run. fold (start line).
  assert (st_line (start line) = line) as Hs by done.
  revert Hs. generalize (start line) as st.
  induction (order (length line) dir) as [|i l IH]; intros st Hs; simpl; [done|].
  rewrite slide_step_blocked by done. by apply IH.
Qed.

Lemma blocked_empty line dir : (∀ x, x ∈ line → x = Null) → blocked line dir.
Proof.
  intros Hnull i t Ht. exfalso.
  assert (Obj t ∈ line) as Hin.
  { apply list_elem_of_lookup. exists i. rewrite <- Ht.
    apply aget_lt, aget_defined. by rewrite Ht. }
  by apply Hnull in Hin.
Qed.

Lemma blocked_packed line dir :
  dir = 1%Z ∨ dir = (-1)%Z → packed line → blocked line dir.
Proof.
  intros Hdir [Hfull Hdiff] i t Ht.
  destruct (decide (Z.of_nat i + dir < 0 ∨ Z.of_nat i + dir >= Z.of_nat (length line))%Z)
    as [|Hin]; [by left|].
  right. right.
  destruct (Hfull (Z.to_nat (Z.of_nat i + dir)) ltac:(lia)) as [u Hu].
  exists u. split; [done|].
  destruct Hdir as [-> | ->].
  - replace (Z.to_nat (Z.of_nat i + 1)) with (S i) in Hu by lia.
    intros Heq. by apply (Hdiff i t u).
  - assert (i = S (Z.to_nat (Z.of_nat i + -1))) as Hi by lia.
    rewrite Hi in Ht. exact (Hdiff _ u t Hu Ht).
Qed.

(** * Boards *)

Lemma relabel_idemp r c x : relabel r c (relabel r c x) = relabel r c x.
Proof. by destruct x. Qed.

Lemma brow_insert (b : board) r r' row :
  r < length b →
  brow (<[r:=row]> b) r' = if decide (r = r') then row else brow b r'.
Proof.
  intros Hr. unfold brow. case_decide as Heq.
  - subst. by rewrite list_lookup_insert_eq.
  - by rewrite list_lookup_insert_ne.
Qed.

Lemma bget_insert_row (b : board) r row r' c :
  r < length b →
  bget (<[r:=row]> b) r' c = if decide (r = r') then aget row c else bget b r' c.
Proof.
  intros Hr. unfold bget. rewrite brow_insert by done. by case_decide.
Qed.

Lemma brow_defined (b : board) r : brow b r ≠ [] → r < length b.
Proof.
  intros H. destruct (decide (r < length b)); [done|].
  exfalso. apply H. unfold brow. rewrite lookup_ge_None_2; [done|lia].
Qed.

Lemma bget_defined (b : board) r c :
  bget b r c ≠ Undefined → r < length b ∧ c < length (brow b r).
Proof.
  intros H. unfold bget in H. apply aget_defined in H.
  split; [|done]. apply brow_defined. intros Hnil. rewrite Hnil in H.
  simpl in H. lia.
Qed.

Lemma bget_bset b r c x r' c' :
  r < length b →
  bget (bset b r c x) r' c'
  = if decide (r = r' ∧ c = c') then x else bget b r' c'.
Proof.
  intros Hr. unfold bget, bset. rewrite brow_insert by done.
  destruct (decide (r = r')) as [->|Hne].
  - rewrite aget_aset. repeat case_decide; naive_solver.
  - rewrite decide_False by naive_solver. done.
Qed.

Lemma length_bset b r c x : length (bset b r c x) = length b.
Proof. unfold bset. apply length_insert. Qed.

Lemma brow_bset_length b r c x r' :
  r < length b → c < length (brow b r) →
  length (brow (bset b r c x) r') = length (brow b r').
Proof.
  intros Hr Hc. unfold bset. rewrite brow_insert by done.
  case_decide; [|done]. subst. by rewrite length_aset_lt.
Qed.

Lemma bget_relabel_at b r c r' c' :
  bget (relabel_at r c b) r' c'
  = if decide (r = r' ∧ c = c') then relabel r c (bget b r c) else bget b r' c'.
Proof.
  unfold relabel_at.
  destruct (bget b r c) as [| |t] eqn:Ht;
    try (case_decide as H; [destruct H as [<- <-]; by rewrite Ht|done]).
  destruct (bget_defined b r c) as [Hr Hc]; [by rewrite Ht|].
  unfold bget. rewrite brow_insert by done.
  destruct (decide (r = r')) as [->|Hne].
  - rewrite aget_insert by done. repeat case_decide; naive_solver.
  - rewrite decide_False by naive_solver. done.
Qed.

Lemma length_relabel_at b r c : length (relabel_at r c b) = length b.
Proof. unfold relabel_at. destruct (bget b r c); by rewrite ?length_insert. Qed.

Lemma brow_relabel_at_length b r c r' :
  length (brow (relabel_at r c b) r') = length (brow b r').
Proof.
  unfold relabel_at. destruct (bget b r c) as [| |t] eqn:Ht; try done.
  destruct (bget_defined b r c) as [Hr Hc]; [by rewrite Ht|].
  rewrite brow_insert by done. case_decide; [|done].
  subst. by rewrite length_insert.
Qed.

Lemma shape_relabel_at n b r c : shape n b → shape n (relabel_at r c b).
Proof.
  intros [Hl Hrows]. split.
  - by rewrite length_relabel_at.
  - intros r' Hr'. rewrite brow_relabel_at_length. by apply Hrows.
Qed.

Lemma shape_bset n b r c x : shape n b → r < n → c < n → shape n (bset b r c x).
Proof.
  intros [Hl Hrows] Hr Hc. split.
  - by rewrite length_bset.
  - intros r' Hr'. rewrite brow_bset_length; [by apply Hrows|lia|].
    rewrite Hrows; lia.
Qed.

(** The relabelling loop of a row. *)
Lemma relabel_row_loop r l : ∀ b r' c',
  bget (foldl (λ b c, relabel_at r c b) b l) r' c'
  = if decide (r = r' ∧ c' ∈ l) then relabel r c' (bget b r' c')
    else bget b r' c'.
Proof.
  induction l as [|c l IH]; intros b r' c'; simpl.
  - rewrite decide_False; [done|]. intros [_ H]. by apply elem_of_nil in H.
  - rewrite IH, !bget_relabel_at.
    destruct (decide (r = r')) as [<-|Hne].
    + destruct (decide (c = c')) as [<-|Hc].
      * rewrite (decide_True (P := r = r ∧ c = c)) by done.
        rewrite (decide_True (P := r = r ∧ c ∈ c :: l)) by (split; [done|by left]).
        case_decide; by rewrite ?relabel_idemp.
      * rewrite (decide_False (P := r = r ∧ c = c')) by naive_solver.
        repeat case_decide; set_solver.
    + repeat case_decide; naive_solver.
Qed.

Lemma shape_relabel_row_loop n r l : ∀ b,
  shape n b → shape n (foldl (λ b c, relabel_at r c b) b l).
Proof.
  induction l as [|c l IH]; intros b Hb; simpl; [done|].
  by apply IH, shape_relabel_at.
Qed.

(** The writing loop of a column. *)
Lemma write_col_loop c (col : list cell) l : ∀ b r' c',
  (∀ r, r ∈ l → r < length b) →
  bget (foldl (λ b r, relabel_at r c (bset b r c (aget col r))) b l) r' c'
  = if decide (c = c' ∧ r' ∈ l) then relabel r' c (aget col r')
    else bget b r' c'.
Proof.
  induction l as [|r l IH]; intros b r' c' Hl; simpl.
  - rewrite decide_False; [done|]. intros [_ H]. by apply elem_of_nil in H.
  - assert (r < length b) as Hr by (apply Hl; by left).
    rewrite IH.
    2:{ intros r0 Hr0. rewrite length_relabel_at, length_bset.
        apply Hl. by right. }
    rewrite bget_relabel_at, !bget_bset by done.
    rewrite (decide_True (P := r = r ∧ c = c)) by done.
    destruct (decide (c = c')) as [<-|Hc].
    + destruct (decide (r = r')) as [<-|Hne].
      * rewrite (decide_True (P := r = r ∧ c = c)) by done.
        rewrite (decide_True (P := c = c ∧ r ∈ r :: l)) by (split; [done|by left]).
        by case_decide.
      * rewrite !(decide_False (P := r = r' ∧ c = c)) by naive_solver.
        repeat case_decide; set_solver.
    + repeat case_decide; naive_solver.
Qed.

Lemma shape_write_col_loop n c (col : list cell) l : ∀ b,
  shape n b → c < n → (∀ r, r ∈ l → r < n) →
  shape n (foldl (λ b r, relabel_at r c (bset b r c (aget col r))) b l).
Proof.
  induction l as [|r l IH]; intros b Hb Hc Hl; simpl; [done|].
  apply IH; [|done|].
  - apply shape_relabel_at, shape_bset; [done| |done]. apply Hl. by left.
  - intros r0 Hr0. apply Hl. by right.
Qed.

(** * The lines of a board *)

Lemma array_tabulate (a : list cell) n :
  length a = n → a = (λ k, aget a k) <$> seq 0 n.
Proof.
  intros Hlen. apply list_eq. intros i.
  destruct (decide (i < n)) as [Hi|Hi].
  - rewrite list_lookup_fmap, lookup_seq_lt by done. simpl.
    apply aget_lt. lia.
  - rewrite !lookup_ge_None_2; [done|rewrite length_fmap, length_seq|]; lia.
Qed.

Lemma length_line_of h b n L : length (line_of h b n L) = n.
Proof. unfold line_of. by rewrite length_fmap, length_seq. Qed.

Lemma aget_line_of h b n L k :
  k < n → aget (line_of h b n L) k = cget h b L k.
Proof.
  intros Hk. unfold aget, line_of.
  by rewrite list_lookup_fmap, lookup_seq_lt.
Qed.

Lemma brow_line_of n b r : shape n b → r < n → brow b r = line_of true b n r.
Proof. intros [_ Hrows] Hr. apply array_tabulate. by apply Hrows. Qed.

Lemma line_of_ext h b b' n L :
  (∀ k, k < n → cget h b L k = cget h b' L k) →
  line_of h b n L = line_of h b' n L.
Proof.
  intros H. unfold line_of. apply list_fmap_ext.
  intros i k Hk. apply lookup_seq in Hk as [-> Hk]. by apply H.
Qed.

Lemma slide_run_length line d :
  d = 1%Z ∨ d = (-1)%Z → length (st_line (slide_run line d)) = length line.
Proof. intros Hd. apply (inv_length _ _ _ _ (slide_run_inv line d Hd)). Qed.

Section line_steps.
Variables (h : bool) (n : nat) (d : Z).
Hypothesis Hd : d = 1%Z ∨ d = (-1)%Z.

Lemma line_step_shape m L :
  shape n (mv_board m) → L < n → shape n (mv_board (line_step h n d m L)).
Proof.
  intros Hs HL. destruct h; simpl.
  - apply shape_relabel_row_loop. destruct Hs as [Hl Hrows]. split.
    + by rewrite length_insert.
    + intros r Hr. rewrite brow_insert by lia. case_decide; [|by apply Hrows].
      rewrite slide_run_length by done. by apply Hrows.
  - apply shape_write_col_loop; [done..|].
    intros r Hr. apply elem_of_seq in Hr. lia.
Qed.

Lemma line_step_cells m L L' k :
  shape n (mv_board m) → L < n → L' < n → k < n →
  cget h (mv_board (line_step h n d m L)) L' k
  = if decide (L' = L)
    then relabel_in h L k
           (aget (st_line (slide_run (line_of h (mv_board m) n L) d)) k)
    else cget h (mv_board m) L' k.
Proof.
  intros Hs HL HL' Hk. pose proof Hs as [Hl Hrows].
  assert (k ∈ seq 0 n) as Hkin by (apply elem_of_seq; lia).
  destruct h; simpl.
  - rewrite relabel_row_loop, !bget_insert_row by lia.
    rewrite <- brow_line_of by done.
    repeat case_decide; naive_solver.
  - rewrite write_col_loop.
    2:{ intros r Hr. apply elem_of_seq in Hr. lia. }
    fold (line_of false (mv_board m) n L).
    repeat case_decide; naive_solver.
Qed.

Lemma line_step_rest m L :
  let res := slide_run (line_of h (mv_board m) n L) d in
  shape n (mv_board m) → L < n →
  mv_moved (line_step h n d m L) = mv_moved m || st_moved res
  ∧ mv_gained (line_step h n d m L) = (mv_gained m + st_gained res)%Z
  ∧ mv_log (line_step h n d m L) = mv_log m ++ (pair L <$> st_log res).
Proof.
  intros res Hs HL. unfold res. destruct h; simpl.
  - by rewrite <- brow_line_of.
  - done.
Qed.
End line_steps.

(** * The loop of [move]: the lines are reduced independently *)

Section move_lines.
Variables (h : bool) (n : nat) (d : Z) (b0 : board).
Hypothesis Hd : d = 1%Z ∨ d = (-1)%Z.
Hypothesis Hshape : shape n b0.

Lemma move_inv_start : move_inv h n d b0 [] (moving0 b0).
Proof.
  split; simpl; done.
Qed.

Lemma move_inv_step pre L post m :
  seq 0 n = pre ++ L :: post →
  move_inv h n d b0 pre m →
  move_inv h n d b0 (pre ++ [L]) (line_step h n d m L).
Proof.
  intros Hseq [Hs Hcells Hmoved Hgained Hlog].
  assert (L < n) as HL.
  { assert (L ∈ seq 0 n) as H by (rewrite Hseq; set_solver).
    apply elem_of_seq in H. lia. }
  assert (L ∉ pre) as Hfresh.
  { pose proof (NoDup_seq 0 n) as Hnd. rewrite Hseq in Hnd.
    apply NoDup_app in Hnd as (_ & Hnd & _).
    intros Hin. apply (Hnd L Hin). by left. }
  assert (line_of h (mv_board m) n L = line_of h b0 n L) as Hline.
  { apply line_of_ext. intros k Hk. rewrite Hcells by done.
    by rewrite decide_False. }
  destruct (line_step_rest h n d m L Hs HL) as (Hm & Hg & Hl).
  rewrite Hline in Hm, Hg, Hl. fold (run h n d b0 L) in Hm, Hg, Hl.
  split.
  - by apply line_step_shape.
  - intros L' k HL' Hk. rewrite line_step_cells, Hline by done.
    fold (run h n d b0 L). rewrite Hcells by done.
    destruct (decide (L' = L)) as [->|Hne].
    + rewrite decide_True; [done|]. set_solver.
    + repeat case_decide; set_solver.
  - rewrite Hm, Hmoved, existsb_app. simpl. by rewrite orb_false_r.
  - rewrite Hg, Hgained, fmap_app, total_app. simpl. lia.
  - rewrite Hl, Hlog, bind_app. simpl. by rewrite app_nil_r.
Qed.

Lemma move_lines_inv :
  move_inv h n d b0 (seq 0 n)
    (foldl (line_step h n d) (moving0 b0) (seq 0 n)).
Proof.
  apply (foldl_visited _ (move_inv h n d b0)).
  - apply move_inv_start.
  - intros pre L post m Hseq Hinv. by eapply move_inv_step.
Qed.
End move_lines.

Lemma slide_dir_unit dir : slide_dir dir = 1%Z ∨ slide_dir dir = (-1)%Z.
Proof. unfold slide_dir. destruct (horizontal dir); case_decide; auto. Qed.

Lemma move_loop_lines b n dir :
  move_loop b n dir
  = foldl (line_step (horizontal dir) n (slide_dir dir)) (moving0 b) (seq 0 n).
Proof. unfold move_loop, slide_dir, line_step. by destruct (horizontal dir). Qed.

(** * toBoard *)

Lemma copy_id t : copy t = t.
Proof. by destruct t. Qed.

Lemma cloneTiles_id tiles : cloneTiles tiles = tiles.
Proof.
  unfold cloneTiles. rewrite <- (list_fmap_id tiles) at 2.
  apply list_fmap_ext. intros i t _. apply copy_id.
Qed.

Lemma length_empty n : length (empty n) = n.
Proof. unfold empty. apply length_replicate. Qed.

Lemma brow_empty n r : r < n → brow (empty n) r = replicate n Null.
Proof. intros Hr. unfold brow, empty. by rewrite lookup_replicate_2. Qed.

Lemma bget_empty n r c : r < n → c < n → bget (empty n) r c = Null.
Proof.
  intros Hr Hc. unfold bget, aget. rewrite brow_empty by done.
  by rewrite lookup_replicate_2.
Qed.

Lemma shape_empty n : shape n (empty n).
Proof.
  split; [apply length_empty|]. intros r Hr.
  rewrite brow_empty by done. apply length_replicate.
Qed.

Lemma aget_aset_Z a k x c :
  aget (aset_Z a k x) c = if decide (k = Z.of_nat c) then x else aget a c.
Proof.
  unfold aset_Z. destruct (decide (0 ≤ k)%Z) as [Hk|Hk].
  - rewrite aget_aset. repeat case_decide; try done; lia.
  - rewrite decide_False; [done|lia].
Qed.

Lemma place_thrown b t :
  place b t = Thrown TypeError ↔ ¬ (0 ≤ tile_r t < Z.of_nat (length b))%Z.
Proof. unfold place. case_decide; split; naive_solver. Qed.

Lemma place_returned b t b' :
  place b t = Returned b' →
  (0 ≤ tile_r t < Z.of_nat (length b))%Z
  ∧ length b' = length b
  ∧ ∀ r c, bget b' r c
           = if decide (position t = cell_pos r c) then Obj t else bget b r c.
Proof.
  unfold place. case_decide as Hr; [|done]. intros [= <-].
  split; [done|]. split; [by rewrite length_insert|].
  intros r c. rewrite bget_insert_row by lia.
  unfold position, cell_pos.
  destruct (decide (Z.to_nat (tile_r t) = r)) as [<-|Hne].
  - rewrite aget_aset_Z. fold (bget b (Z.to_nat (tile_r t)) c).
    repeat case_decide; try done.
    + exfalso. apply H0. f_equal; lia.
    + exfalso. congruence.
  - rewrite decide_False; [done|]. intros [= H1 H2]. lia.
Qed.

Lemma place_shape n b t b' :
  shape n b → (0 ≤ tile_c t < Z.of_nat n)%Z →
  place b t = Returned b' → shape n b'.
Proof.
  intros [Hl Hrows] Hc. unfold place. case_decide as Hr; [|done].
  intros [= <-]. split; [by rewrite length_insert|].
  intros r Hlt. rewrite brow_insert by lia. case_decide; [|by apply Hrows].
  unfold aset_Z. rewrite decide_True by lia.
  rewrite length_aset_lt; [apply Hrows; lia|]. rewrite Hrows; lia.
Qed.

Lemma last_at_cons t ts p :
  last_at (t :: ts) p
  = match last_at ts p with
    | Some t' => Some t'
    | None => if decide (position t = p) then Some t else None
    end.
Proof.
  unfold last_at. rewrite filter_cons. case_decide.
  - rewrite last_cons. by destruct (last _).
  - by destruct (last _).
Qed.

Lemma place_all_cells tiles : ∀ b b',
  place_all b tiles = Returned b' →
  length b' = length b
  ∧ ∀ r c, bget b' r c
           = match last_at tiles (cell_pos r c) with
             | Some t => Obj t
             | None => bget b r c
             end.
Proof.
  induction tiles as [|t ts IH]; intros b b'; simpl.
  - intros [= <-]. done.
  - destruct (place b t) as [b1|e] eqn:Hp; [|done]. intros Hall.
    apply place_returned in Hp as (_ & Hl1 & Hc1).
    apply IH in Hall as (Hl & Hc). split; [congruence|].
    intros r c. rewrite Hc, last_at_cons, Hc1.
    destruct (last_at ts (cell_pos r c)); [done|]. by case_decide.
Qed.

Lemma place_all_thrown tiles : ∀ b e,
  place_all b tiles = Thrown e ↔
  e = TypeError ∧ ∃ t, t ∈ tiles ∧ ¬ (0 ≤ tile_r t < Z.of_nat (length b))%Z.
Proof.
  induction tiles as [|t ts IH]; intros b e; simpl.
  - split; [done|]. intros [_ (t & Ht & _)]. by apply elem_of_nil in Ht.
  - destruct (place b t) as [b1|e1] eqn:Hp.
    + apply place_returned in Hp as (Hr & Hl1 & _).
      rewrite IH, Hl1. split.
      * intros [-> (t' & Ht' & Hbad)]. split; [done|]. exists t'. set_solver.
      * intros [-> (t' & Ht' & Hbad)]. split; [done|]. exists t'.
        split; [|done]. apply elem_of_cons in Ht' as [->|]; done.
    + destruct e1, e. apply place_thrown in Hp. split.
      * intros _. split; [done|]. exists t. split; [by left|done].
      * done.
Qed.

Lemma place_all_shape n tiles : ∀ b b',
  shape n b →
  Forall (λ t, (0 ≤ tile_c t < Z.of_nat n)%Z) tiles →
  place_all b tiles = Returned b' → shape n b'.
Proof.
  induction tiles as [|t ts IH]; intros b b' Hs Hall; simpl.
  - by intros [= <-].
  - destruct (place b t) as [b1|e] eqn:Hp; [|done].
    apply Forall_cons in Hall as [Ht Hts].
    apply IH; [|done]. by eapply place_shape.
Qed.

Lemma last_at_Some tiles p t :
  last_at tiles p = Some t → t ∈ tiles ∧ position t = p.
Proof.
  unfold last_at. intros H%last_Some_elem_of.
  by apply list_elem_of_filter in H as [? ?].
Qed.

Lemma last_at_None tiles p :
  last_at tiles p = None ↔ ∀ t, t ∈ tiles → position t ≠ p.
Proof.
  unfold last_at. rewrite last_None. split.
  - intros Hnil t Ht Hp.
    assert (t ∈ filter (λ t, position t = p) tiles) as Hin
      by (by apply list_elem_of_filter).
    rewrite Hnil in Hin. by apply elem_of_nil in Hin.
  - intros Hall. destruct (filter _ tiles) as [|t l] eqn:Hf; [done|].
    assert (t ∈ filter (λ t, position t = p) tiles) as Hin
      by (rewrite Hf; by left).
    apply list_elem_of_filter in Hin as [? ?]. by destruct (Hall t).
Qed.

Lemma last_at_unique tiles t :
  NoDup (position <$> tiles) → t ∈ tiles →
  last_at tiles (position t) = Some t.
Proof.
  intros Hnd Ht.
  destruct (last_at tiles (position t)) as [t'|] eqn:Hl.
  - apply last_at_Some in Hl as [Ht' Hp]. f_equal.
    apply list_elem_of_lookup in Ht as [i Hi], Ht' as [j Hj].
    assert (i = j) as ->; [|congruence].
    eapply NoDup_lookup; [done|..]; rewrite list_lookup_fmap.
    + by rewrite Hi.
    + rewrite Hj. simpl. by rewrite Hp.
  - rewrite last_at_None in Hl. by destruct (Hl t).
Qed.

Lemma toBoard_returned tiles n :
  Forall (λ t, (0 ≤ tile_r t < Z.of_nat n)%Z) tiles →
  ∃ b, toBoard tiles n = Returned b.
Proof.
  intros Hall. unfold toBoard.
  destruct (place_all (empty n) tiles) as [b|e] eqn:Hp; [by exists b|].
  apply place_all_thrown in Hp as [_ (t & Ht & Hbad)].
  rewrite length_empty in Hbad.
  rewrite Forall_forall in Hall. by destruct (Hbad (Hall t Ht)).
Qed.

Lemma toBoard_cells tiles n b r c :
  toBoard tiles n = Returned b → r < n → c < n →
  bget b r c = match last_at tiles (cell_pos r c) with
               | Some t => Obj t
               | None => Null
               end.
Proof.
  intros Hb Hr Hc. apply place_all_cells in Hb as [_ Hcells].
  rewrite Hcells. by rewrite bget_empty.
Qed.

Lemma toBoard_length tiles n b : toBoard tiles n = Returned b → length b = n.
Proof.
  intros Hb. apply place_all_cells in Hb as [Hl _]. by rewrite length_empty in Hl.
Qed.

Lemma wellFormed_rows n tiles :
  wellFormed n tiles → Forall (λ t, (0 ≤ tile_r t < Z.of_nat n)%Z) tiles.
Proof. intros [_ H]. eapply Forall_impl; [done|]. naive_solver. Qed.

Lemma wellFormed_cols n tiles :
  wellFormed n tiles → Forall (λ t, (0 ≤ tile_c t < Z.of_nat n)%Z) tiles.
Proof. intros [_ H]. eapply Forall_impl; [done|]. naive_solver. Qed.

Lemma toBoard_wellFormed tiles n :
  wellFormed n tiles →
  ∃ b, toBoard tiles n = Returned b ∧ shape n b ∧ labelled n b
       ∧ ∀ t, t ∈ tiles ↔ ∃ r c, r < n ∧ c < n ∧ bget b r c = Obj t.
Proof.
  intros Hwf.
  destruct (toBoard_returned tiles n (wellFormed_rows n tiles Hwf)) as [b Hb].
  exists b. split; [done|]. split; [|split].
  - eapply place_all_shape; [apply shape_empty| |apply Hb].
    by apply wellFormed_cols.
  - intros r c t Hr Hc Ht. rewrite (toBoard_cells _ _ _ _ _ Hb) in Ht by done.
    destruct (last_at tiles (cell_pos r c)) as [t'|] eqn:Hl; [|done].
    injection Ht as ->. by apply last_at_Some in Hl as [_ ?].
  - intros t. split.
    + intros Ht. destruct Hwf as [Hnd Hin]. rewrite Forall_forall in Hin.
      destruct (Hin t Ht) as [Hr Hc].
      exists (Z.to_nat (tile_r t)), (Z.to_nat (tile_c t)).
      split; [lia|]. split; [lia|].
      rewrite (toBoard_cells _ _ _ _ _ Hb) by lia.
      replace (cell_pos _ _) with (position t).
      * by rewrite last_at_unique.
      * unfold position, cell_pos. f_equal; lia.
    + intros (r & c & Hr & Hc & Ht).
      rewrite (toBoard_cells _ _ _ _ _ Hb) in Ht by done.
      destruct (last_at tiles (cell_pos r c)) as [t'|] eqn:Hl; [|done].
      injection Ht as ->. by apply last_at_Some in Hl as [? _].
Qed.

(** * collect *)

Lemma collect_elem b n t :
  t ∈ collect b n ↔ ∃ r c, r < n ∧ c < n ∧ bget b r c = Obj t.
Proof.
  unfold collect. rewrite list_elem_of_bind. split.
  - intros (r & (c & Ht & Hc)%list_elem_of_bind & Hr).
    apply elem_of_seq in Hr, Hc. exists r, c.
    split; [lia|]. split; [lia|].
    destruct (bget b r c); simpl in Ht; try by apply elem_of_nil in Ht.
    apply list_elem_of_singleton in Ht. by subst.
  - intros (r & c & Hr & Hc & Ht). exists r. split; [|apply elem_of_seq; lia].
    apply list_elem_of_bind. exists c. split; [|apply elem_of_seq; lia].
    rewrite Ht. by left.
Qed.

Lemma cell_pos_inj r c r' c' : cell_pos r c = cell_pos r' c' → r = r' ∧ c = c'.
Proof. unfold cell_pos. intros [= H1 H2]. lia. Qed.

Lemma fmap_bind_comm {A B C} (g : B → C) (f : A → list B) (l : list A) :
  g <$> (l ≫= f) = l ≫= λ x, g <$> f x.
Proof.
  induction l as [|x l IH]; csimpl; [done|]. by rewrite fmap_app, IH.
Qed.

Lemma collect_NoDup_positions b n :
  labelled n b → NoDup (position <$> collect b n).
Proof.
  intros Hlab. unfold collect.
  assert (∀ r c p, r ∈ seq 0 n → c ∈ seq 0 n →
                   p ∈ position <$> cell_tiles (bget b r c) → p = cell_pos r c)
    as Hkey.
  { intros r c p Hr Hc Hp. apply elem_of_seq in Hr, Hc.
    destruct (bget b r c) as [| |t] eqn:Ht; simpl in Hp;
      try by apply elem_of_nil in Hp.
    apply list_elem_of_singleton in Hp. subst. apply Hlab; [lia..|done]. }
  rewrite fmap_bind_comm. apply NoDup_bind; [| |apply NoDup_seq].
  - intros r1 r2 p Hr1 Hr2.
    rewrite !fmap_bind_comm, !list_elem_of_bind.
    intros (c1 & Hp1 & Hc1) (c2 & Hp2 & Hc2).
    apply Hkey in Hp1, Hp2; try done.
    rewrite Hp1 in Hp2. by apply cell_pos_inj in Hp2 as [? _].
  - intros r Hr. rewrite fmap_bind_comm.
    apply NoDup_bind; [| |apply NoDup_seq].
    + intros c1 c2 p Hc1 Hc2 Hp1 Hp2.
      apply Hkey in Hp1, Hp2; try done.
      rewrite Hp1 in Hp2. by apply cell_pos_inj in Hp2 as [_ ?].
    + intros c Hc. destruct (bget b r c); simpl;
        [constructor..|apply NoDup_singleton].
Qed.

Lemma collect_NoDup b n : labelled n b → NoDup (collect b n).
Proof. intros H. eapply NoDup_fmap_1, collect_NoDup_positions, H. Qed.

Lemma collect_toBoard tiles n b :
  wellFormed n tiles → toBoard tiles n = Returned b → collect b n ≡ₚ tiles.
Proof.
  intros Hwf Hb.
  destruct (toBoard_wellFormed tiles n Hwf) as (b' & Hb' & Hs & Hlab & Hin).
  assert (b' = b) as -> by congruence.
  apply NoDup_Permutation.
  - by apply collect_NoDup.
  - destruct Hwf as [Hnd _]. by eapply NoDup_fmap_1.
  - intros t. by rewrite collect_elem, Hin.
Qed.

(** The tiles of a board, line by line. *)
Lemma collect_rows b n : collect b n = seq 0 n ≫= λ L, tiles_of (line_of true b n L).
Proof.
  unfold collect. apply list_bind_ext; [|done]. intros r.
  unfold tiles_of, line_of. by rewrite list_fmap_bind.
Qed.

Lemma bind_nil_const {A B} (l : list A) : l ≫= (λ _, @nil B) = [].
Proof. induction l as [|x l IH]; csimpl; done. Qed.

Lemma bind_app_distr {A B} (f g : A → list B) (l : list A) :
  l ≫= (λ x, f x ++ g x) ≡ₚ (l ≫= f) ++ (l ≫= g).
Proof.
  induction l as [|x l IH]; csimpl; [done|].
  rewrite IH, <- !app_assoc. f_equiv.
  rewrite !app_assoc. f_equiv. apply (comm (++)).
Qed.

Lemma bind_swap {A B C} (f : A → B → list C) (l1 : list A) (l2 : list B) :
  (l1 ≫= λ x, l2 ≫= λ y, f x y) ≡ₚ (l2 ≫= λ y, l1 ≫= λ x, f x y).
Proof.
  induction l1 as [|x l1 IH]; csimpl.
  - by rewrite bind_nil_const.
  - by rewrite IH, <- bind_app_distr.
Qed.

Lemma collect_lines h b n :
  collect b n ≡ₚ seq 0 n ≫= λ L, tiles_of (line_of h b n L).
Proof.
  destruct h; [by rewrite collect_rows|].
  unfold collect. rewrite bind_swap.
  apply reflexive_eq, list_bind_ext; [|done]. intros c.
  unfold tiles_of, line_of. by rewrite list_fmap_bind.
Qed.

(** * What a line pass keeps *)

Lemma merge_targets_event log ni :
  ni ∈ merge_targets log → ∃ i t u, Merged i ni t u ∈ log.
Proof.
  unfold merge_targets. intros (e & He & Heq)%list_elem_of_omap.
  destruct e as [|i ni' t u]; [done|]. injection Heq as ->. by exists i, t, u.
Qed.

(** A property of tiles that merging keeps holds of the tiles of the
    result when it holds of the tiles of the line. *)
Lemma slide_run_tiles (P : tile → Prop) line d :
  d = 1%Z ∨ d = (-1)%Z →
  (∀ u, P u → P (merged u)) →
  (∀ t, t ∈ tiles_of line → P t) →
  ∀ t, t ∈ tiles_of (st_line (slide_run line d)) → P t.
Proof.
  intros Hd Hmerged Hline t [j Hj]%tiles_of_elem_inv.
  pose proof (slide_run_inv line d Hd) as Hinv.
  destruct (decide (j ∈ st_locked (slide_run line d))) as [Hl|Hl].
  - apply (inv_locked _ _ _ _ Hinv) in Hl.
    apply merge_targets_event in Hl as (i & t' & u & He).
    pose proof (inv_final _ _ _ _ Hinv _ _ _ _ He) as Hf.
    destruct (inv_operands _ _ _ _ Hinv _ _ _ _ He) as (_ & Hu & _).
    rewrite Hj in Hf. injection Hf as ->. by apply Hmerged, Hline.
  - by eapply Hline, (inv_input _ _ _ _ Hinv).
Qed.

Lemma slide_run_not_moved line d :
  d = 1%Z ∨ d = (-1)%Z →
  st_moved (slide_run line d) = false →
  st_line (slide_run line d) = line ∧ st_gained (slide_run line d) = 0%Z
  ∧ st_log (slide_run line d) = [].
Proof.
  intros Hd Hm. pose proof (slide_run_inv line d Hd) as Hinv.
  rewrite (inv_moved _ _ _ _ Hinv) in Hm. apply bool_decide_eq_false in Hm.
  assert (st_log (slide_run line d) = []) as Hlog.
  { by destruct (decide (st_log (slide_run line d) = [])). }
  split; [by apply (inv_still _ _ _ _ Hinv)|]. split; [|done].
  by rewrite (inv_gained _ _ _ _ Hinv), Hlog.
Qed.

(** Merging two tiles of one value keeps the total. *)
Lemma merges_balanced log :
  (∀ i ni t u, Merged i ni t u ∈ log → tile_value u = tile_value t) →
  total (values (operands log)) = total (values (products log)).
Proof.
  induction log as [|e log IH]; intros Heq; [done|].
  unfold operands, products in *. rewrite !bind_cons, !values_app, !total_app.
  rewrite IH by (intros i ni t u H; eapply Heq; by right).
  destruct e as [|i ni t u]; simpl; [done|].
  rewrite (Heq i ni t u) by (by left). lia.
Qed.

(** * Lists of lines *)

Lemma bind_Permutation_ext {A B} (f g : A → list B) (l : list A) :
  (∀ x, x ∈ l → f x ≡ₚ g x) → l ≫= f ≡ₚ l ≫= g.
Proof.
  induction l as [|x l IH]; intros H; csimpl; [done|].
  rewrite (H x) by (by left). f_equiv. apply IH. intros y Hy. apply H. by right.
Qed.

Lemma bind_balance {A B} (f g f' g' : A → list B) (l : list A) :
  (∀ x, x ∈ l → f x ++ g x ≡ₚ f' x ++ g' x) →
  (l ≫= f) ++ (l ≫= g) ≡ₚ (l ≫= f') ++ (l ≫= g').
Proof.
  intros H. rewrite <- !bind_app_distr. by apply bind_Permutation_ext.
Qed.

Lemma bind_bind {A B C} (f : A → list B) (g : B → list C) (l : list A) :
  (l ≫= f) ≫= g = l ≫= λ x, f x ≫= g.
Proof.
  induction l as [|x l IH]; csimpl; [done|]. by rewrite bind_app, IH.
Qed.

Lemma values_relabelled h L (a : list cell) n :
  length a = n →
  values (tiles_of ((λ k, relabel_in h L k (aget a k)) <$> seq 0 n))
  = values (tiles_of a).
Proof.
  intros Hlen.
  assert (values (tiles_of a)
          = values (tiles_of ((λ k, aget a k) <$> seq 0 n))) as ->
    by (by rewrite <- array_tabulate).
  unfold tiles_of, values. rewrite !list_fmap_bind, !fmap_bind_comm.
  apply list_bind_ext; [|done]. intros k. simpl.
  unfold relabel_in. by destruct h, (aget a k).
Qed.

(** * move on a well-formed tile set *)

Lemma relabel_position r c x t :
  relabel r c x = Obj t → position t = cell_pos r c.
Proof. destruct x as [| |u]; simpl; try done. by intros [= <-]. Qed.

Lemma relabel_labelled r c t :
  position t = cell_pos r c → relabel r c (Obj t) = Obj t.
Proof.
  unfold position, cell_pos. intros [= Hr Hc]. simpl. f_equal.
  destruct t; simpl in *. unfold at_cell; simpl. by rewrite Hr, Hc.
Qed.

Lemma bget_cget (h : bool) (b : board) r c :
  bget b r c = if h then cget h b r c else cget h b c r.
Proof. by destruct h. Qed.

Section move_lines_final.
Variables (n : nat) (dir : string) (b0 : board).
Hypothesis Hshape : shape n b0.
Local Abbreviation h := (horizontal dir).
Local Abbreviation d := (slide_dir dir).
Local Abbreviation m := (move_loop b0 n dir).

Lemma move_loop_inv : move_inv h n d b0 (seq 0 n) m.
Proof.
  rewrite move_loop_lines.
  apply move_lines_inv; [apply slide_dir_unit|done].
Qed.

Lemma move_loop_cells L k :
  L < n → k < n →
  cget h (mv_board m) L k
  = relabel_in h L k (aget (st_line (run h n d b0 L)) k).
Proof.
  intros HL Hk. rewrite (mi_cells _ _ _ _ _ _ move_loop_inv) by done.
  rewrite decide_True; [done|]. apply elem_of_seq. lia.
Qed.

Lemma move_loop_labelled : labelled n (mv_board m).
Proof.
  intros r c t Hr Hc Ht. rewrite (bget_cget h) in Ht.
  pose proof (move_loop_cells r c Hr Hc) as H1.
  pose proof (move_loop_cells c r Hc Hr) as H2.
  unfold relabel_in in *.
  destruct h; [rewrite H1 in Ht|rewrite H2 in Ht];
    by apply relabel_position in Ht.
Qed.

Lemma move_loop_line L :
  L < n →
  line_of h (mv_board m) n L
  = (λ k, relabel_in h L k (aget (st_line (run h n d b0 L)) k)) <$> seq 0 n.
Proof.
  intros HL. unfold line_of. apply list_fmap_ext.
  intros i k Hk. apply lookup_seq in Hk as [-> Hk].
  by apply move_loop_cells.
Qed.
End move_lines_final.

Lemma move_run_wellFormed tiles n dir :
  wellFormed n tiles →
  ∃ b0, toBoard tiles n = Returned b0
        ∧ move_run tiles n dir = Returned (move_loop b0 n dir)
        ∧ shape n b0 ∧ labelled n b0 ∧ collect b0 n ≡ₚ tiles.
Proof.
  intros Hwf.
  destruct (toBoard_wellFormed tiles n Hwf) as (b0 & Hb & Hs & Hlab & _).
  exists b0. split; [done|]. split.
  - unfold move_run. by rewrite cloneTiles_id, Hb.
  - split; [done|]. split; [done|]. by apply collect_toBoard.
Qed.

Lemma labelled_in_grid n b t :
  labelled n b → t ∈ collect b n →
  (0 ≤ tile_r t < Z.of_nat n)%Z ∧ (0 ≤ tile_c t < Z.of_nat n)%Z
  ∧ bget b (Z.to_nat (tile_r t)) (Z.to_nat (tile_c t)) = Obj t.
Proof.
  intros Hlab (r & c & Hr & Hc & Ht)%collect_elem.
  pose proof (Hlab r c t Hr Hc Ht) as Hp.
  unfold position, cell_pos in Hp. injection Hp as -> ->.
  rewrite !Nat2Z.id. split; [lia|]. split; [lia|done].
Qed.

Lemma existsb_false {A} (f : A → bool) (l : list A) :
  existsb f l = false → ∀ x, x ∈ l → f x = false.
Proof.
  induction l as [|y l IH]; simpl; intros H x Hx.
  - by apply elem_of_nil in Hx.
  - apply orb_false_iff in H as [Hy Hl].
    apply elem_of_cons in Hx as [->|Hx]; [done|]. by apply IH.
Qed.

Lemma filter_all {A} (P : A → Prop) `{∀ x, Decision (P x)} (l : list A) :
  Forall P l → filter P l = l.
Proof.
  induction 1 as [|x l Hx Hl IH]; [done|].
  by rewrite filter_cons, decide_True, IH.
Qed.

Lemma total_bind {A} (f : A → list Z) (l : list A) :
  total (l ≫= f) = total ((λ x, total (f x)) <$> l).
Proof.
  induction l as [|x l IH]; csimpl; [done|]. by rewrite total_app, IH.
Qed.

Lemma total_zero (vs : list Z) : (∀ v, v ∈ vs → v = 0%Z) → total vs = 0%Z.
Proof.
  induction vs as [|v vs IH]; intros H; simpl; [done|].
  rewrite (H v) by (by left). rewrite IH; [done|].
  intros w Hw. apply H. by right.
Qed.

Lemma tagged_events (l : list nat) (f : nat → list event) :
  (l ≫= λ L, pair L <$> f L).*2 = l ≫= f.
Proof.
  rewrite fmap_bind_comm. apply list_bind_ext; [|done]. intros L.
  rewrite <- list_fmap_compose. apply list_fmap_id.
Qed.

Lemma line_tiles_collect h b n L t :
  L < n → t ∈ tiles_of (line_of h b n L) → t ∈ collect b n.
Proof.
  intros HL Ht. rewrite (collect_lines h). apply list_elem_of_bind.
  exists L. split; [done|]. apply elem_of_seq. lia.
Qed.

Section move_conserved.
Variables (n : nat) (dir : string) (b0 : board).
Hypothesis Hshape : shape n b0.
Local Abbreviation h := (horizontal dir).
Local Abbreviation d := (slide_dir dir).
Local Abbreviation m := (move_loop b0 n dir).

Lemma move_loop_log :
  (mv_log m).*2 = seq 0 n ≫= λ L, st_log (run h n d b0 L).
Proof.
  rewrite (mi_log _ _ _ _ _ _ (move_loop_inv n dir b0 Hshape)).
  apply tagged_events.
Qed.

Lemma move_loop_event e :
  e ∈ (mv_log m).*2 → ∃ L, L < n ∧ e ∈ st_log (run h n d b0 L).
Proof.
  rewrite move_loop_log. intros (L & He & HL)%list_elem_of_bind.
  apply elem_of_seq in HL. exists L. split; [lia|done].
Qed.

Lemma move_loop_values :
  values (collect (mv_board m) n)
  ≡ₚ seq 0 n ≫= λ L, values (tiles_of (st_line (run h n d b0 L))).
Proof.
  unfold values at 1. rewrite (collect_lines h). rewrite fmap_bind_comm.
  apply reflexive_eq, Forall_bind_ext, Forall_forall.
  intros L HL%elem_of_seq.
  rewrite move_loop_line by (done || lia).
  apply values_relabelled. unfold run.
  rewrite slide_run_length by apply slide_dir_unit.
  apply length_line_of.
Qed.

Lemma move_loop_conserved :
  values (collect (mv_board m) n) ++ values (operands (mv_log m).*2)
  ≡ₚ values (collect b0 n) ++ values (products (mv_log m).*2).
Proof.
  rewrite move_loop_values.
  unfold operands, products. rewrite move_loop_log, !bind_bind.
  unfold values. rewrite (collect_lines h b0), !fmap_bind_comm.
  apply bind_balance. intros L _.
  pose proof (slide_run_inv (line_of h b0 n L) d (slide_dir_unit dir)) as Hinv.
  pose proof (inv_conserved _ _ _ _ Hinv) as Hc.
  apply (fmap_Permutation tile_value) in Hc. rewrite !fmap_app in Hc.
  exact Hc.
Qed.

Lemma move_loop_gained :
  mv_gained m = total (values (products (mv_log m).*2)).
Proof.
  rewrite (mi_gained _ _ _ _ _ _ (move_loop_inv n dir b0 Hshape)).
  unfold products. rewrite move_loop_log, bind_bind.
  unfold values. rewrite fmap_bind_comm, total_bind.
  f_equal. apply list_fmap_ext. intros i L _.
  apply (inv_gained _ _ _ _ (slide_run_inv _ d (slide_dir_unit dir))).
Qed.

Lemma move_loop_equal_operands i ni t u :
  Merged i ni t u ∈ (mv_log m).*2 → tile_value u = tile_value t.
Proof.
  intros (L & _ & He)%move_loop_event.
  by destruct (inv_operands _ _ _ _
                 (slide_run_inv _ d (slide_dir_unit dir)) _ _ _ _ He)
    as (_ & _ & ? & _).
Qed.

(** The tiles of the final board are alive when those of the first are. *)
Lemma move_loop_alive :
  alive (collect b0 n) → alive (collect (mv_board m) n).
Proof.
  unfold alive. rewrite !Forall_forall. intros Halive t Ht.
  apply collect_elem in Ht as (r & c & Hr & Hc & Ht).
  rewrite (bget_cget h) in Ht.
  assert (∃ L k t', L < n ∧ aget (st_line (run h n d b0 L)) k = Obj t'
                    ∧ tile_dead t = tile_dead t') as (L & k & t' & HL & Hk & ->).
  { pose proof (move_loop_cells n dir b0 Hshape r c Hr Hc) as H1.
    pose proof (move_loop_cells n dir b0 Hshape c r Hc Hr) as H2.
    unfold relabel_in in *.
    destruct h; [rewrite H1 in Ht|rewrite H2 in Ht].
    - destruct (aget _ c) as [| |t'] eqn:Ha; simpl in Ht; try done.
      injection Ht as <-. by exists r, c, t'.
    - destruct (aget _ r) as [| |t'] eqn:Ha; simpl in Ht; try done.
      injection Ht as <-. by exists c, r, t'. }
  apply (slide_run_tiles (λ t, tile_dead t = false) (line_of h b0 n L) d
           (slide_dir_unit dir)).
  - done.
  - intros t0 Ht0. apply Halive. by eapply line_tiles_collect.
  - by eapply tiles_of_elem.
Qed.
End move_conserved.

(** * The specification *)

(** C10. For a well-formed tile set and any direction, [move] returns, and
    the tile set it returns is well-formed again: no two tiles share a
    cell, every coordinate lies in the grid, and the [r] and [c] fields of
    each returned tile name the cell of the final board that holds it. *)
Theorem move_keeps_wellFormed tiles n dir :
  wellFormed n tiles →
  ∃ m out,
    move_run tiles n dir = Returned m
    ∧ move tiles n dir = Returned out
    ∧ wellFormed n (out_tiles out)
    ∧ ∀ t, t ∈ out_tiles out →
           bget (mv_board m) (Z.to_nat (tile_r t)) (Z.to_nat (tile_c t)) = Obj t.
Proof.
  intros Hwf.
  destruct (move_run_wellFormed tiles n dir Hwf) as (b0 & _ & Hrun & Hs & _).
  pose proof (move_loop_labelled n dir b0 Hs) as Hlab.
  eexists _, _. split; [exact Hrun|]. split.
  { unfold move. rewrite Hrun. reflexivity. }
  simpl. split; [split|].
  - eapply sublist_NoDup; [apply (collect_NoDup_positions _ _ Hlab)|].
    apply fmap_sublist, sublist_filter.
  - apply Forall_forall. intros t [_ Ht]%list_elem_of_filter.
    destruct (labelled_in_grid _ _ _ Hlab Ht) as (? & ? & _). done.
  - intros t [_ Ht]%list_elem_of_filter.
    by destruct (labelled_in_grid _ _ _ Hlab Ht) as (_ & _ & ?).
Qed.

Lemma move_keeps_wellFormed_witness :
  ∃ m out,
    move_run two_twos 4 "L" = Returned m
    ∧ move two_twos 4 "L" = Returned out
    ∧ wellFormed 4 (out_tiles out)
    ∧ ∀ t, t ∈ out_tiles out →
           bget (mv_board m) (Z.to_nat (tile_r t)) (Z.to_nat (tile_c t)) = Obj t.
Proof.
  apply move_keeps_wellFormed.
  by_computation.
Defined.

(** C1, as the specification states it, fails: merging the two tiles of
    value 2 gives one tile of value 4 and [gained = 4], so the sum after the
    move is 4, not 4 + 4. *)
Lemma move_sum_plus_gained_fails :
  ¬ ∀ tiles n dir out,
      wellFormed n tiles → alive tiles →
      move tiles n dir = Returned out →
      total (values (out_tiles out))
      = (total (values tiles) + out_gained out)%Z.
Proof.
  intros H.
  assert (wellFormed 4 two_twos) as Hwf
    by by_computation.
  assert (alive two_twos) as Hal
    by by_computation.
  specialize (H two_twos 4 "L"%string _ Hwf Hal eq_refl).
  vm_compute in H. discriminate H.
Qed.

(** C1, amended. For a well-formed tile set, none of whose tiles carries
    the mark [dead], and any direction, the values before the move together
    with the values of the merge results are, as a multiset, the values
    after the move together with the values of the merged pairs. Hence the
    sum of the tile values after the move is the sum before it, and
    [gained] is the sum of the values of the merge results. *)
Theorem move_conserves_values tiles n dir :
  wellFormed n tiles → alive tiles →
  ∃ m out,
    move_run tiles n dir = Returned m
    ∧ move tiles n dir = Returned out
    ∧ values (out_tiles out) ++ values (operands (mv_log m).*2)
      ≡ₚ values tiles ++ values (products (mv_log m).*2)
    ∧ total (values (out_tiles out)) = total (values tiles)
    ∧ out_gained out = total (values (products (mv_log m).*2)).
Proof.
  intros Hwf Halive.
  destruct (move_run_wellFormed tiles n dir Hwf)
    as (b0 & _ & Hrun & Hs & _ & Hperm).
  eexists _, _. split; [exact Hrun|]. split.
  { unfold move. rewrite Hrun. reflexivity. }
  simpl.
  assert (alive (collect b0 n)) as Hal0 by (unfold alive; by rewrite Hperm).
  rewrite (filter_all _ _ (move_loop_alive n dir b0 Hs Hal0)).
  pose proof (move_loop_conserved n dir b0 Hs) as Hcons.
  unfold values at 3 in Hcons. rewrite Hperm in Hcons.
  fold (values tiles) in Hcons.
  split; [exact Hcons|]. split; [|by apply move_loop_gained].
  assert (total (values (collect (mv_board (move_loop b0 n dir)) n)
                 ++ values (operands (mv_log (move_loop b0 n dir)).*2))
          = total (values tiles
                   ++ values (products (mv_log (move_loop b0 n dir)).*2)))
    as Htot by (by rewrite Hcons).
  rewrite !total_app in Htot.
  rewrite (merges_balanced (mv_log (move_loop b0 n dir)).*2) in Htot.
  - lia.
  - intros i ni t u. by apply move_loop_equal_operands.
Qed.

Lemma move_conserves_values_witness :
  ∃ m out,
    move_run two_twos 4 "L" = Returned m
    ∧ move two_twos 4 "L" = Returned out
    ∧ values (out_tiles out) ++ values (operands (mv_log m).*2)
      ≡ₚ values two_twos ++ values (products (mv_log m).*2)
    ∧ total (values (out_tiles out)) = total (values two_twos)
    ∧ out_gained out = total (values (products (mv_log m).*2)).
Proof.
  apply move_conserves_values.
  - by_computation.
  - by_computation.
Defined.

(** C4. For a well-formed tile set, none of whose tiles carries the mark
    [dead], and any direction, [move] returns; when it returns
    [moved = false], the returned tiles are the input tiles, with their
    identities, positions and values, and [gained] is 0. *)
Theorem move_rejected_unchanged tiles n dir :
  wellFormed n tiles → alive tiles →
  ∃ out,
    move tiles n dir = Returned out
    ∧ (out_moved out = false →
       out_tiles out ≡ₚ tiles ∧ out_gained out = 0%Z).
Proof.
  intros Hwf Halive.
  destruct (move_run_wellFormed tiles n dir Hwf)
    as (b0 & _ & Hrun & Hs & Hlab & Hperm).
  eexists. split.
  { unfold move. rewrite Hrun. reflexivity. }
  simpl. intros Hmoved.
  pose proof (move_loop_inv n dir b0 Hs) as Hinv.
  rewrite (mi_moved _ _ _ _ _ _ Hinv) in Hmoved.
  pose proof (existsb_false _ _ Hmoved) as Hstill.
  assert (∀ L, L < n →
            st_line (run (horizontal dir) n (slide_dir dir) b0 L)
            = line_of (horizontal dir) b0 n L
            ∧ st_gained (run (horizontal dir) n (slide_dir dir) b0 L) = 0%Z)
    as Hlines.
  { intros L HL.
    destruct (slide_run_not_moved (line_of (horizontal dir) b0 n L)
                (slide_dir dir) (slide_dir_unit dir)) as (? & ? & _); [|done].
    apply Hstill, elem_of_seq. lia. }
  assert (∀ r c, r < n → c < n →
            bget (mv_board (move_loop b0 n dir)) r c = bget b0 r c) as Hcells.
  { intros r c Hr Hc. rewrite !(bget_cget (horizontal dir)).
    pose proof (move_loop_cells n dir b0 Hs r c Hr Hc) as H1.
    pose proof (move_loop_cells n dir b0 Hs c r Hc Hr) as H2.
    destruct (Hlines r Hr) as [Hr1 _]. destruct (Hlines c Hc) as [Hc1 _].
    rewrite Hr1, aget_line_of in H1 by done.
    rewrite Hc1, aget_line_of in H2 by done.
    pose proof (Hlab r c) as Hl. unfold relabel_in, cget in *.
    destruct (horizontal dir); [rewrite H1|rewrite H2];
      (destruct (bget b0 r c) as [| |t]; [done..|]);
      by apply relabel_labelled, Hl. }
  assert (collect (mv_board (move_loop b0 n dir)) n = collect b0 n) as ->.
  { unfold collect. apply Forall_bind_ext, Forall_forall.
    intros r Hr%elem_of_seq.
    apply Forall_bind_ext, Forall_forall. intros c Hc%elem_of_seq.
    rewrite Hcells by lia. done. }
  split.
  - rewrite filter_all; [done|]. unfold alive in Halive. by rewrite Hperm.
  - rewrite (mi_gained _ _ _ _ _ _ Hinv). apply total_zero.
    intros v (L & -> & HL%elem_of_seq)%list_elem_of_fmap.
    apply Hlines. lia.
Qed.

Lemma move_rejected_unchanged_witness :
  ∃ out,
    move two_four 4 "L" = Returned out
    ∧ (out_moved out = false →
       out_tiles out ≡ₚ two_four ∧ out_gained out = 0%Z).
Proof.
  apply move_rejected_unchanged.
  - by_computation.
  - by_computation.
Defined.

(** * slideLine against the rule of the game *)

Lemma squash_two t u rest :
  squash (t :: u :: rest)
  = if bool_decide (tile_value t = tile_value u)
    then merged t :: squash rest else t :: squash (u :: rest).
Proof. done. Qed.

Lemma squash_gain_two t u rest :
  squash_gain (t :: u :: rest)
  = if bool_decide (tile_value t = tile_value u)
    then (tile_value t * 2 + squash_gain rest)%Z else squash_gain (u :: rest).
Proof. done. Qed.

Lemma settle_last acc u g t :
  settle {| sq_out := acc ++ [u]; sq_free := true; sq_gain := g |} t
  = if bool_decide (tile_value u = tile_value t)
    then {| sq_out := acc ++ [merged u]; sq_free := false;
            sq_gain := (g + tile_value u * 2)%Z |}
    else {| sq_out := (acc ++ [u]) ++ [t]; sq_free := true; sq_gain := g |}.
Proof.
  unfold settle. simpl. rewrite last_snoc.
  case_bool_decide; [|done].
  rewrite length_app. simpl.
  replace (length acc + 1 - 1) with (length acc) by lia.
  by rewrite take_app_length.
Qed.

Lemma settle_locked acc g t :
  settle {| sq_out := acc; sq_free := false; sq_gain := g |} t
  = {| sq_out := acc ++ [t]; sq_free := true; sq_gain := g |}.
Proof. unfold settle. simpl. by destruct (last acc). Qed.

Lemma settle_squash ts :
  (∀ acc u g,
     sq_out (foldl settle {| sq_out := acc ++ [u]; sq_free := true;
                             sq_gain := g |} ts)
     = acc ++ squash (u :: ts)
     ∧ sq_gain (foldl settle {| sq_out := acc ++ [u]; sq_free := true;
                                sq_gain := g |} ts)
       = (g + squash_gain (u :: ts))%Z)
  ∧ (∀ acc g,
       sq_out (foldl settle {| sq_out := acc; sq_free := false;
                               sq_gain := g |} ts)
       = acc ++ squash ts
       ∧ sq_gain (foldl settle {| sq_out := acc; sq_free := false;
                                  sq_gain := g |} ts)
         = (g + squash_gain ts)%Z).
Proof.
  induction ts as [|t ts [IHA IHB]]; split.
  - intros acc u g. simpl. split; [done|lia].
  - intros acc g. simpl. rewrite app_nil_r. split; [done|lia].
  - intros acc u g. rewrite squash_two, squash_gain_two.
    cbn [foldl]. rewrite settle_last. case_bool_decide.
    + destruct (IHB (acc ++ [merged u]) (g + tile_value u * 2)%Z) as [-> ->].
      rewrite <- app_assoc. split; [done|lia].
    + destruct (IHA (acc ++ [u]) t g) as [-> ->].
      rewrite <- app_assoc. split; [done|lia].
  - intros acc g. cbn [foldl]. rewrite settle_locked. apply IHA.
Qed.

Lemma settle_all ts :
  sq_out (foldl settle unsettled ts) = squash ts
  ∧ sq_gain (foldl settle unsettled ts) = squash_gain ts.
Proof.
  destruct (settle_squash ts) as [_ H]. destruct (H [] 0%Z) as [H1 H2].
  unfold unsettled. rewrite H1, H2. split; [done|lia].
Qed.

Lemma order_idx n dir : order n dir = idx n dir <$> seq 0 n.
Proof.
  apply list_eq. intros j. destruct (decide (j < n)) as [Hj|Hj].
  - rewrite order_lookup, list_lookup_fmap, lookup_seq_lt by done. done.
  - rewrite !lookup_ge_None_2; [done|..].
    + rewrite length_fmap, length_seq. lia.
    + rewrite order_length. lia.
Qed.

Lemma toward_length dir a : length (toward dir a) = length a.
Proof. unfold toward. case_decide; by rewrite ?length_reverse. Qed.

Lemma toward_get dir a q :
  q < length a → aget (toward dir a) (idx (length a) dir q) = aget a q.
Proof.
  intros Hq. unfold toward, idx, aget. case_decide; [|done].
  rewrite reverse_lookup by lia. do 2 f_equal. lia.
Qed.

Lemma toward_tabulate dir a :
  (λ q, aget a (idx (length a) dir q)) <$> seq 0 (length a) = toward dir a.
Proof.
  apply list_eq. intros j. destruct (decide (j < length a)) as [Hj|Hj].
  - rewrite list_lookup_fmap, lookup_seq_lt by done. simpl.
    unfold toward, idx. case_decide.
    + rewrite reverse_lookup by done. symmetry.
      replace (length a - S j) with (length a - 1 - j) by lia.
      apply aget_lt. lia.
    + symmetry. by apply aget_lt.
  - rewrite !lookup_ge_None_2; [done|..].
    + rewrite toward_length. lia.
    + rewrite length_fmap, length_seq. lia.
Qed.

Section distances.
Variables (n : nat) (dir : Z).
Hypothesis Hdir : dir = 1%Z ∨ dir = (-1)%Z.
Local Abbreviation ix := (idx n dir).

Lemma idx_lt q : q < n → ix q < n.
Proof. unfold idx. case_decide; lia. Qed.

Lemma idx_inj q q' : q < n → q' < n → ix q = ix q' → q = q'.
Proof. unfold idx. case_decide; lia. Qed.

Lemma idx_back q :
  q < n → 0 < q → (Z.of_nat (ix q) + dir)%Z = Z.of_nat (ix (q - 1)).
Proof. unfold idx. destruct Hdir as [-> | ->]; case_decide; try done; lia. Qed.

Lemma idx_edge :
  0 < n →
  (Z.of_nat (ix 0) + dir < 0 ∨ Z.of_nat (ix 0) + dir >= Z.of_nat n)%Z.
Proof. unfold idx. destruct Hdir as [-> | ->]; case_decide; try done; lia. Qed.

Variables (line : list cell) (locked : gset nat) (v : Z).

Lemma scan_to_edge k : ∀ fuel,
  k < n → k < fuel →
  (∀ q, q < k → aget line (ix q) = Null) →
  scan fuel n line locked dir v (ix k) = ix 0.
Proof.
  induction k as [|k IH]; intros fuel Hk Hf Hgap;
    (destruct fuel as [|fuel]; [lia|]); simpl.
  - rewrite decide_True; [done|]. apply idx_edge. lia.
  - rewrite idx_back by lia.
    replace (S k - 1) with k by lia.
    rewrite decide_False by (pose proof (idx_lt k); lia).
    rewrite Nat2Z.id, Hgap by lia.
    apply IH; [lia..|]. intros q Hq. apply Hgap. lia.
Qed.

Lemma scan_to_tile p u e : ∀ fuel,
  S p + e < n → e < fuel →
  aget line (ix p) = Obj u →
  (∀ q, S p ≤ q < S p + e → aget line (ix q) = Null) →
  scan fuel n line locked dir v (ix (S p + e))
  = if bool_decide (ix p ∉ locked) && bool_decide (tile_value u = v)
    then ix p else ix (S p).
Proof.
  induction e as [|e IH]; intros fuel Hk Hf Hu Hgap;
    (destruct fuel as [|fuel]; [lia|]); simpl.
  - rewrite Nat.add_0_r, idx_back by lia.
    replace (S p - 1) with p by lia.
    rewrite decide_False by (pose proof (idx_lt p); lia).
    by rewrite Nat2Z.id, Hu.
  - rewrite idx_back by lia.
    replace (S (p + S e) - 1) with (S p + e) by lia.
    rewrite decide_False by (pose proof (idx_lt (S p + e)); lia).
    rewrite Nat2Z.id, Hgap by lia.
    apply IH; [lia..|done|]. intros q Hq. apply Hgap. lia.
Qed.
End distances.

Section refinement.
Variables (line0 : list cell) (dir : Z).
Hypothesis Hdir : dir = 1%Z ∨ dir = (-1)%Z.
Hypothesis Hdef : ∀ j, j < length line0 → aget line0 j ≠ Undefined.
Local Abbreviation n := (length line0).
Local Abbreviation ix := (idx n dir).

Lemma aget_moved (a : list cell) k p x y q :
  length a = n → k < n → p < n → q < n →
  aget (<[ix k:=x]> (<[ix p:=y]> a)) (ix q)
  = if decide (q = k) then x else if decide (q = p) then y
    else aget a (ix q).
Proof.
  intros Ha Hk Hp Hq.
  rewrite aget_rewritten by (rewrite Ha; by apply idx_lt).
  destruct (decide (q = k)) as [->|Hne]; [by rewrite decide_True|].
  rewrite decide_False by (intros H%idx_inj; done).
  destruct (decide (q = p)) as [->|Hne']; [by rewrite decide_True|].
  by rewrite decide_False by (intros H%idx_inj; done).
Qed.

(** The tile stays where it is: it is the next settled tile. *)
Lemma settled_stay k st s t :
  k < n → length (sq_out s) = k → aget line0 (ix k) = Obj t →
  settled_inv line0 dir k st s →
  settled_inv line0 dir (S k) st
    {| sq_out := sq_out s ++ [t]; sq_free := true; sq_gain := sq_gain s |}.
Proof.
  intros Hk Hp Ht [Hlen Hb Hplaced Hgap Hrest Hlocked Hlast Hgain].
  split; simpl; try done.
  - rewrite length_app. simpl. lia.
  - intros q t' Hq. apply lookup_app_Some in Hq as [Hq|[Hge Hq]].
    + by apply Hplaced.
    + apply list_lookup_singleton_Some in Hq as [Hq <-].
      replace q with k by lia. rewrite Hrest by lia. done.
  - intros q. rewrite length_app. simpl. lia.
  - intros q H1 H2. apply Hrest; lia.
  - intros j Hj. destruct (Hlocked j Hj) as (q & Hq & ->).
    exists q. rewrite length_app. simpl. split; [lia|done].
  - intros p. rewrite length_app. simpl. intros Hpp.
    split; [|done]. intros _ Hin.
    destruct (Hlocked _ Hin) as (q & Hq & Heq).
    apply idx_inj in Heq; lia.
Qed.

(** The tile slides over empty cells to the first free one. *)
Lemma settled_move k st s t :
  k < n → length (sq_out s) < k → aget line0 (ix k) = Obj t →
  settled_inv line0 dir k st s →
  settled_inv line0 dir (S k)
    {| st_line := <[ix k:=Null]>
                    (<[ix (length (sq_out s)):=Obj t]> (st_line st));
       st_locked := st_locked st;
       st_moved := true;
       st_gained := st_gained st;
       st_log := st_log st ++ [Slid (ix k) (ix (length (sq_out s))) t] |}
    {| sq_out := sq_out s ++ [t]; sq_free := true; sq_gain := sq_gain s |}.
Proof.
  intros Hk Hp Ht [Hlen Hb Hplaced Hgap Hrest Hlocked Hlast Hgain].
  split; simpl; try done.
  - by rewrite !length_insert.
  - rewrite length_app. simpl. lia.
  - intros q t' Hq. apply lookup_app_Some in Hq as [Hq|[Hge Hq]].
    + pose proof (lookup_lt_Some _ _ _ Hq) as Hlt.
      rewrite aget_moved by (done || lia).
      rewrite !decide_False by lia. by apply Hplaced.
    + apply list_lookup_singleton_Some in Hq as [Hq <-].
      rewrite aget_moved by (done || lia).
      rewrite decide_False by lia. by rewrite decide_True by lia.
  - intros q. rewrite length_app. simpl. intros H1 H2.
    rewrite aget_moved by (done || lia).
    case_decide; [done|]. rewrite decide_False by lia.
    apply Hgap; lia.
  - intros q H1 H2. rewrite aget_moved by (done || lia).
    rewrite !decide_False by lia. apply Hrest; lia.
  - intros j Hj. destruct (Hlocked j Hj) as (q & Hq & ->).
    exists q. rewrite length_app. simpl. split; [lia|done].
  - intros p. rewrite length_app. simpl. intros Hpp.
    split; [|done]. intros _ Hin.
    destruct (Hlocked _ Hin) as (q & Hq & Heq).
    apply idx_inj in Heq; lia.
Qed.

(** The tile merges into the last settled tile, which is locked. *)
Lemma settled_merge k st s t p u :
  k < n → length (sq_out s) = S p → sq_out s !! p = Some u →
  settled_inv line0 dir k st s →
  settled_inv line0 dir (S k)
    {| st_line := <[ix k:=Null]> (<[ix p:=Obj (merged u)]> (st_line st));
       st_locked := {[ix p]} ∪ st_locked st;
       st_moved := true;
       st_gained := (st_gained st + tile_value u * 2)%Z;
       st_log := st_log st ++ [Merged (ix k) (ix p) t u] |}
    {| sq_out := take p (sq_out s) ++ [merged u]; sq_free := false;
       sq_gain := (sq_gain s + tile_value u * 2)%Z |}.
Proof.
  intros Hk Hp Hu [Hlen Hb Hplaced Hgap Hrest Hlocked Hlast Hgain].
  assert (length (take p (sq_out s) ++ [merged u]) = S p) as Hlen'.
  { rewrite length_app, length_take. simpl. lia. }
  split; simpl; try done.
  - by rewrite !length_insert.
  - lia.
  - intros q t' Hq. apply lookup_app_Some in Hq as [Hq|[Hge Hq]].
    + apply lookup_take_Some in Hq as [Hq Hlt].
      rewrite aget_moved by (done || lia).
      rewrite !decide_False by lia. by apply Hplaced.
    + rewrite length_take in Hge, Hq.
      apply list_lookup_singleton_Some in Hq as [Hq <-].
      rewrite aget_moved by (done || lia).
      rewrite decide_False by lia. by rewrite decide_True by lia.
  - intros q. rewrite Hlen'. intros H1 H2.
    rewrite aget_moved by (done || lia).
    case_decide; [done|]. rewrite decide_False by lia.
    apply Hgap; lia.
  - intros q H1 H2. rewrite aget_moved by (done || lia).
    rewrite !decide_False by lia. apply Hrest; lia.
  - intros j [Hj|Hj]%elem_of_union; rewrite Hlen'.
    + apply elem_of_singleton in Hj. exists p. split; [lia|done].
    + destruct (Hlocked j Hj) as (q & Hq & ->). exists q. split; [lia|done].
  - intros p'. rewrite Hlen'. intros [= <-]. split; [done|].
    intros H. exfalso. apply H. set_solver.
  - by rewrite Hgain.
Qed.

Lemma settled_inv_step k st s :
  k < n → settled_inv line0 dir k st s →
  settled_inv line0 dir (S k) (slide_step n dir st (ix k))
    (foldl settle s (cell_tiles (aget line0 (ix k)))).
Proof.
  intros Hk Hinv. pose proof Hinv as
    [Hlen Hb Hplaced Hgap Hrest Hlocked Hlast Hgain].
  pose proof (Hrest k ltac:(lia) Hk) as Hcell.
  assert (ix k < n) as Hik by (by apply idx_lt).
  unfold slide_step. rewrite Hcell.
  destruct (aget line0 (ix k)) as [| |t] eqn:Hc0.
  - by destruct (Hdef (ix k) Hik).
  - simpl. split; try done.
    + lia.
    + intros q H1 H2. destruct (decide (q = k)) as [->|Hne].
      * by rewrite Hcell.
      * apply Hgap; lia.
    + intros q H1 H2. apply Hrest; lia.
  - cbn [cell_tiles foldl].
    set (p := length (sq_out s)) in *.
    set (ni := scan n n (st_line st) (st_locked st) dir (tile_value t) (ix k)).
    assert ((ni = ix p
             ∧ settle s t = {| sq_out := sq_out s ++ [t]; sq_free := true;
                               sq_gain := sq_gain s |})
            ∨ ∃ p' u, p = S p' ∧ sq_out s !! p' = Some u
                      ∧ (ix p' ∉ st_locked st)
                      ∧ tile_value u = tile_value t
                      ∧ ni = ix p'
                      ∧ settle s t
                        = {| sq_out := take p' (sq_out s) ++ [merged u];
                             sq_free := false;
                             sq_gain := (sq_gain s + tile_value u * 2)%Z |})
      as [[Hni Hs]|(p' & u & Hp & Hu & Hfree & Hv & Hni & Hs)].
    { destruct p as [|p'] eqn:Hp.
      - left. split.
        + unfold ni. apply scan_to_edge; [done..|].
          intros q Hq. apply Hgap; lia.
        + unfold settle. apply nil_length_inv in Hp. by rewrite Hp.
      - destruct (lookup_lt_is_Some_2 (sq_out s) p' ltac:(lia)) as [u Hu].
        assert (last (sq_out s) = Some u) as Hlastu.
        { rewrite last_lookup. fold p. by rewrite Hp. }
        assert (ni = if bool_decide (ix p' ∉ st_locked st)
                        && bool_decide (tile_value u = tile_value t)
                     then ix p' else ix (S p')) as Hscan.
        { unfold ni. replace k with (S p' + (k - S p')) by lia.
          apply scan_to_tile; [done|lia|lia|by apply Hplaced|].
          intros q Hq. apply Hgap; lia. }
        pose proof (Hlast p' eq_refl) as Hfree.
        unfold settle. rewrite Hlastu. fold p. rewrite Hp.
        replace (S p' - 1) with p' by lia.
        destruct (sq_free s).
        + rewrite (bool_decide_eq_true_2 (ix p' ∉ st_locked st)) in Hscan
            by (by apply Hfree).
          simpl in *. case_bool_decide as Hv.
          * right. exists p', u. split_and!; try done. by apply Hfree.
          * by left.
        + rewrite (bool_decide_eq_false_2 (ix p' ∉ st_locked st)) in Hscan.
          * by left.
          * intros Hn. by apply Hfree in Hn. }
    + rewrite Hs, Hni. destruct (decide (p = k)) as [Hpk|Hpk].
      * rewrite Hpk, decide_False by (by intros ?).
        by apply settled_stay.
      * rewrite decide_True by (intros H%idx_inj; done || lia).
        rewrite Hgap by lia.
        rewrite (aset_lt (st_line st)) by (rewrite Hlen; apply idx_lt; lia).
        rewrite aset_lt by (by rewrite length_insert, Hlen).
        apply settled_move; [done|lia|done..].
    + rewrite Hs, Hni.
      rewrite decide_True by (intros H%idx_inj; done || lia).
      rewrite (Hplaced _ _ Hu).
      rewrite Hv, !bool_decide_eq_true_2 by done. simpl.
      rewrite (aset_lt (st_line st)) by (rewrite Hlen; apply idx_lt; lia).
      rewrite aset_lt by (by rewrite length_insert, Hlen).
      rewrite <- Hv. by apply settled_merge.
Qed.

Lemma settled_inv_run k :
  k ≤ n →
  settled_inv line0 dir k
    (foldl (slide_step n dir) (start line0) (ix <$> seq 0 k))
    (foldl settle unsettled
           (tiles_of ((λ q, aget line0 (ix q)) <$> seq 0 k))).
Proof.
  induction k as [|k IH]; intros Hk.
  - split; simpl; try done; lia.
  - rewrite seq_S, !fmap_app. simpl.
    unfold tiles_of. rewrite bind_app, !foldl_app. simpl.
    rewrite app_nil_r. fold (tiles_of ((λ q, aget line0 (ix q)) <$> seq 0 k)).
    apply settled_inv_step; [lia|]. apply IH. lia.
Qed.
End refinement.

Lemma toward_involutive dir a : toward dir (toward dir a) = a.
Proof. unfold toward. case_decide; by rewrite ?reverse_involutive. Qed.

Lemma tiles_of_packed (ts : list tile) k :
  tiles_of ((Obj <$> ts) ++ replicate k Null) = ts.
Proof.
  unfold tiles_of. rewrite bind_app.
  assert (replicate k Null ≫= cell_tiles = []) as ->.
  { induction k as [|k IH]; csimpl; done. }
  rewrite app_nil_r. induction ts as [|t ts IH]; csimpl; [done|].
  by rewrite IH.
Qed.

Lemma squash_length ts : length (squash ts) ≤ length ts.
Proof.
  assert (∀ k ts, length ts ≤ k → length (squash ts) ≤ length ts) as H.
  { clear ts. induction k as [|k IH]; intros ts Hk.
    - destruct ts; simpl in *; lia.
    - destruct ts as [|t [|u rest]]; simpl; [lia..|].
      case_bool_decide; simpl.
      + pose proof (IH rest ltac:(simpl in *; lia)). lia.
      + pose proof (IH (u :: rest) ltac:(simpl in *; lia)).
        simpl in *. lia. }
  by apply (H (length ts)).
Qed.

(** [slideLine] implements the rule: read from the edge the line slides
    to, the result is the squashed tiles followed by empty cells, and the
    score is that of the rule. *)
Lemma slideLine_squash line dir :
  dir = 1%Z ∨ dir = (-1)%Z →
  Undefined ∉ line →
  res_line (slideLine line dir)
  = toward dir ((Obj <$> squash (tiles_of (toward dir line)))
                ++ replicate (length line
                              - length (squash (tiles_of (toward dir line))))
                             Null)
  ∧ res_gained (slideLine line dir) = squash_gain (tiles_of (toward dir line)).
Proof.
  intros Hdir Hfull. simpl.
  assert (∀ j, j < length line → aget line j ≠ Undefined) as Hdef.
  { intros j Hj Hu. apply Hfull, list_elem_of_lookup. exists j.
    rewrite <- Hu. by apply aget_lt. }
  assert (settled_inv line dir (length line) (slide_run line dir)
            (foldl settle unsettled (tiles_of (toward dir line)))) as Hinv.
  { unfold slide_run. rewrite order_idx, <- toward_tabulate.
    by apply settled_inv_run. }
  destruct (settle_all (tiles_of (toward dir line))) as [Hout Hgain].
  destruct Hinv as [Hlen Hb Hplaced Hgap _ _ _ Hg].
  rewrite Hout in Hb, Hplaced, Hgap. rewrite Hgain in Hg.
  split; [|done].
  set (ts := squash (tiles_of (toward dir line))) in *.
  rewrite <- (toward_involutive dir (st_line (slide_run line dir))). f_equal.
  rewrite <- toward_tabulate, Hlen.
  rewrite (array_tabulate (_ ++ _) (length line)).
  2:{ rewrite length_app, length_fmap, length_replicate. lia. }
  apply list_fmap_ext. intros q ? [-> Hq]%lookup_seq. simpl.
  destruct (decide (q < length ts)) as [Hlt|Hge].
  - destruct (lookup_lt_is_Some_2 ts q Hlt) as [t Ht].
    rewrite (Hplaced q t Ht). unfold aget.
    rewrite lookup_app_l by (by rewrite length_fmap).
    by rewrite list_lookup_fmap, Ht.
  - rewrite Hgap by lia. unfold aget.
    rewrite lookup_app_r by (rewrite length_fmap; lia).
    rewrite lookup_replicate_2; [done|]. rewrite length_fmap. lia.
Qed.

Lemma squash_head t rest :
  ∃ t' more, squash (t :: rest) = t' :: more ∧ (t' = t ∨ t' = merged t).
Proof.
  destruct rest as [|u rest]; [by exists t, []; auto|].
  rewrite squash_two. case_bool_decide; eauto.
Qed.

(** Tiles that cannot merge with the tile before them are squashed on
    their own. *)
Lemma squash_app front ts :
  (∀ p h, last front = Some p → head ts = Some h →
          tile_value p ≠ tile_value h) →
  squash (front ++ ts) = squash front ++ squash ts
  ∧ squash_gain (front ++ ts) = (squash_gain front + squash_gain ts)%Z.
Proof.
  assert (∀ k front, length front ≤ k →
            (∀ p h, last front = Some p → head ts = Some h →
                    tile_value p ≠ tile_value h) →
            squash (front ++ ts) = squash front ++ squash ts
            ∧ squash_gain (front ++ ts)
              = (squash_gain front + squash_gain ts)%Z) as H.
  { clear front. induction k as [|k IH]; intros front Hk Hlast.
    - destruct front; [done|simpl in Hk; lia].
    - destruct front as [|x [|y front]]; [done| |].
      + destruct ts as [|h ts]; [done|]. simpl app.
        rewrite squash_two, squash_gain_two.
        rewrite bool_decide_eq_false_2 by (by apply Hlast). done.
      + simpl app. rewrite !squash_two, !squash_gain_two.
        case_bool_decide.
        * destruct (IH front) as [-> ->]; [simpl in Hk; lia| |split; [done|lia]].
          intros p h Hp Hh. apply Hlast; [|done].
          rewrite !last_cons, Hp. done.
        * destruct (IH (y :: front)) as [H1 H2]; [simpl in *; lia| |].
          { intros p h Hp Hh. apply Hlast; [|done].
            rewrite last_cons, Hp. done. }
          simpl app in H1, H2. rewrite H1, H2. done. }
  by apply (H (length front)).
Qed.

(** C2, as the specification states it, fails: of three neighbouring
    tiles of one value, the pair nearest the edge need not merge. In
    [2, 2, 2, 2] slid toward index 0 the second, third and fourth tiles are
    such a triple, and the second tile merges into the first: the line
    becomes [4, 4, null, null], where no tile has the identity of the
    second tile and twice its value. *)
Lemma slideLine_three_equal_inner_fails :
  ¬ ∀ line dir front t1 t2 t3 rest,
      dir = 1%Z ∨ dir = (-1)%Z →
      Undefined ∉ line →
      tiles_of (toward dir line) = front ++ t1 :: t2 :: t3 :: rest →
      tile_value t1 = tile_value t2 → tile_value t2 = tile_value t3 →
      {| tile_id := tile_id t1; tile_r := tile_r t1; tile_c := tile_c t1;
         tile_value := (tile_value t1 * 2)%Z;
         tile_bump := true; tile_dead := tile_dead t1 |}
      ∈ tiles_of (res_line (slideLine line dir)).
Proof.
  intros H.
  pose proof (H four_twos (-1)%Z [T 1 0 0 2] (T 2 0 1 2) (T 3 0 2 2)
                (T 4 0 3 2) [] (or_intror eq_refl)) as Hin.
  assert (Undefined ∉ four_twos) as Hdef by by_computation.
  specialize (Hin Hdef eq_refl eq_refl eq_refl).
  vm_compute in Hin.
  repeat (apply elem_of_cons in Hin as [Hin|Hin]; [discriminate Hin|]).
  by apply elem_of_nil in Hin.
Qed.

(** C2, amended. Three neighbouring tiles of one value [v], in slide
    order, of which the first does not follow a tile of value [v] (it is
    the first tile, or the tile before it has another value): the first
    two merge into one tile, which keeps the identity of the first, has
    the value [2v] and carries the mark of a merge, and [gained] counts
    [2v] for it; the third tile is not merged into it and comes next to
    it, keeping its value unless the tile after it has the value [v] too
    and merges into it. When the three are the only tiles, the line
    becomes [2v, v, null, ...] with [gained = 2v] and [moved = true]; so
    [2, null, 2, 2] slid toward index 0 gives [4, 2, null, null] and
    [gained = 4]. *)
Theorem slideLine_three_equal line dir front t1 t2 t3 rest :
  dir = 1%Z ∨ dir = (-1)%Z →
  Undefined ∉ line →
  tiles_of (toward dir line) = front ++ t1 :: t2 :: t3 :: rest →
  (∀ p, last front = Some p → tile_value p ≠ tile_value t1) →
  tile_value t1 = tile_value t2 → tile_value t2 = tile_value t3 →
  let pair := {| tile_id := tile_id t1; tile_r := tile_r t1;
                 tile_c := tile_c t1;
                 tile_value := (tile_value t1 * 2)%Z;
                 tile_bump := true; tile_dead := tile_dead t1 |} in
  slideLine line dir
  = {| res_line :=
         toward dir
           ((Obj <$> squash front ++ pair :: squash (t3 :: rest))
            ++ replicate (length line - length (squash front)
                          - S (length (squash (t3 :: rest)))) Null);
       res_moved := true;
       res_gained := (squash_gain front + tile_value t1 * 2
                      + squash_gain (t3 :: rest))%Z |}
  ∧ pair ∈ tiles_of (res_line (slideLine line dir))
  ∧ (∀ u rest', rest = u :: rest' → tile_value u = tile_value t3 →
       squash (t3 :: rest)
       = {| tile_id := tile_id t3; tile_r := tile_r t3; tile_c := tile_c t3;
            tile_value := (tile_value t3 * 2)%Z;
            tile_bump := true; tile_dead := tile_dead t3 |} :: squash rest'
       ∧ squash_gain (t3 :: rest)
         = (tile_value t3 * 2 + squash_gain rest')%Z)
  ∧ (∀ u rest', rest = u :: rest' → tile_value u ≠ tile_value t3 →
       squash (t3 :: rest) = t3 :: squash rest
       ∧ squash_gain (t3 :: rest) = squash_gain rest)
  ∧ (rest = [] →
     squash (t3 :: rest) = [t3] ∧ squash_gain (t3 :: rest) = 0%Z)
  ∧ (front = [] → rest = [] →
     slideLine line dir
     = {| res_line := toward dir ([Obj pair; Obj t3]
                                  ++ replicate (length line - 2) Null);
          res_moved := true;
          res_gained := (tile_value t1 * 2)%Z |}).
Proof.
  intros Hdir Hfull Hts Hfront H12 H23 pair.
  assert (slideLine line dir
          = {| res_line :=
                 toward dir
                   ((Obj <$> squash front ++ pair :: squash (t3 :: rest))
                    ++ replicate (length line - length (squash front)
                                  - S (length (squash (t3 :: rest)))) Null);
               res_moved := true;
               res_gained := (squash_gain front + tile_value t1 * 2
                              + squash_gain (t3 :: rest))%Z |}) as Hres.
  { change pair with (merged t1).
    destruct (slideLine_squash line dir Hdir Hfull) as [Hline Hgain].
    destruct (squash_app front (t1 :: t2 :: t3 :: rest)) as [Hsq Hsg].
    { intros p h Hp [= <-]. by apply Hfront. }
    rewrite Hts, Hsq in Hline. rewrite Hts, Hsg in Hgain.
    rewrite squash_two, bool_decide_eq_true_2 in Hline by done.
    rewrite squash_gain_two, bool_decide_eq_true_2 in Hgain by done.
    rewrite length_app in Hline. cbn [length] in Hline.
    replace (length line
             - (length (squash front) + S (length (squash (t3 :: rest)))))
      with (length line - length (squash front)
            - S (length (squash (t3 :: rest)))) in Hline by lia.
    assert (res_moved (slideLine line dir) = true) as Hmoved.
    { destruct (res_moved (slideLine line dir)) eqn:Hm; [done|]. exfalso.
      destruct (slide_run_not_moved line dir Hdir Hm) as (Hsame & _).
      change (res_line (slideLine line dir))
        with (st_line (slide_run line dir)) in Hline.
      rewrite Hsame in Hline.
      apply (f_equal (λ a, length (tiles_of (toward dir a)))) in Hline.
      cbv beta in Hline.
      rewrite Hts, toward_involutive in Hline.
      rewrite (tiles_of_packed
                 (squash front ++ merged t1 :: squash (t3 :: rest))) in Hline.
      rewrite !length_app in Hline. cbn [length] in Hline.
      pose proof (squash_length (t3 :: rest)) as H3.
      pose proof (squash_length front). cbn [length] in H3. lia. }
    destruct (slideLine line dir) as [l mv g]. simpl in *. subst.
    f_equal. lia. }
  split_and!.
  - exact Hres.
  - rewrite Hres. cbn [res_line].
    assert (Obj pair ∈ toward dir
              ((Obj <$> squash front ++ pair :: squash (t3 :: rest))
               ++ replicate (length line - length (squash front)
                             - S (length (squash (t3 :: rest)))) Null))
      as Hin.
    { assert (Obj pair ∈ (Obj <$> squash front ++ pair :: squash (t3 :: rest))
                ++ replicate (length line - length (squash front)
                              - S (length (squash (t3 :: rest)))) Null)
        as Hin.
      { apply elem_of_app. left. apply list_elem_of_fmap_2.
        apply elem_of_app. right. by left. }
      unfold toward. case_decide; [by apply elem_of_reverse|done]. }
    apply list_elem_of_lookup in Hin as [j Hj].
    apply (tiles_of_elem _ j). unfold aget. by rewrite Hj.
  - intros u rest' -> Hu. rewrite squash_two, squash_gain_two.
    rewrite bool_decide_eq_true_2 by done. done.
  - intros u rest' -> Hu. rewrite squash_two, squash_gain_two.
    rewrite bool_decide_eq_false_2 by done. done.
  - by intros ->.
  - intros -> ->. rewrite Hres. simpl.
    rewrite Nat.sub_0_r, Z.add_0_l, Z.add_0_r. done.
Qed.

Lemma slideLine_three_equal_witness :
  slideLine line_2_2_2 (-1)
  = {| res_line :=
         [Obj {| tile_id := 1; tile_r := 0; tile_c := 0; tile_value := 4;
                 tile_bump := true; tile_dead := false |};
          Obj {| tile_id := 3; tile_r := 0; tile_c := 3; tile_value := 2;
                 tile_bump := false; tile_dead := false |};
          Null; Null];
       res_moved := true;
       res_gained := 4 |}.
Proof.
  destruct (slideLine_three_equal line_2_2_2 (-1) []
              (T 1 0 0 2) (T 2 0 2 2) (T 3 0 3 2) []) as (_ & _ & _ & _ & _ & H).
  - by right.
  - by_computation.
  - reflexivity.
  - intros p Hp. discriminate Hp.
  - reflexivity.
  - reflexivity.
  - exact (H eq_refl eq_refl).
Defined.

(** An iteration that leaves [moved] at [false] found its tile blocked. *)
Lemma slide_step_still line dir i :
  dir = 1%Z ∨ dir = (-1)%Z →
  st_moved (slide_step (length line) dir (start line) i) = false →
  slide_step (length line) dir (start line) i = start line
  ∧ ∀ t, aget line i = Obj t →
      (Z.of_nat i + dir < 0 ∨ Z.of_nat i + dir >= Z.of_nat (length line))%Z
      ∨ aget line (Z.to_nat (Z.of_nat i + dir)) = Undefined
      ∨ ∃ u, aget line (Z.to_nat (Z.of_nat i + dir)) = Obj u
             ∧ tile_value u ≠ tile_value t.
Proof.
  intros Hdir. unfold slide_step. cbn [st_line st_locked start].
  destruct (aget line i) as [| |t] eqn:Ht; [done..|].
  set (ni := scan (length line) (length line) line ∅ dir (tile_value t) i).
  assert (i < length line) as Hi by (apply aget_defined; by rewrite Ht).
  destruct (decide (ni ≠ i)) as [Hne|Heq].
  { intros Hm. exfalso.
    destruct (aget line ni) as [| |u]; [done..|].
    by destruct (bool_decide _ && bool_decide _). }
  intros _. split; [done|]. intros t' [= <-].
  assert (ni = i) as Hni by (by destruct (decide (ni = i))).
  unfold ni in Hni. destruct (length line) as [|k] eqn:Hlen; [lia|].
  simpl in Hni. case_decide as Hj; [by left|]. right.
  destruct (aget line (Z.to_nat (Z.of_nat i + dir))) as [| |u] eqn:Hu.
  - by left.
  - exfalso.
    destruct (scan_walks (S k) line ∅ dir (tile_value t) k
                (Z.to_nat (Z.of_nat i + dir))) as (w & Hw & _).
    rewrite Hni in Hw. destruct Hdir as [-> | ->]; lia.
  - right. exists u. split; [done|]. intros Hv.
    rewrite bool_decide_eq_true_2 in Hni by set_solver.
    rewrite bool_decide_eq_true_2 in Hni by done. simpl in Hni.
    destruct Hdir as [-> | ->]; lia.
Qed.

Lemma slide_step_moved n dir st i :
  st_moved st = true → st_moved (slide_step n dir st i) = true.
Proof.
  intros Hm. unfold slide_step.
  destruct (aget (st_line st) i) as [| |t]; [done..|].
  case_decide; [|done].
  destruct (aget (st_line st) _) as [| |u]; [done..|].
  by destruct (bool_decide _ && bool_decide _).
Qed.

Lemma slide_run_still line dir :
  dir = 1%Z ∨ dir = (-1)%Z →
  st_moved (slide_run line dir) = false → blocked line dir.
Proof.
  intros Hdir Hm.
  assert (∀ i, i ∈ order (length line) dir →
            st_moved (slide_step (length line) dir (start line) i) = false)
    as Hall.
  { revert Hm. unfold slide_run. fold (start line).
    apply (foldl_visited (slide_step (length line) dir)
             (λ pre st,
                st_moved st = false →
                st = start line
                ∧ ∀ i, i ∈ pre →
                    st_moved (slide_step (length line) dir (start line) i)
                    = false)).
    - intros _. split; [done|]. intros i Hin. by apply elem_of_nil in Hin.
    - intros pre i post st _ IH Hm.
      destruct (st_moved st) eqn:Hst.
      { by rewrite slide_step_moved in Hm. }
      destruct (IH eq_refl) as [-> Hpre].
      destruct (slide_step_still line dir i Hdir Hm) as [-> _].
      split; [done|]. intros i' [Hin|Hin]%elem_of_app; [by apply Hpre|].
      apply list_elem_of_singleton in Hin. subst.
      by destruct (slide_step_still line dir i Hdir Hm) as [-> _]. }
  intros i t Ht.
  assert (i < length line) as Hi by (apply aget_defined; by rewrite Ht).
  assert (i ∈ order (length line) dir) as Hin.
  { rewrite order_idx. apply list_elem_of_fmap.
    exists (idx (length line) dir i). unfold idx.
    split; [case_decide; lia|]. apply elem_of_seq. case_decide; lia. }
  destruct (slide_step_still line dir i Hdir (Hall i Hin)) as [_ Hb].
  by apply Hb.
Qed.

(** C9. [slideLine] reports [moved = true] exactly when its pass relocated
    a tile to another index or merged two tiles (the events of the pass);
    that is, exactly when some tile of the line has an empty cell or a tile
    of its value next to it in the direction of the slide. It reports
    [moved = false] exactly when it returns the line as it was, and then
    [gained = 0]. An empty line and a full line without two equal
    neighbours come back unchanged with [moved = false] and [gained = 0]. *)
Theorem slideLine_moved_iff line dir :
  dir = 1%Z ∨ dir = (-1)%Z →
  (res_moved (slideLine line dir) = true ↔ st_log (slide_run line dir) ≠ [])
  ∧ (∀ e, e ∈ st_log (slide_run line dir) →
       match e with
       | Slid i ni t => aget line i = Obj t ∧ ni ≠ i ∧ ni < length line
       | Merged i ni t u =>
           aget line i = Obj t ∧ u ∈ tiles_of line
           ∧ tile_value u = tile_value t ∧ ni < length line
       end)
  ∧ (res_moved (slideLine line dir) = true ↔ ¬ blocked line dir)
  ∧ (res_moved (slideLine line dir) = false
     ↔ res_line (slideLine line dir) = line)
  ∧ (res_moved (slideLine line dir) = false
     → res_gained (slideLine line dir) = 0%Z)
  ∧ ((∀ x, x ∈ line → x = Null) →
     slideLine line dir
     = {| res_line := line; res_moved := false; res_gained := 0%Z |})
  ∧ (packed line →
     slideLine line dir
     = {| res_line := line; res_moved := false; res_gained := 0%Z |}).
Proof.
  intros Hdir. pose proof (slide_run_inv line dir Hdir) as Hinv.
  split_and!.
  - simpl. rewrite (inv_moved _ _ _ _ Hinv). apply bool_decide_eq_true.
  - intros [i ni t|i ni t u] He.
    + by apply (inv_slid _ _ _ _ Hinv).
    + destruct (inv_operands _ _ _ _ Hinv _ _ _ _ He) as (? & ? & ? & ? & _).
      done.
  - simpl. split.
    + intros Hm Hb. by rewrite (slide_run_blocked line dir Hb) in Hm.
    + intros Hnb. destruct (st_moved (slide_run line dir)) eqn:Hm; [done|].
      by destruct (Hnb (slide_run_still line dir Hdir Hm)).
  - split.
    + intros Hm. by apply slide_run_not_moved.
    + simpl. intros Hsame.
      destruct (st_moved (slide_run line dir)) eqn:Hm; [|done]. exfalso.
      rewrite (inv_moved _ _ _ _ Hinv) in Hm. apply bool_decide_eq_true in Hm.
      pose proof (inv_potential _ _ _ _ Hinv) as Hpot. rewrite Hsame in Hpot.
      destruct (st_log (slide_run line dir)); [done|]. simpl in Hpot. lia.
  - intros Hm. by apply slide_run_not_moved.
  - intros Hnull. unfold slideLine.
    by rewrite slide_run_blocked by (by apply blocked_empty).
  - intros Hpacked. unfold slideLine.
    by rewrite slide_run_blocked by (by apply blocked_packed).
Qed.

Lemma slideLine_moved_iff_witness :
  slideLine line_empty (-1)
  = {| res_line := line_empty; res_moved := false; res_gained := 0%Z |}.
Proof.
  destruct (slideLine_moved_iff line_empty (-1)) as (_ & _ & _ & _ & _ & H & _).
  - by right.
  - apply H. intros x Hx.
    repeat (apply elem_of_cons in Hx as [Hx|Hx]; [exact Hx|]).
    by apply elem_of_nil in Hx.
Defined.

Lemma merge_cells_tagged h L log :
  merge_cells h (pair L <$> log)
  = (λ ni, if h then (L, ni) else (ni, L)) <$> merge_targets log.
Proof.
  unfold merge_cells, merge_targets.
  induction log as [|e log IH]; [done|]. csimpl.
  destruct e; simpl; by rewrite IH.
Qed.

Lemma merge_cells_tag h log p :
  p ∈ merge_cells h log → ∃ e, ((if h then p.1 else p.2), e) ∈ log.
Proof.
  unfold merge_cells. intros ([L e] & He & Hp)%list_elem_of_omap.
  simpl in Hp. destruct e; [done|]. injection Hp as <-.
  eexists. by destruct h.
Qed.

Lemma move_loop_merge_cells b n dir :
  NoDup (merge_cells (horizontal dir) (mv_log (move_loop b n dir))).
Proof.
  rewrite move_loop_lines.
  set (h := horizontal dir). set (d := slide_dir dir).
  assert (∀ m L, ∃ line,
            mv_log (line_step h n d m L)
            = mv_log m ++ (pair L <$> st_log (slide_run line d))) as Hstep.
  { intros m L. unfold line_step. destruct h; eexists; reflexivity. }
  apply (foldl_visited (line_step h n d)
           (λ pre m, (∀ L e, (L, e) ∈ mv_log m → L ∈ pre)
                     ∧ NoDup (merge_cells h (mv_log m)))).
  - split; [|constructor]. intros L e H. by apply elem_of_nil in H.
  - intros pre L post m Hseq [Htags Hnd].
    destruct (Hstep m L) as [line ->].
    assert (L ∉ pre) as Hfresh.
    { pose proof (NoDup_seq 0 n) as Hs. rewrite Hseq in Hs.
      apply NoDup_app in Hs as (_ & Hs & _).
      intros Hin. apply (Hs L Hin). by left. }
    split.
    + intros L' e [H|H]%elem_of_app.
      * apply elem_of_app. left. by eapply Htags.
      * apply list_elem_of_fmap in H as (e' & [= -> ->] & _). set_solver.
    + unfold merge_cells. rewrite omap_app. fold (merge_cells h (mv_log m)).
      fold (merge_cells h (pair L <$> st_log (slide_run line d))).
      apply NoDup_app. split; [done|]. split.
      * intros p Hold Hnew.
        apply merge_cells_tag in Hold as [e He].
        apply merge_cells_tag in Hnew as [e' He'].
        apply list_elem_of_fmap in He' as (e'' & [= HL _] & _).
        apply Hfresh. rewrite <- HL. by eapply Htags.
      * rewrite merge_cells_tagged. apply NoDup_fmap_2.
        { intros x y. destruct h; by intros [= ->]. }
        apply (inv_targets _ _ _ _
                 (slide_run_inv line d (slide_dir_unit dir))).
Qed.

(** C3. In one call of [slideLine] no index is the target of two merges:
    the targets are the locked indices, each merge takes two tiles of the
    input line (never the result of a merge), and the tile it makes is in
    the returned line at the index it was made at. In one call of [move] no
    cell is the target of two merges. *)
Theorem merges_lock_their_cell :
  (∀ line dir,
     dir = 1%Z ∨ dir = (-1)%Z →
     NoDup (merge_targets (st_log (slide_run line dir)))
     ∧ (∀ ni, ni ∈ st_locked (slide_run line dir)
              ↔ ni ∈ merge_targets (st_log (slide_run line dir)))
     ∧ NoDup (event_source <$> st_log (slide_run line dir))
     ∧ ∀ i ni t u,
         Merged i ni t u ∈ st_log (slide_run line dir) →
         aget line i = Obj t ∧ u ∈ tiles_of line
         ∧ tile_value u = tile_value t
         ∧ aget (res_line (slideLine line dir)) ni = Obj (merged u))
  ∧ (∀ tiles n dir m,
       move_run tiles n dir = Returned m →
       NoDup (merge_cells (horizontal dir) (mv_log m))).
Proof.
  split.
  - intros line dir Hdir. pose proof (slide_run_inv line dir Hdir) as Hinv.
    split_and!.
    + apply (inv_targets _ _ _ _ Hinv).
    + apply (inv_locked _ _ _ _ Hinv).
    + apply (inv_sources _ _ _ _ Hinv).
    + intros i ni t u He.
      destruct (inv_operands _ _ _ _ Hinv _ _ _ _ He) as (? & ? & ? & _).
      split_and!; try done. by apply (inv_final _ _ _ _ Hinv _ _ _ _ He).
  - intros tiles n dir m. unfold move_run.
    destruct (toBoard (cloneTiles tiles) n) as [b|e]; [|done].
    intros [= <-]. apply move_loop_merge_cells.
Qed.

Lemma merges_lock_their_cell_witness :
  NoDup (merge_targets (st_log (slide_run four_twos (-1))))
  ∧ NoDup (merge_cells (horizontal "L") (mv_log (move_loop (empty 4) 4 "L"))).
Proof.
  destruct merges_lock_their_cell as [Hline Hmove]. split.
  - destruct (Hline four_twos (-1)%Z) as [H _]; [by right|exact H].
  - apply (Hmove [] 4 "L"%string). reflexivity.
Defined.

Lemma existsb_false_iff {A} (f : A → bool) (l : list A) :
  existsb f l = false ↔ ∀ x, x ∈ l → f x = false.
Proof.
  split; [apply existsb_false|].
  induction l as [|y l IH]; intros H; simpl; [done|].
  rewrite (H y) by (by left). simpl. apply IH. intros x Hx. apply H. by right.
Qed.

Lemma moves_at_false b n r c :
  moves_at b n r c = false ↔
  ∃ t, bget b r c = Obj t
       ∧ (r + 1 < n → ∀ u, bget b (r + 1) c = Obj u →
          tile_value u ≠ tile_value t)
       ∧ (c + 1 < n → ∀ u, bget b r (c + 1) = Obj u →
          tile_value u ≠ tile_value t).
Proof.
  unfold moves_at. destruct (bget b r c) as [| |t].
  - split; [done|]. by intros (t & ? & _).
  - split; [done|]. by intros (t & ? & _).
  - rewrite orb_false_iff, !andb_false_iff, !bool_decide_eq_false. split.
    + intros [Hdown Hright]. exists t. split; [done|]. split.
      * intros Hr u Hu. destruct Hdown as [?|Hdown]; [done|].
        rewrite Hu in Hdown. by apply bool_decide_eq_false in Hdown.
      * intros Hc u Hu. destruct Hright as [?|Hright]; [done|].
        rewrite Hu in Hright. by apply bool_decide_eq_false in Hright.
    + intros (t' & [= <-] & Hdown & Hright). split.
      * destruct (decide (r + 1 < n)) as [Hr|Hr]; [|by left]. right.
        destruct (bget b (r + 1) c) as [| |u]; [done..|].
        apply bool_decide_eq_false. by apply Hdown.
      * destruct (decide (c + 1 < n)) as [Hc|Hc]; [|by left]. right.
        destruct (bget b r (c + 1)) as [| |u]; [done..|].
        apply bool_decide_eq_false. by apply Hright.
Qed.

(** C5. [anyMovesLeft] returns [false] exactly when every cell of the board
    holds a tile and no two cells adjacent in a column or in a row hold
    equal values. *)
Theorem anyMovesLeft_false_iff (b : board) :
  anyMovesLeft b = false ↔
  (∀ r c, r < length b → c < length b → ∃ t, bget b r c = Obj t)
  ∧ (∀ r c t u, r + 1 < length b → c < length b →
       bget b r c = Obj t → bget b (r + 1) c = Obj u →
       tile_value t ≠ tile_value u)
  ∧ (∀ r c t u, r < length b → c + 1 < length b →
       bget b r c = Obj t → bget b r (c + 1) = Obj u →
       tile_value t ≠ tile_value u).
Proof.
  unfold anyMovesLeft. rewrite existsb_false_iff.
  setoid_rewrite existsb_false_iff. setoid_rewrite moves_at_false.
  setoid_rewrite elem_of_seq. split.
  - intros H. split_and!.
    + intros r c Hr Hc.
      destruct (H r ltac:(lia) c ltac:(lia)) as (t & Ht & _). by exists t.
    + intros r c t u Hr Hc Ht Hu.
      destruct (H r ltac:(lia) c ltac:(lia)) as (t' & Ht' & Hdown & _).
      assert (t' = t) as -> by congruence.
      intros Heq. by apply (Hdown Hr u Hu).
    + intros r c t u Hr Hc Ht Hu.
      destruct (H r ltac:(lia) c ltac:(lia)) as (t' & Ht' & _ & Hright).
      assert (t' = t) as -> by congruence.
      intros Heq. by apply (Hright Hc u Hu).
  - intros (Hfull & Hdown & Hright) r Hr c Hc.
    destruct (Hfull r c ltac:(lia) ltac:(lia)) as [t Ht].
    exists t. split; [done|]. split.
    + intros Hr' u Hu Heq. apply (Hdown r c t u); (done || lia).
    + intros Hc' u Hu Heq. apply (Hright r c t u); (done || lia).
Qed.

(** * spawn *)

Lemma free_cells_elem b n r c :
  (r, c) ∈ free_cells b n ↔ r < n ∧ c < n ∧ truthy (bget b r c) = false.
Proof.
  unfold free_cells. rewrite list_elem_of_bind. split.
  - intros (r' & (c' & Hin & Hc)%list_elem_of_bind & Hr).
    apply elem_of_seq in Hr, Hc.
    destruct (truthy (bget b r' c')) eqn:Ht; [by apply elem_of_nil in Hin|].
    apply list_elem_of_singleton in Hin. injection Hin as -> ->.
    split; [lia|]. split; [lia|done].
  - intros (Hr & Hc & Ht). exists r. split; [|apply elem_of_seq; lia].
    apply list_elem_of_bind. exists c. split; [|apply elem_of_seq; lia].
    rewrite Ht. by left.
Qed.

Lemma rnd_lt n u : (0 <= u)%Q → (u < 1)%Q → 0 < n → rnd n u < n.
Proof.
  intros H0 H1 Hn. unfold rnd.
  assert (0 <= Qfloor (u * inject_Z (Z.of_nat n)))%Z as Hlo.
  { change 0%Z with (Qfloor 0). apply Qfloor_resp_le.
    apply Qmult_le_0_compat; [done|].
    change 0%Q with (inject_Z 0). rewrite <- Zle_Qle. lia. }
  assert (Qfloor (u * inject_Z (Z.of_nat n)) < Z.of_nat n)%Z as Hhi.
  { rewrite Zlt_Qlt. eapply Qle_lt_trans; [apply Qfloor_le|].
    rewrite <- (Qmult_1_l (inject_Z (Z.of_nat n))) at 2.
    apply Qmult_lt_compat_r; [|done].
    change 0%Q with (inject_Z 0). rewrite <- Zlt_Qlt. lia. }
  lia.
Qed.

Lemma toBoard_free tiles n b r c :
  toBoard tiles n = Returned b → r < n → c < n →
  truthy (bget b r c) = false ↔ cell_free tiles r c.
Proof.
  intros Hb Hr Hc. rewrite (toBoard_cells _ _ _ _ _ Hb) by done.
  unfold cell_free. rewrite <- last_at_None.
  by destruct (last_at tiles (cell_pos r c)).
Qed.

(** What [spawn] does when [toBoard] returns and the draw is in range. *)
Lemma spawn_spec tiles n bias u1 u2 next :
  Forall (λ t, (0 ≤ tile_r t < Z.of_nat n)%Z) tiles →
  (0 <= u1)%Q → (u1 < 1)%Q →
  (¬ (∃ r c, r < n ∧ c < n ∧ cell_free tiles r c)
   ∧ spawn tiles n bias u1 u2 next = Returned (tiles, next))
  ∨ ∃ r c, r < n ∧ c < n ∧ cell_free tiles r c
           ∧ spawn tiles n bias u1 u2 next
             = Returned (tiles ++ [spawned next r c
                                     (if Qlt_le_dec u2 bias then 2 else 4)%Z],
                         (next + 1)%Z).
Proof.
  intros Hrows H0 H1. destruct (toBoard_returned tiles n Hrows) as [b Hb].
  unfold spawn. rewrite Hb. cbv zeta.
  destruct (decide (length (free_cells b n) = 0)) as [Hnone|Hsome].
  - left. split; [|done]. intros (r & c & Hr & Hc & Hfree).
    apply (toBoard_free _ _ _ _ _ Hb Hr Hc) in Hfree.
    assert ((r, c) ∈ free_cells b n) as Hin by (by apply free_cells_elem).
    apply nil_length_inv in Hnone. rewrite Hnone in Hin.
    by apply elem_of_nil in Hin.
  - right.
    pose proof (rnd_lt (length (free_cells b n)) u1 H0 H1 ltac:(lia)) as Hk.
    destruct (lookup_lt_is_Some_2 _ _ Hk) as [[r c] Hrc].
    rewrite Hrc. simpl.
    assert ((r, c) ∈ free_cells b n) as Hin by (by eapply list_elem_of_lookup_2).
    apply free_cells_elem in Hin as (Hr & Hc & Hfree).
    apply (toBoard_free _ _ _ _ _ Hb Hr Hc) in Hfree.
    exists r, c. split_and!; done.
Qed.

(** C6, as the specification states it, fails on the identity: the
    identity comes from the counter of [uid], whatever the tiles hold. Here
    the tile set holds identity 3 (a board restored from storage keeps its
    identities) and the counter stands at 3. *)
Lemma spawn_identity_not_fresh :
  ¬ ∀ tiles n bias u1 u2 next out next',
      wellFormed n tiles →
      (∃ r c, r < n ∧ c < n ∧ cell_free tiles r c) →
      (0 <= u1)%Q → (u1 < 1)%Q → (0 <= u2)%Q → (u2 < 1)%Q →
      spawn tiles n bias u1 u2 next = Returned (out, next') →
      ∃ t', out = tiles ++ [t'] ∧ ∀ t, t ∈ tiles → tile_id t ≠ tile_id t'.
Proof.
  intros H.
  assert (wellFormed 4 restored) as Hwf by by_computation.
  assert (∃ r c, r < 4 ∧ c < 4 ∧ cell_free restored r c) as Hroom.
  { exists 0, 1. split; [lia|]. split; [lia|].
    intros t Ht%list_elem_of_singleton. by subst. }
  assert (spawn restored 4 (9 # 10) 0 0 3
          = Returned (restored ++ [spawned 3 0 1 2], 4%Z)) as Hsp
    by (vm_compute; reflexivity).
  assert (0 <= 0)%Q as Hq0 by apply Qle_refl.
  assert (0 < 1)%Q as Hq1 by reflexivity.
  destruct (H _ _ _ _ _ _ _ _ Hwf Hroom Hq0 Hq1 Hq0 Hq1 Hsp)
    as (t' & Hout & Hfresh).
  apply app_inj_tail in Hout as [_ <-].
  apply (Hfresh (T 3 0 0 2)); [by left|done].
Qed.

Lemma wellFormed_snoc n tiles t :
  wellFormed n tiles →
  (0 ≤ tile_r t < Z.of_nat n)%Z → (0 ≤ tile_c t < Z.of_nat n)%Z →
  (∀ t', t' ∈ tiles → position t' ≠ position t) →
  wellFormed n (tiles ++ [t]).
Proof.
  intros [Hnd Hin] Hr Hc Hfree. split.
  - rewrite fmap_app. apply NoDup_app. split; [done|]. split.
    + intros p (t' & -> & Ht')%list_elem_of_fmap Hp.
      apply list_elem_of_singleton in Hp. by apply (Hfree t').
    + apply NoDup_singleton.
  - apply Forall_app. split; [done|]. by apply Forall_singleton.
Qed.

(** C6, amended. For a well-formed tile set with an empty cell and any
    draws of the random source, whatever the identities of its tiles,
    [spawn] returns the input tiles followed by one new tile: of value 2 or
    4 (2 when the second draw is below the bias), not marked as merged, in
    a cell of the grid that no input tile occupies; the result is
    well-formed. Its identity is the value of the counter of [uid]. When
    the identities of the input tiles were issued by the counter before
    (are below it), no input tile has that identity, and all identities
    are below the counter that [spawn] leaves. *)
Theorem spawn_adds_one_tile tiles n bias u1 u2 next :
  wellFormed n tiles →
  (∃ r c, r < n ∧ c < n ∧ cell_free tiles r c) →
  (0 <= u1)%Q → (u1 < 1)%Q →
  ∃ r c v,
    spawn tiles n bias u1 u2 next
    = Returned (tiles ++ [spawned next r c v], (next + 1)%Z)
    ∧ length (tiles ++ [spawned next r c v]) = S (length tiles)
    ∧ v = (if Qlt_le_dec u2 bias then 2 else 4)%Z
    ∧ (v = 2 ∨ v = 4)%Z
    ∧ tile_value (spawned next r c v) = v
    ∧ tile_bump (spawned next r c v) = false
    ∧ tile_dead (spawned next r c v) = false
    ∧ position (spawned next r c v) = cell_pos r c
    ∧ r < n ∧ c < n ∧ cell_free tiles r c
    ∧ wellFormed n (tiles ++ [spawned next r c v])
    ∧ tile_id (spawned next r c v) = next
    ∧ (Forall (λ t, (tile_id t < next)%Z) tiles →
       (∀ t, t ∈ tiles → tile_id t ≠ tile_id (spawned next r c v))
       ∧ Forall (λ t, (tile_id t < next + 1)%Z)
           (tiles ++ [spawned next r c v])).
Proof.
  intros Hwf Hroom H0 H1.
  destruct (spawn_spec tiles n bias u1 u2 next (wellFormed_rows _ _ Hwf) H0 H1)
    as [[Hfull _]|(r & c & Hr & Hc & Hfree & Hsp)]; [done|].
  exists r, c, (if Qlt_le_dec u2 bias then 2 else 4)%Z.
  split_and!; try done.
  - rewrite length_app. simpl. lia.
  - destruct (Qlt_le_dec u2 bias); auto.
  - apply wellFormed_snoc; simpl; try done; try lia.
  - intros Hids. split.
    + intros t Ht. rewrite Forall_forall in Hids. specialize (Hids t Ht).
      simpl. lia.
    + apply Forall_app. split.
      * eapply Forall_impl; [done|]. simpl. lia.
      * apply Forall_singleton. simpl. lia.
Qed.

Lemma spawn_adds_one_tile_witness :
  ∃ r c v,
    spawn one_tile 4 (9 # 10) 0 0 2
    = Returned (one_tile ++ [spawned 2 r c v], (2 + 1)%Z)
    ∧ length (one_tile ++ [spawned 2 r c v]) = S (length one_tile)
    ∧ v = (if Qlt_le_dec 0 (9 # 10) then 2 else 4)%Z
    ∧ (v = 2 ∨ v = 4)%Z
    ∧ tile_value (spawned 2 r c v) = v
    ∧ tile_bump (spawned 2 r c v) = false
    ∧ tile_dead (spawned 2 r c v) = false
    ∧ position (spawned 2 r c v) = cell_pos r c
    ∧ r < 4 ∧ c < 4 ∧ cell_free one_tile r c
    ∧ wellFormed 4 (one_tile ++ [spawned 2 r c v])
    ∧ tile_id (spawned 2 r c v) = 2%Z
    ∧ (Forall (λ t, (tile_id t < 2)%Z) one_tile →
       (∀ t, t ∈ one_tile → tile_id t ≠ tile_id (spawned 2 r c v))
       ∧ Forall (λ t, (tile_id t < 2 + 1)%Z)
           (one_tile ++ [spawned 2 r c v])).
Proof.
  apply spawn_adds_one_tile.
  - by_computation.
  - exists 0, 1. split; [lia|]. split; [lia|].
    intros t Ht%list_elem_of_singleton. by subst.
  - apply Qle_refl.
  - reflexivity.
Defined.

(** C7. When every cell of the grid holds a tile, [spawn] returns the tile
    set it was given, draws nothing and raises no error. *)
Theorem spawn_full_board tiles n bias u1 u2 next :
  Forall (λ t, (0 ≤ tile_r t < Z.of_nat n)%Z) tiles →
  (∀ r c, r < n → c < n → ∃ t, t ∈ tiles ∧ position t = cell_pos r c) →
  spawn tiles n bias u1 u2 next = Returned (tiles, next).
Proof.
  intros Hrows Hfull. destruct (toBoard_returned tiles n Hrows) as [b Hb].
  unfold spawn. rewrite Hb. cbv zeta.
  destruct (free_cells b n) as [|[r c] l] eqn:Hfree; [done|]. exfalso.
  assert ((r, c) ∈ free_cells b n) as Hin by (rewrite Hfree; by left).
  apply free_cells_elem in Hin as (Hr & Hc & Hempty).
  apply (toBoard_free _ _ _ _ _ Hb Hr Hc) in Hempty.
  destruct (Hfull r c Hr Hc) as (t & Ht & Hp). by apply (Hempty t).
Qed.

Lemma spawn_full_board_witness :
  spawn one_tile 1 (9 # 10) 0 0 2 = Returned (one_tile, 2%Z).
Proof.
  apply spawn_full_board.
  - by_computation.
  - intros r c Hr Hc. exists (T 1 0 0 2). split; [by left|].
    destruct r; [|lia]. destruct c; [|lia]. reflexivity.
Defined.

(** C8, as the specification states it, fails: two tiles on one cell are
    no error for [move], which returns and drops the first of them. *)
Lemma invalid_board_not_signalled :
  ¬ ∀ tiles n dir, ¬ wellFormed n tiles → ∃ e, move tiles n dir = Thrown e.
Proof.
  intros H. destruct (H stacked 4 "L"%string) as [e He].
  - by_computation.
  - vm_compute in He. discriminate He.
Qed.

Lemma toBoard_thrown tiles n e :
  toBoard tiles n = Thrown e ↔
  e = TypeError ∧ Exists (λ t, ¬ (0 ≤ tile_r t < Z.of_nat n)%Z) tiles.
Proof.
  unfold toBoard. rewrite place_all_thrown, length_empty, Exists_exists.
  done.
Qed.

(** C8, amended. The engine does not check the board invariant and has no
    signal of its own for an invalid board. [move] and [spawn] raise the
    [TypeError] of [toBoard] exactly when the row of some tile is outside
    the grid, where the array of the row is missing; on every other tile
    set they return, and of the tiles that name one cell of the grid the
    last one is in the cell. *)
Theorem board_not_validated tiles n bias u1 u2 next :
  (0 <= u1)%Q → (u1 < 1)%Q →
  (∀ dir e, move tiles n dir = Thrown e ↔
            e = TypeError
            ∧ Exists (λ t, ¬ (0 ≤ tile_r t < Z.of_nat n)%Z) tiles)
  ∧ (∀ e, spawn tiles n bias u1 u2 next = Thrown e ↔
          e = TypeError
          ∧ Exists (λ t, ¬ (0 ≤ tile_r t < Z.of_nat n)%Z) tiles)
  ∧ (∀ b r c, toBoard tiles n = Returned b → r < n → c < n →
       bget b r c = match last_at tiles (cell_pos r c) with
                    | Some t => Obj t
                    | None => Null
                    end).
Proof.
  intros H0 H1. split_and!.
  - intros dir e. rewrite <- toBoard_thrown. unfold move, move_run.
    rewrite cloneTiles_id.
    destruct (toBoard tiles n); simpl; split; intros; congruence.
  - intros e. rewrite <- toBoard_thrown.
    destruct (toBoard tiles n) as [b|e'] eqn:Hb.
    + split; [|done]. intros Hsp. exfalso.
      assert (Forall (λ t, (0 ≤ tile_r t < Z.of_nat n)%Z) tiles) as Hrows.
      { apply Forall_forall. intros t Ht.
        destruct (decide (0 ≤ tile_r t < Z.of_nat n)%Z) as [|Hbad]; [done|].
        assert (toBoard tiles n = Thrown TypeError) as Hthrown.
        { apply toBoard_thrown. split; [done|]. apply Exists_exists. eauto. }
        congruence. }
      destruct (spawn_spec tiles n bias u1 u2 next Hrows H0 H1)
        as [[_ Hret]|(r & c & _ & _ & _ & Hret)]; congruence.
    + unfold spawn. rewrite Hb. destruct e, e'. split; done.
  - intros b r c Hb Hr Hc. by apply (toBoard_cells tiles n).
Qed.

Lemma board_not_validated_witness :
  (∀ dir e, move stacked 4 dir = Thrown e ↔
            e = TypeError
            ∧ Exists (λ t, ¬ (0 ≤ tile_r t < Z.of_nat 4)%Z) stacked)
  ∧ (∀ e, spawn stacked 4 (9 # 10) 0 0 3 = Thrown e ↔
          e = TypeError
          ∧ Exists (λ t, ¬ (0 ≤ tile_r t < Z.of_nat 4)%Z) stacked)
  ∧ (∀ b r c, toBoard stacked 4 = Returned b → r < 4 → c < 4 →
       bget b r c = match last_at stacked (cell_pos r c) with
                    | Some t => Obj t
                    | None => Null
                    end).
Proof.
  apply board_not_validated.
  - apply Qle_refl.
  - reflexivity.
Defined.

(** * The examples of the specification, and some more *)

Example slideLine_2_2_4 :
  slideLine [Obj (T 1 0 0 2); Obj (T 2 0 1 2); Obj (T 3 0 2 4); Null] (-1)
  = {| res_line := [Obj (merged (T 1 0 0 2)); Obj (T 3 0 2 4); Null; Null];
       res_moved := true; res_gained := 4 |}.
Proof. vm_compute. reflexivity. Qed.

Example slideLine_four_twos :
  slideLine four_twos 1
  = {| res_line := [Null; Null; Obj (merged (T 2 0 1 2));
                    Obj (merged (T 4 0 3 2))];
       res_moved := true; res_gained := 8 |}.
Proof. vm_compute. reflexivity. Qed.

Example anyMovesLeft_checkerboard : anyMovesLeft checkerboard = false.
Proof. vm_compute. reflexivity. Qed.

Example anyMovesLeft_empty_board : anyMovesLeft (empty 4) = true.
Proof. vm_compute. reflexivity. Qed.

Example move_packed_left :
  move two_four 4 "L"
  = Returned {| out_tiles := two_four; out_moved := false; out_gained := 0 |}.
Proof. vm_compute. reflexivity. Qed.

Example move_two_twos_left :
  move two_twos 4 "L"
  = Returned {| out_tiles := [merged (T 1 0 0 2)]; out_moved := true;
                out_gained := 4 |}.
Proof. vm_compute. reflexivity. Qed.

Example move_two_twos_down :
  move two_twos 4 "D"
  = Returned {| out_tiles := [T 1 3 0 2; T 2 3 1 2]; out_moved := true;
                out_gained := 0 |}.
Proof. vm_compute. reflexivity. Qed.

(** Boards that break the invariant. *)
Example move_stacked :
  move stacked 4 "L"
  = Returned {| out_tiles := [T 2 0 0 4]; out_moved := false;
                out_gained := 0 |}.
Proof. vm_compute. reflexivity. Qed.

Example move_row_outside : move [T 1 4 0 2] 4 "L" = Thrown TypeError.
Proof. vm_compute. reflexivity. Qed.

Example move_column_outside :
  move [T 1 0 4 2] 4 "L"
  = Returned {| out_tiles := [T 1 0 0 2]; out_moved := true;
                out_gained := 0 |}.
Proof. vm_compute. reflexivity. Qed.

(** * Further properties of the code *)

(** ** The line pass as a function *)

Lemma slide_run_moved_changed line dir :
  dir = 1%Z ∨ dir = (-1)%Z →
  st_moved (slide_run line dir) = true → st_line (slide_run line dir) ≠ line.
Proof.
  intros Hdir Hm Hsame. pose proof (slide_run_inv line dir Hdir) as Hinv.
  rewrite (inv_moved _ _ _ _ Hinv) in Hm. apply bool_decide_eq_true in Hm.
  pose proof (inv_potential _ _ _ _ Hinv) as Hpot. rewrite Hsame in Hpot.
  destruct (st_log (slide_run line dir)); [done|]. simpl in Hpot. lia.
Qed.

Lemma slide_run_moved_decide line dir :
  dir = 1%Z ∨ dir = (-1)%Z →
  st_moved (slide_run line dir)
  = bool_decide (st_line (slide_run line dir) ≠ line).
Proof.
  intros Hdir. destruct (st_moved (slide_run line dir)) eqn:Hm.
  - symmetry. apply bool_decide_eq_true. by apply slide_run_moved_changed.
  - symmetry. apply bool_decide_eq_false. intros Hne. apply Hne.
    by apply slide_run_not_moved.
Qed.

Lemma sublist_reverse {A} (l k : list A) :
  l `sublist_of` k → reverse l `sublist_of` reverse k.
Proof.
  induction 1 as [|x l k _ IH|x l k _ IH].
  - done.
  - rewrite !reverse_cons. by apply sublist_app.
  - rewrite reverse_cons. by apply sublist_inserts_r.
Qed.

Lemma tiles_of_app a b : tiles_of (a ++ b) = tiles_of a ++ tiles_of b.
Proof. apply bind_app. Qed.

Lemma tiles_of_reverse a : tiles_of (reverse a) = reverse (tiles_of a).
Proof.
  induction a as [|x a IH]; [done|].
  rewrite reverse_cons, tiles_of_app, IH.
  change (tiles_of (x :: a)) with (cell_tiles x ++ tiles_of a).
  rewrite reverse_app. f_equal. destruct x; done.
Qed.

Lemma tiles_of_toward dir a :
  tiles_of (toward dir a)
  = if decide (dir = 1%Z) then reverse (tiles_of a) else tiles_of a.
Proof. unfold toward. case_decide; [apply tiles_of_reverse|done]. Qed.

Lemma squash_ids ts : ids (squash ts) `sublist_of` ids ts.
Proof.
  assert (∀ k ts, length ts ≤ k → ids (squash ts) `sublist_of` ids ts) as H.
  { clear ts. induction k as [|k IH]; intros [|t [|u rest]] Hlen;
      simpl in Hlen; try done; try lia.
    rewrite squash_two. case_bool_decide.
    - change (ids (t :: u :: rest)) with (tile_id t :: tile_id u :: ids rest).
      change (ids (merged t :: squash rest))
        with (tile_id t :: ids (squash rest)).
      apply sublist_skip, sublist_cons. apply IH. lia.
    - change (ids (t :: u :: rest)) with (tile_id t :: ids (u :: rest)).
      change (ids (t :: squash (u :: rest)))
        with (tile_id t :: ids (squash (u :: rest))).
      apply sublist_skip. apply IH. simpl. lia. }
  by apply (H (length ts)).
Qed.

Lemma squash_fixed ts : length (squash ts) = length ts → squash ts = ts.
Proof.
  assert (∀ k ts, length ts ≤ k →
            length (squash ts) = length ts → squash ts = ts) as H.
  { clear ts. induction k as [|k IH]; intros [|t [|u rest]] Hlen;
      simpl in Hlen; try done; try lia.
    rewrite squash_two. case_bool_decide.
    - intros Hl. simpl in Hl. pose proof (squash_length rest). lia.
    - intros Hl. f_equal. apply IH; [simpl; lia|].
      simpl in Hl. simpl. lia. }
  by apply (H (length ts)).
Qed.

Lemma tiles_of_length a : length (tiles_of a) ≤ length a.
Proof.
  induction a as [|x a IH]; [done|].
  change (tiles_of (x :: a)) with (cell_tiles x ++ tiles_of a).
  rewrite length_app. destruct x; simpl; lia.
Qed.

Lemma tiles_of_full a : length (tiles_of a) = length a → a = Obj <$> tiles_of a.
Proof.
  induction a as [|x a IH]; [done|].
  change (tiles_of (x :: a)) with (cell_tiles x ++ tiles_of a).
  rewrite length_app. pose proof (tiles_of_length a).
  destruct x; simpl; intros Hl; try lia.
  f_equal. apply IH. lia.
Qed.

Lemma slide_run_squashed line dir :
  dir = 1%Z ∨ dir = (-1)%Z → Undefined ∉ line →
  st_line (slide_run line dir) = squashed line dir.
Proof. intros Hdir Hdef. by destruct (slideLine_squash line dir Hdir Hdef). Qed.

Lemma slide_run_moved_gap line dir :
  dir = 1%Z ∨ dir = (-1)%Z → Undefined ∉ line →
  st_moved (slide_run line dir) = true →
  ∃ k, k < length line ∧ aget (st_line (slide_run line dir)) k = Null.
Proof.
  intros Hdir Hdef Hm.
  pose proof (slide_run_moved_changed line dir Hdir Hm) as Hne.
  pose proof (slide_run_length line dir Hdir) as Hlen.
  rewrite (slide_run_squashed line dir Hdir Hdef) in *.
  unfold squashed in *. cbv zeta in *.
  set (ts := tiles_of (toward dir line)) in *.
  pose proof (squash_length ts) as Hsq.
  pose proof (tiles_of_length (toward dir line)) as Hts. fold ts in Hts.
  rewrite toward_length in Hts.
  destruct (decide (length (squash ts) < length line)) as [Hlt|Hge].
  - assert (Null ∈ toward dir ((Obj <$> squash ts)
              ++ replicate (length line - length (squash ts)) Null)) as Hin.
    { assert (Null ∈ (Obj <$> squash ts)
                ++ replicate (length line - length (squash ts)) Null) as Hin.
      { apply elem_of_app. right. apply elem_of_replicate. split; [done|lia]. }
      unfold toward. case_decide; [by apply elem_of_reverse|done]. }
    apply list_elem_of_lookup in Hin as [k Hk]. exists k. split.
    + apply lookup_lt_Some in Hk. lia.
    + unfold aget. by rewrite Hk.
  - exfalso. apply Hne.
    assert (length (squash ts) = length ts) as Hfix by lia.
    rewrite (squash_fixed ts Hfix).
    assert (length ts = length (toward dir line)) as Hfull
      by (rewrite toward_length; lia).
    replace (length line - length ts) with 0 by lia. simpl.
    rewrite app_nil_r. unfold ts. rewrite <- (tiles_of_full _ Hfull).
    apply toward_involutive.
Qed.

(** X1. [slideLine] computes the rule of the game. For a direction +1 or
    -1 and a line without holes, the line it returns holds the squashed
    tiles of the input against the edge the line slides to and empty cells
    behind them; [moved] is true exactly when that line differs from the
    input, and [gained] is the score of the squash. *)
Theorem slideLine_refines_squash line dir :
  dir = 1%Z ∨ dir = (-1)%Z → Undefined ∉ line →
  slideLine line dir
  = {| res_line := squashed line dir;
       res_moved := bool_decide (squashed line dir ≠ line);
       res_gained := squash_gain (tiles_of (toward dir line)) |}.
Proof.
  intros Hdir Hdef. unfold slideLine.
  rewrite (slide_run_moved_decide line dir Hdir).
  rewrite (slide_run_squashed line dir Hdir Hdef).
  f_equal. by destruct (slideLine_squash line dir Hdir Hdef).
Qed.

Lemma slideLine_refines_squash_witness :
  slideLine line_2_0_2_4 1
  = {| res_line := squashed line_2_0_2_4 1;
       res_moved := bool_decide (squashed line_2_0_2_4 1 ≠ line_2_0_2_4);
       res_gained := squash_gain (tiles_of (toward 1 line_2_0_2_4)) |}.
Proof.
  apply (slideLine_refines_squash line_2_0_2_4 1); [by left|].
  by_computation.
Defined.

(** X2. Sliding to the far end is the mirror image of sliding to index 0:
    on the reversed line and with direction +1, [slideLine] returns the
    reverse of the line it returns for the line and direction -1, with the
    same [moved] and the same [gained]. *)
Theorem slideLine_mirror line :
  Undefined ∉ line →
  slideLine (reverse line) 1
  = {| res_line := reverse (res_line (slideLine line (-1)));
       res_moved := res_moved (slideLine line (-1));
       res_gained := res_gained (slideLine line (-1)) |}.
Proof.
  intros Hdef.
  assert (Undefined ∉ reverse line) as Hdef' by (by rewrite elem_of_reverse).
  destruct (slideLine_squash line (-1) (or_intror eq_refl) Hdef) as [Hl Hg].
  destruct (slideLine_squash (reverse line) 1 (or_introl eq_refl) Hdef')
    as [Hl' Hg'].
  unfold slideLine in *. simpl in *.
  rewrite !slide_run_moved_decide by auto.
  rewrite Hl, Hl', Hg, Hg'.
  unfold toward. simpl. rewrite reverse_involutive, length_reverse.
  f_equal. apply bool_decide_ext. split; intros Hne Heq; apply Hne.
  - by rewrite Heq.
  - by apply (inj reverse).
Qed.

Lemma slideLine_mirror_witness :
  slideLine (reverse line_2_0_2_4) 1
  = {| res_line := reverse (res_line (slideLine line_2_0_2_4 (-1)));
       res_moved := res_moved (slideLine line_2_0_2_4 (-1));
       res_gained := res_gained (slideLine line_2_0_2_4 (-1)) |}.
Proof. apply (slideLine_mirror line_2_0_2_4). by_computation. Defined.

(** X3. No tile jumps over another and no identity is invented: the
    identities of the tiles of the line that [slideLine] returns, read
    along the line, are a subsequence of the identities of the tiles of the
    input line. *)
Theorem slideLine_keeps_order line dir :
  dir = 1%Z ∨ dir = (-1)%Z → Undefined ∉ line →
  ids (tiles_of (res_line (slideLine line dir)))
  `sublist_of` ids (tiles_of line).
Proof.
  intros Hdir Hdef. simpl.
  rewrite (slide_run_squashed line dir Hdir Hdef). unfold squashed. cbv zeta.
  rewrite tiles_of_toward, tiles_of_packed, tiles_of_toward.
  case_decide.
  - unfold ids. rewrite fmap_reverse.
    rewrite <- (reverse_involutive (tile_id <$> tiles_of line)).
    apply sublist_reverse. rewrite <- fmap_reverse. apply squash_ids.
  - apply squash_ids.
Qed.

Lemma slideLine_keeps_order_witness :
  ids (tiles_of (res_line (slideLine line_2_0_2_4 1)))
  `sublist_of` ids (tiles_of line_2_0_2_4).
Proof.
  apply (slideLine_keeps_order line_2_0_2_4 1); [by left|]. by_computation.
Defined.



(** ** Boards and tile lists *)

Lemma board_ext n (b b' : board) :
  shape n b → shape n b' →
  (∀ r c, r < n → c < n → bget b r c = bget b' r c) → b = b'.
Proof.
  intros [Hl Hrows] [Hl' Hrows'] Hcells.
  apply (list_eq_same_length _ _ n); [done..|].
  intros r x y Hr Hx Hy.
  pose proof (Hrows r Hr) as Hlx. pose proof (Hrows' r Hr) as Hly.
  pose proof (Hcells r) as Hc. unfold bget, brow in Hlx, Hly, Hc.
  rewrite Hx, Hy in *. simpl in *.
  apply (list_eq_same_length _ _ n); [done..|].
  intros c u v Hcn Hu Hv. specialize (Hc c Hr Hcn). unfold aget in Hc.
  rewrite Hu, Hv in Hc. done.
Qed.

Lemma collect_wellFormed b n (P : tile → Prop) `{∀ t, Decision (P t)} :
  labelled n b → wellFormed n (filter P (collect b n)).
Proof.
  intros Hlab. split.
  - eapply sublist_NoDup; [apply (collect_NoDup_positions _ _ Hlab)|].
    apply fmap_sublist, sublist_filter.
  - apply Forall_forall. intros t [_ Ht]%list_elem_of_filter.
    destruct (labelled_in_grid _ _ _ Hlab Ht) as (? & ? & _). done.
Qed.

Lemma collect_wellFormed_all b n : labelled n b → wellFormed n (collect b n).
Proof.
  intros Hlab.
  rewrite <- (filter_all (λ _, True) (collect b n)).
  - by apply collect_wellFormed.
  - by apply Forall_forall.
Qed.

Lemma toBoard_solid tiles n b : toBoard tiles n = Returned b → solid n b.
Proof.
  intros Hb r c Hr Hc. rewrite (toBoard_cells _ _ _ _ _ Hb Hr Hc).
  by destruct (last_at tiles (cell_pos r c)).
Qed.

Lemma collect_last_at b n r c :
  labelled n b → solid n b → r < n → c < n →
  match last_at (collect b n) (cell_pos r c) with
  | Some t => Obj t
  | None => Null
  end = bget b r c.
Proof.
  intros Hlab Hsolid Hr Hc.
  pose proof (collect_wellFormed_all b n Hlab) as Hwf.
  destruct (bget b r c) as [| |t] eqn:Hcell.
  - by destruct (Hsolid r c Hr Hc).
  - assert (last_at (collect b n) (cell_pos r c) = None) as ->; [|done].
    apply last_at_None. intros t Ht Hpos.
    apply collect_elem in Ht as (r' & c' & Hr' & Hc' & Ht).
    rewrite (Hlab _ _ _ Hr' Hc' Ht) in Hpos.
    apply cell_pos_inj in Hpos as [-> ->]. congruence.
  - assert (t ∈ collect b n) as Ht by (apply collect_elem; eauto).
    rewrite <- (Hlab _ _ _ Hr Hc Hcell).
    by rewrite (last_at_unique _ _ (proj1 Hwf) Ht).
Qed.

Lemma bind_lengths {A B C} (f : A → list B) (g : A → list C) (l : list A) k :
  (∀ x, x ∈ l → length (f x) + length (g x) = k) →
  length (l ≫= f) + length (l ≫= g) = length l * k.
Proof.
  induction l as [|x l IH]; intros Hk; [done|].
  rewrite !bind_cons, !length_app. simpl.
  pose proof (Hk x ltac:(left)) as Hx.
  assert (∀ y, y ∈ l → length (f y) + length (g y) = k) as Hl
    by (intros y Hy; apply Hk; by right).
  specialize (IH Hl). lia.
Qed.

Lemma collect_free_cells b n :
  length (collect b n) + length (free_cells b n) = n * n.
Proof.
  unfold collect, free_cells.
  rewrite (bind_lengths _ _ _ n), length_seq; [done|].
  intros r _. rewrite (bind_lengths _ _ _ 1), length_seq; [lia|].
  intros c _. by destruct (bget b r c).
Qed.

(** X5. For a well-formed tile set, [toBoard] returns an [n] by [n] board
    whose cells, read in row-major order as [move] reads them, are the
    tiles of the set, each once; the cells that [spawn] finds free are the
    others: tiles and free cells together are the [n * n] cells. *)
Theorem toBoard_then_collect tiles n :
  wellFormed n tiles →
  ∃ b, toBoard tiles n = Returned b
       ∧ shape n b
       ∧ collect b n ≡ₚ tiles
       ∧ length tiles + length (free_cells b n) = n * n.
Proof.
  intros Hwf. destruct (toBoard_wellFormed _ _ Hwf) as (b & Hb & Hs & _).
  exists b. pose proof (collect_toBoard _ _ _ Hwf Hb) as Hperm.
  split_and!; [done..|]. rewrite <- Hperm. apply collect_free_cells.
Qed.

Lemma toBoard_then_collect_witness :
  ∃ b, toBoard two_twos 4 = Returned b
       ∧ shape 4 b
       ∧ collect b 4 ≡ₚ two_twos
       ∧ length two_twos + length (free_cells b 4) = 4 * 4.
Proof. apply (toBoard_then_collect two_twos 4). by_computation. Defined.

(** X6. The other round trip: for an [n] by [n] board without holes whose
    tiles carry the coordinates of their cells, [toBoard] on the tiles read
    in row-major order returns that board. *)
Theorem collect_then_toBoard b n :
  shape n b → labelled n b → solid n b →
  toBoard (collect b n) n = Returned b.
Proof.
  intros Hs Hlab Hsolid.
  destruct (toBoard_wellFormed _ _ (collect_wellFormed_all b n Hlab))
    as (b' & Hb' & Hs' & _).
  rewrite Hb'. f_equal. apply (board_ext n); [done..|].
  intros r c Hr Hc. rewrite (toBoard_cells _ _ _ _ _ Hb' Hr Hc).
  by apply collect_last_at.
Qed.

Lemma collect_then_toBoard_witness :
  toBoard (collect board_2_4 2) 2 = Returned board_2_4.
Proof. apply (collect_then_toBoard board_2_4 2); by_computation. Defined.

(** X7. The list [free] of [spawn] holds every cell of the grid without a
    tile, and each of them once, so that an index drawn uniformly chooses
    uniformly among the free cells; the tiles of the grid and the free
    cells together are its [n * n] cells. *)
Theorem free_cells_exact b n :
  NoDup (free_cells b n)
  ∧ (∀ r c, (r, c) ∈ free_cells b n
            ↔ r < n ∧ c < n ∧ truthy (bget b r c) = false)
  ∧ length (collect b n) + length (free_cells b n) = n * n.
Proof.
  split_and!.
  - unfold free_cells. apply NoDup_bind; [| |apply NoDup_seq].
    + intros r1 r2 [r c] _ _ (c1 & H1 & _)%list_elem_of_bind
        (c2 & H2 & _)%list_elem_of_bind.
      destruct (truthy (bget b r1 c1)); [by apply elem_of_nil in H1|].
      destruct (truthy (bget b r2 c2)); [by apply elem_of_nil in H2|].
      apply list_elem_of_singleton in H1, H2. congruence.
    + intros r _. apply NoDup_bind; [| |apply NoDup_seq].
      * intros c1 c2 [r' c] _ _ H1 H2.
        destruct (truthy (bget b r c1)); [by apply elem_of_nil in H1|].
        destruct (truthy (bget b r c2)); [by apply elem_of_nil in H2|].
        apply list_elem_of_singleton in H1, H2. congruence.
      * intros c _. destruct (truthy (bget b r c)); [constructor|].
        apply NoDup_singleton.
  - intros r c. apply free_cells_elem.
  - apply collect_free_cells.
Qed.

(** ** The board a move leaves *)

Lemma line_of_solid h b n L :
  solid n b → L < n → Undefined ∉ line_of h b n L.
Proof.
  intros Hsolid HL (k & Hk & Hin%elem_of_seq)%list_elem_of_fmap.
  symmetry in Hk. unfold cget in Hk.
  destruct h; by apply Hsolid in Hk; [|lia..].
Qed.

Lemma move_returns tiles n dir :
  wellFormed n tiles →
  ∃ b0, toBoard tiles n = Returned b0
        ∧ shape n b0 ∧ labelled n b0 ∧ solid n b0
        ∧ collect b0 n ≡ₚ tiles
        ∧ move_run tiles n dir = Returned (move_loop b0 n dir)
        ∧ move tiles n dir
          = Returned
              {| out_tiles :=
                   filter (λ t, tile_dead t = false)
                          (collect (mv_board (move_loop b0 n dir)) n);
                 out_moved := mv_moved (move_loop b0 n dir);
                 out_gained := mv_gained (move_loop b0 n dir) |}.
Proof.
  intros Hwf.
  destruct (move_run_wellFormed tiles n dir Hwf)
    as (b0 & Hb & Hrun & Hs & Hlab & Hperm).
  exists b0. split_and!; try done.
  - by eapply toBoard_solid.
  - unfold move. by rewrite Hrun.
Qed.

Lemma squashed_solid line dir : Undefined ∉ squashed line dir.
Proof.
  unfold squashed. cbv zeta. unfold toward.
  assert (∀ ts k, Undefined ∉ (Obj <$> ts) ++ @replicate cell k Null) as H.
  { intros ts k [(t & ? & _)%list_elem_of_fmap|[? _]%elem_of_replicate]%elem_of_app;
      done. }
  case_decide; [rewrite elem_of_reverse|]; apply H.
Qed.

Lemma slide_run_solid line dir k :
  dir = 1%Z ∨ dir = (-1)%Z → Undefined ∉ line → k < length line →
  aget (st_line (slide_run line dir)) k ≠ Undefined.
Proof.
  intros Hdir Hdef Hk Hu.
  pose proof (slide_run_length line dir Hdir) as Hlen.
  rewrite (slide_run_squashed line dir Hdir Hdef) in *.
  apply (squashed_solid line dir). rewrite <- Hu.
  eapply list_elem_of_lookup_2, aget_lt. lia.
Qed.

Section move_final.
Variables (n : nat) (dir : string) (b0 : board).
Hypothesis Hshape : shape n b0.
Hypothesis Hsolid : solid n b0.
Local Abbreviation h := (horizontal dir).
Local Abbreviation d := (slide_dir dir).
Local Abbreviation m := (move_loop b0 n dir).

Lemma move_loop_solid : solid n (mv_board m).
Proof.
  intros r c Hr Hc. rewrite (bget_cget h).
  pose proof (move_loop_cells n dir b0 Hshape r c Hr Hc) as H1.
  pose proof (move_loop_cells n dir b0 Hshape c r Hc Hr) as H2.
  assert (∀ L k, L < n → k < n →
            relabel_in h L k (aget (st_line (run h n d b0 L)) k) ≠ Undefined)
    as Hrel.
  { intros L k HL Hk.
    pose proof (slide_run_solid (line_of h b0 n L) d k (slide_dir_unit dir)
                  (line_of_solid h b0 n L Hsolid HL)) as Hdef.
    rewrite length_line_of in Hdef. specialize (Hdef Hk). unfold run.
    unfold relabel_in, relabel.
    destruct (aget (st_line (slide_run (line_of h b0 n L) d)) k);
      by destruct h. }
  destruct h; [rewrite H1|rewrite H2]; by apply Hrel.
Qed.

Lemma move_loop_shape : shape n (mv_board m).
Proof. apply (mi_shape _ _ _ _ _ _ (move_loop_inv n dir b0 Hshape)). Qed.

Lemma move_loop_gap :
  mv_moved m = true →
  ∃ r c, r < n ∧ c < n ∧ bget (mv_board m) r c = Null.
Proof.
  intros Hm.
  rewrite (mi_moved _ _ _ _ _ _ (move_loop_inv n dir b0 Hshape)) in Hm.
  apply existsb_exists in Hm as (L & HL & Hm).
  apply list_elem_of_In, elem_of_seq in HL.
  destruct (slide_run_moved_gap (line_of h b0 n L) d (slide_dir_unit dir)
              (line_of_solid h b0 n L Hsolid ltac:(lia)) Hm) as (k & Hk & Hnull).
  rewrite length_line_of in Hk.
  pose proof (move_loop_cells n dir b0 Hshape L k ltac:(lia) Hk) as Hcell.
  unfold run in Hcell. rewrite Hnull in Hcell.
  assert (cget h (mv_board m) L k = Null) as Hc
    by (rewrite Hcell; by destruct h).
  unfold cget in Hc. destruct h.
  - exists L, k. split_and!; [lia|done|done].
  - exists k, L. split_and!; [done|lia|done].
Qed.

End move_final.

Lemma cell_free_null n b (P : tile → Prop) `{∀ t, Decision (P t)} r c :
  labelled n b → r < n → c < n → bget b r c = Null →
  cell_free (filter P (collect b n)) r c.
Proof.
  intros Hlab Hr Hc Hnull t [_ Ht]%list_elem_of_filter Hpos.
  apply collect_elem in Ht as (r' & c' & Hr' & Hc' & Ht).
  rewrite (Hlab _ _ _ Hr' Hc' Ht) in Hpos.
  apply cell_pos_inj in Hpos as [-> ->]. congruence.
Qed.

(** X8. For a well-formed tile set without [dead] marks, the board that
    [toBoard] builds from the tiles [move] returns is the board [move]
    ended with: the component, which shows [toBoard(tiles, n)], shows the
    board the move computed. *)
Theorem move_board_rebuilt tiles n dir :
  wellFormed n tiles → alive tiles →
  ∃ m out,
    move_run tiles n dir = Returned m
    ∧ move tiles n dir = Returned out
    ∧ toBoard (out_tiles out) n = Returned (mv_board m).
Proof.
  intros Hwf Halive.
  destruct (move_returns tiles n dir Hwf)
    as (b0 & _ & Hs & Hlab & Hsolid & Hperm & Hrun & Hmove).
  eexists _, _. split; [exact Hrun|]. split; [exact Hmove|]. simpl.
  assert (alive (collect b0 n)) as Halive0
    by (unfold alive in *; by rewrite Hperm).
  rewrite filter_all by (by apply move_loop_alive).
  pose proof (move_loop_labelled n dir b0 Hs) as Hlab'.
  destruct (toBoard_wellFormed _ _ (collect_wellFormed_all _ n Hlab'))
    as (b' & Hb' & Hs' & _).
  rewrite Hb'. f_equal.
  apply (board_ext n); [done|by apply move_loop_shape|].
  intros r c Hr Hc. rewrite (toBoard_cells _ _ _ _ _ Hb' Hr Hc).
  apply collect_last_at; [done|by apply move_loop_solid|done..].
Qed.

Lemma move_board_rebuilt_witness :
  ∃ m out,
    move_run two_twos 4 "L" = Returned m
    ∧ move two_twos 4 "L" = Returned out
    ∧ toBoard (out_tiles out) 4 = Returned (mv_board m).
Proof. apply (move_board_rebuilt two_twos 4 "L"); by_computation. Defined.

Lemma move_free_cell tiles n dir out :
  wellFormed n tiles → move tiles n dir = Returned out →
  out_moved out = true →
  wellFormed n (out_tiles out)
  ∧ ∃ r c, r < n ∧ c < n ∧ cell_free (out_tiles out) r c.
Proof.
  intros Hwf Hout Hm.
  destruct (move_returns tiles n dir Hwf)
    as (b0 & _ & Hs & Hlab & Hsolid & _ & _ & Hmove).
  rewrite Hmove in Hout. injection Hout as <-. simpl in *.
  pose proof (move_loop_labelled n dir b0 Hs) as Hlab'.
  split; [by apply collect_wellFormed|].
  destruct (move_loop_gap n dir b0 Hs Hsolid Hm) as (r & c & Hr & Hc & Hnull).
  exists r, c. split_and!; [done..|]. by eapply cell_free_null.
Qed.

(** X9. A move that moved leaves room for the new tile: for a well-formed
    tile set, when [move] reports [moved = true], [spawn] on the tiles it
    returns adds exactly one tile, in a cell of the grid that they leave
    free, for all draws. *)
Theorem move_leaves_room tiles n dir out bias u1 u2 next :
  wellFormed n tiles → move tiles n dir = Returned out →
  out_moved out = true →
  (0 <= u1)%Q → (u1 < 1)%Q →
  ∃ r c, r < n ∧ c < n ∧ cell_free (out_tiles out) r c
         ∧ spawn (out_tiles out) n bias u1 u2 next
           = Returned (out_tiles out
                       ++ [spawned next r c
                             (if Qlt_le_dec u2 bias then 2 else 4)%Z],
                       (next + 1)%Z).
Proof.
  intros Hwf Hout Hm H0 H1.
  destruct (move_free_cell tiles n dir out Hwf Hout Hm) as [Hwf' Hfree].
  destruct (spawn_spec (out_tiles out) n bias u1 u2 next
              (wellFormed_rows _ _ Hwf') H0 H1)
    as [[Hfull _]|(r & c & Hr & Hc & Hrc & Hsp)]; [done|].
  exists r, c. done.
Qed.

Lemma move_leaves_room_witness :
  ∃ r c, r < 4 ∧ c < 4
         ∧ cell_free [merged (T 1 0 0 2)] r c
         ∧ spawn [merged (T 1 0 0 2)] 4 (9 # 10) 0 0 3
           = Returned ([merged (T 1 0 0 2)]
                       ++ [spawned 3 r c
                             (if Qlt_le_dec 0 (9 # 10) then 2 else 4)%Z],
                       (3 + 1)%Z).
Proof.
  apply (move_leaves_room two_twos 4 "L"
           {| out_tiles := [merged (T 1 0 0 2)]; out_moved := true;
              out_gained := 4 |} (9 # 10) 0 0 3).
  - by_computation.
  - vm_compute. reflexivity.
  - reflexivity.
  - apply Qle_refl.
  - reflexivity.
Defined.

(** X10. The timer of [step] looks for the end of the game on the tiles of
    the move, before the spawn. After a move that moved, [anyMovesLeft] is
    true on their board, so that this check never ends the game: the game
    ends only in the branch of [step] for a move that moved nothing. *)
Theorem move_never_ends_game tiles n dir out :
  wellFormed n tiles → move tiles n dir = Returned out →
  out_moved out = true →
  ∃ b, toBoard (out_tiles out) n = Returned b ∧ anyMovesLeft b = true.
Proof.
  intros Hwf Hout Hm.
  destruct (move_free_cell tiles n dir out Hwf Hout Hm)
    as [Hwf' (r & c & Hr & Hc & Hfree)].
  destruct (toBoard_returned _ _ (wellFormed_rows _ _ Hwf')) as [b Hb].
  exists b. split; [done|].
  apply (toBoard_free _ _ _ _ _ Hb Hr Hc) in Hfree.
  unfold anyMovesLeft. rewrite (toBoard_length _ _ _ Hb).
  apply existsb_exists. exists r. split; [apply list_elem_of_In, elem_of_seq; lia|].
  apply existsb_exists. exists c. split; [apply list_elem_of_In, elem_of_seq; lia|].
  unfold moves_at. by destruct (bget b r c).
Qed.

Lemma move_never_ends_game_witness :
  ∃ b, toBoard [merged (T 1 0 0 2)] 4 = Returned b ∧ anyMovesLeft b = true.
Proof.
  apply (move_never_ends_game two_twos 4 "L"
           {| out_tiles := [merged (T 1 0 0 2)]; out_moved := true;
              out_gained := 4 |}).
  - by_computation.
  - vm_compute. reflexivity.
  - reflexivity.
Defined.

(** ** The end of the game *)

Lemma anyMovesLeft_false_cells (b : board) r c :
  anyMovesLeft b = false → r < length b → c < length b →
  ∃ t, bget b r c = Obj t
       ∧ (r + 1 < length b → ∀ u, bget b (r + 1) c = Obj u →
          tile_value u ≠ tile_value t)
       ∧ (c + 1 < length b → ∀ u, bget b r (c + 1) = Obj u →
          tile_value u ≠ tile_value t).
Proof.
  unfold anyMovesLeft. rewrite existsb_false_iff. intros H Hr Hc.
  assert (r ∈ seq 0 (length b)) as Hin by (apply elem_of_seq; lia).
  specialize (H r Hin). rewrite existsb_false_iff in H.
  assert (c ∈ seq 0 (length b)) as Hin' by (apply elem_of_seq; lia).
  by apply moves_at_false, H.
Qed.

Lemma anyMovesLeft_true_cell (b : board) :
  anyMovesLeft b = true →
  ∃ r c, r < length b ∧ c < length b ∧ moves_at b (length b) r c = true.
Proof.
  unfold anyMovesLeft. intros (r & Hr & H)%existsb_exists.
  apply existsb_exists in H as (c & Hc & H).
  apply list_elem_of_In, elem_of_seq in Hr, Hc.
  exists r, c. split_and!; [lia..|done].
Qed.

Lemma over_lines_packed h (b : board) L :
  shape (length b) b → anyMovesLeft b = false → L < length b →
  packed (line_of h b (length b) L).
Proof.
  intros Hs Hover HL. split.
  - intros i Hi. rewrite length_line_of in Hi. rewrite aget_line_of by done.
    unfold cget. destruct h.
    + destruct (anyMovesLeft_false_cells b L i Hover HL Hi) as (t & ? & _).
      by exists t.
    + destruct (anyMovesLeft_false_cells b i L Hover Hi HL) as (t & ? & _).
      by exists t.
  - intros i t u Ht Hu.
    assert (S i < length b) as Hi.
    { rewrite <- (length_line_of h b (length b) L).
      apply aget_defined. by rewrite Hu. }
    rewrite aget_line_of in Ht, Hu by lia. unfold cget in *. destruct h.
    + destruct (anyMovesLeft_false_cells b L i Hover HL ltac:(lia))
        as (t' & Ht' & _ & Hright).
      assert (t' = t) as -> by congruence.
      intros Heq. apply (Hright ltac:(lia) u); [|done].
      by replace (i + 1) with (S i) by lia.
    + destruct (anyMovesLeft_false_cells b i L Hover ltac:(lia) HL)
        as (t' & Ht' & Hdown & _).
      assert (t' = t) as -> by congruence.
      intros Heq. apply (Hdown ltac:(lia) u); [|done].
      by replace (i + 1) with (S i) by lia.
Qed.

Section move_blocked.
Variables (n : nat) (dir : string) (b0 : board).
Hypothesis Hshape : shape n b0.
Local Abbreviation h := (horizontal dir).
Local Abbreviation d := (slide_dir dir).
Local Abbreviation m := (move_loop b0 n dir).
Hypothesis Hblocked : ∀ L, L < n → blocked (line_of h b0 n L) d.

Lemma move_loop_blocked_moved : mv_moved m = false.
Proof.
  rewrite (mi_moved _ _ _ _ _ _ (move_loop_inv n dir b0 Hshape)).
  apply existsb_false_iff. intros L HL%elem_of_seq. unfold run.
  rewrite slide_run_blocked; [done|]. apply Hblocked. lia.
Qed.

Lemma move_loop_blocked_gained : mv_gained m = 0%Z.
Proof.
  rewrite (mi_gained _ _ _ _ _ _ (move_loop_inv n dir b0 Hshape)).
  apply total_zero. intros v (L & -> & HL%elem_of_seq)%list_elem_of_fmap.
  unfold run. rewrite slide_run_blocked; [done|]. apply Hblocked. lia.
Qed.

Lemma move_loop_blocked_cells r c :
  r < n → c < n → bget (mv_board m) r c = relabel r c (bget b0 r c).
Proof.
  intros Hr Hc. rewrite !(bget_cget h).
  pose proof (move_loop_cells n dir b0 Hshape r c Hr Hc) as H1.
  pose proof (move_loop_cells n dir b0 Hshape c r Hc Hr) as H2.
  unfold run in H1, H2.
  rewrite slide_run_blocked in H1 by (by apply Hblocked).
  rewrite slide_run_blocked in H2 by (by apply Hblocked).
  simpl in H1, H2. rewrite aget_line_of in H1, H2 by done.
  unfold relabel_in in *. destruct h; [by rewrite H1|by rewrite H2].
Qed.

End move_blocked.

Lemma slide_run_unblocked line dir i t :
  dir = 1%Z ∨ dir = (-1)%Z →
  aget line i = Obj t →
  (0 ≤ Z.of_nat i + dir < Z.of_nat (length line))%Z →
  (aget line (Z.to_nat (Z.of_nat i + dir)) = Null
   ∨ ∃ u, aget line (Z.to_nat (Z.of_nat i + dir)) = Obj u
          ∧ tile_value u = tile_value t) →
  st_moved (slide_run line dir) = true.
Proof.
  intros Hdir Ht Hj Hnext.
  destruct (st_moved (slide_run line dir)) eqn:Hm; [done|]. exfalso.
  destruct (slide_run_still line dir Hdir Hm i t Ht)
    as [?|[Hu|(u & Hu & Hne)]]; [lia| |].
  - destruct Hnext as [?|(? & ? & _)]; congruence.
  - destruct Hnext as [?|(u' & ? & ?)]; [congruence|].
    assert (u' = u) as -> by congruence. done.
Qed.

Lemma gap_ahead (line : list cell) : ∀ k i t,
  Undefined ∉ line →
  aget line i = Obj t → aget line (i + S k) = Null →
  ∃ p u, i ≤ p ∧ aget line p = Obj u ∧ aget line (S p) = Null.
Proof.
  induction k as [|k IH]; intros i t Hdef Ht Hnull.
  - exists i, t. replace (i + 1) with (S i) in Hnull by lia. done.
  - destruct (aget line (S i)) as [| |t'] eqn:Hnext.
    + exfalso. apply Hdef. rewrite <- Hnext.
      eapply list_elem_of_lookup_2, aget_lt.
      assert (i + S (S k) < length line)
        by (apply aget_defined; by rewrite Hnull).
      lia.
    + by exists i, t.
    + destruct (IH (S i) t' Hdef Hnext) as (p & u & Hp & Hu & Hn).
      { by replace (S i + S k) with (i + S (S k)) by lia. }
      exists p, u. split_and!; [lia|done..].
Qed.

Lemma gap_behind (line : list cell) : ∀ k j t,
  Undefined ∉ line →
  aget line j = Null → aget line (j + S k) = Obj t →
  ∃ p u, aget line (S p) = Obj u ∧ aget line p = Null.
Proof.
  induction k as [|k IH]; intros j t Hdef Hnull Ht.
  - exists j, t. replace (j + 1) with (S j) in Ht by lia. done.
  - destruct (aget line (S j)) as [| |t'] eqn:Hnext.
    + exfalso. apply Hdef. rewrite <- Hnext.
      eapply list_elem_of_lookup_2, aget_lt.
      assert (j + S (S k) < length line)
        by (apply aget_defined; by rewrite Ht).
      lia.
    + apply (IH (S j) t Hdef Hnext).
      by replace (S j + S k) with (j + S (S k)) by lia.
    + by exists j, t'.
Qed.

Lemma gap_moves (line : list cell) i j t :
  Undefined ∉ line → aget line i = Obj t → aget line j = Null →
  ∃ dir, (dir = 1%Z ∨ dir = (-1)%Z) ∧ st_moved (slide_run line dir) = true.
Proof.
  intros Hdef Ht Hnull.
  destruct (decide (i < j)) as [Hlt|Hge].
  - destruct (gap_ahead line (j - i - 1) i t Hdef Ht) as (p & u & _ & Hu & Hn).
    { by replace (i + S (j - i - 1)) with j by lia. }
    exists 1%Z. split; [by left|].
    assert (S p < length line) by (apply aget_defined; by rewrite Hn).
    apply (slide_run_unblocked line 1 p u); [by left|done|lia|].
    left. by replace (Z.to_nat (Z.of_nat p + 1)) with (S p) by lia.
  - assert (i ≠ j) by (intros ->; congruence).
    destruct (gap_behind line (i - j - 1) j t Hdef Hnull) as (p & u & Hu & Hn).
    { by replace (j + S (i - j - 1)) with i by lia. }
    exists (-1)%Z. split; [by right|].
    assert (S p < length line) by (apply aget_defined; by rewrite Hu).
    apply (slide_run_unblocked line (-1) (S p) u); [by right|done|lia|].
    left. by replace (Z.to_nat (Z.of_nat (S p) + -1)) with p by lia.
Qed.

Lemma direction_of (h : bool) (d : Z) :
  d = 1%Z ∨ d = (-1)%Z →
  ∃ dir, dir ∈ directions ∧ horizontal dir = h ∧ slide_dir dir = d.
Proof.
  intros [-> | ->]; destruct h.
  - exists "R"%string. split; [|done]. unfold directions. set_solver.
  - exists "D"%string. split; [|done]. unfold directions. set_solver.
  - exists "L"%string. split; [|done]. unfold directions. set_solver.
  - exists "U"%string. split; [|done]. unfold directions. set_solver.
Qed.

Lemma move_loop_line_moved n dir b0 L :
  shape n b0 → L < n →
  st_moved (slide_run (line_of (horizontal dir) b0 n L) (slide_dir dir)) = true →
  mv_moved (move_loop b0 n dir) = true.
Proof.
  intros Hs HL Hm.
  rewrite (mi_moved _ _ _ _ _ _ (move_loop_inv n dir b0 Hs)).
  apply existsb_exists. exists L. split; [|done].
  apply list_elem_of_In, elem_of_seq. lia.
Qed.

Lemma line_moves n b0 h L d :
  shape n b0 → L < n → d = 1%Z ∨ d = (-1)%Z →
  st_moved (slide_run (line_of h b0 n L) d) = true →
  ∃ dir, dir ∈ directions ∧ mv_moved (move_loop b0 n dir) = true.
Proof.
  intros Hs HL Hd Hm.
  destruct (direction_of h d Hd) as (dir & Hin & <- & <-).
  exists dir. split; [done|]. by eapply move_loop_line_moved.
Qed.

Lemma board_gap_moves n b0 r1 c1 t r c :
  shape n b0 → solid n b0 →
  r1 < n → c1 < n → bget b0 r1 c1 = Obj t →
  r < n → c < n → bget b0 r c = Null →
  ∃ dir, dir ∈ directions ∧ mv_moved (move_loop b0 n dir) = true.
Proof.
  intros Hs Hsolid Hr1 Hc1 Ht Hr Hc Hnull.
  destruct (bget b0 r1 c) as [| |u] eqn:Hcorner.
  - by destruct (Hsolid r1 c Hr1 Hc).
  - destruct (gap_moves (line_of true b0 n r1) c1 c t) as (d & Hd & Hm).
    + by apply line_of_solid.
    + by rewrite aget_line_of.
    + by rewrite aget_line_of.
    + by apply (line_moves n b0 true r1 d).
  - destruct (gap_moves (line_of false b0 n c) r1 r u) as (d & Hd & Hm).
    + by apply line_of_solid.
    + by rewrite aget_line_of.
    + by rewrite aget_line_of.
    + by apply (line_moves n b0 false c d).
Qed.

Lemma board_pair_moves n b0 r c t :
  shape n b0 → r < n → c < n → bget b0 r c = Obj t →
  (r + 1 < n ∧ ∃ u, bget b0 (r + 1) c = Obj u ∧ tile_value u = tile_value t)
  ∨ (c + 1 < n ∧ ∃ u, bget b0 r (c + 1) = Obj u ∧ tile_value u = tile_value t) →
  ∃ dir, dir ∈ directions ∧ mv_moved (move_loop b0 n dir) = true.
Proof.
  intros Hs Hr Hc Ht [[Hr' (u & Hu & Heq)]|[Hc' (u & Hu & Heq)]].
  - apply (line_moves n b0 false c (-1)); [done..|by right|].
    apply (slide_run_unblocked _ (-1) (r + 1) u); [by right| | |].
    + by rewrite aget_line_of.
    + rewrite length_line_of. lia.
    + right. exists t.
      replace (Z.to_nat (Z.of_nat (r + 1) + -1)) with r by lia.
      by rewrite aget_line_of.
  - apply (line_moves n b0 true r (-1)); [done..|by right|].
    apply (slide_run_unblocked _ (-1) (c + 1) u); [by right| | |].
    + by rewrite aget_line_of.
    + rewrite length_line_of. lia.
    + right. exists t.
      replace (Z.to_nat (Z.of_nat (c + 1) + -1)) with c by lia.
      by rewrite aget_line_of.
Qed.

(** X11. [step] ends the game exactly when no move is left. For a
    well-formed non-empty tile set: if [anyMovesLeft] is false on its
    board, [move] in every direction returns the tiles of the board with
    [moved = false] and [gained = 0]; if [anyMovesLeft] is true, [move]
    reports [moved = true] for one of the four directions. *)
Theorem game_over_iff_stuck tiles n :
  wellFormed n tiles → tiles ≠ [] →
  ∃ b, toBoard tiles n = Returned b
       ∧ (anyMovesLeft b = false →
          ∀ dir, move tiles n dir
                 = Returned {| out_tiles :=
                                 filter (λ t, tile_dead t = false) (collect b n);
                               out_moved := false; out_gained := 0%Z |})
       ∧ (anyMovesLeft b = true →
          ∃ dir out, dir ∈ directions
                     ∧ move tiles n dir = Returned out
                     ∧ out_moved out = true).
Proof.
  intros Hwf Hne.
  destruct (toBoard_wellFormed _ _ Hwf) as (b & Hb & Hs & Hlab & Hcells).
  pose proof (toBoard_solid _ _ _ Hb) as Hsolid.
  pose proof (toBoard_length _ _ _ Hb) as Hlen.
  exists b. split; [done|]. split.
  - intros Hover dir.
    destruct (move_returns tiles n dir Hwf) as (b0 & Hb0 & _ & _ & _ & _ & _ & ->).
    assert (b0 = b) as -> by congruence.
    assert (∀ L, L < n →
              blocked (line_of (horizontal dir) b n L) (slide_dir dir)) as Hbl.
    { intros L HL. apply blocked_packed; [apply slide_dir_unit|].
      rewrite <- Hlen in *. by apply over_lines_packed. }
    rewrite move_loop_blocked_moved, move_loop_blocked_gained by done.
    do 3 f_equal.
    unfold collect. apply Forall_bind_ext, Forall_forall.
    intros r Hr%elem_of_seq.
    apply Forall_bind_ext, Forall_forall. intros c Hc%elem_of_seq.
    rewrite move_loop_blocked_cells by (done || lia).
    destruct (bget b r c) as [| |t] eqn:Ht; [done..|].
    rewrite relabel_labelled; [done|]. apply (Hlab r c); [lia..|done].
  - intros Hleft.
    assert (∃ dir, dir ∈ directions ∧ mv_moved (move_loop b n dir) = true)
      as (dir & Hdir & Hm).
    { apply anyMovesLeft_true_cell in Hleft as (r & c & Hr & Hc & Hat).
      rewrite Hlen in *. unfold moves_at in Hat.
      destruct (bget b r c) as [| |t] eqn:Ht.
      - by destruct (Hsolid r c Hr Hc).
      - destruct tiles as [|t1 tiles']; [done|].
        destruct (proj1 (Hcells t1) ltac:(left)) as (r1 & c1 & Hr1 & Hc1 & Ht1).
        by eapply (board_gap_moves n b r1 c1 t1 r c).
      - apply (board_pair_moves n b r c t Hs Hr Hc Ht).
        apply orb_true_iff in Hat as [Hat|Hat];
          apply andb_true_iff in Hat as [Hlt%bool_decide_eq_true Hat];
          [left|right]; (split; [done|]).
        + destruct (bget b (r + 1) c) as [| |u]; [done..|].
          apply bool_decide_eq_true in Hat. by exists u.
        + destruct (bget b r (c + 1)) as [| |u]; [done..|].
          apply bool_decide_eq_true in Hat. by exists u. }
    destruct (move_returns tiles n dir Hwf) as (b0 & Hb0 & _ & _ & _ & _ & _ & Hmove).
    assert (b0 = b) as -> by congruence.
    eexists dir, _. split; [done|]. split; [exact Hmove|done].
Qed.

Lemma game_over_iff_stuck_witness :
  ∃ b, toBoard full_2_4 2 = Returned b
       ∧ (anyMovesLeft b = false →
          ∀ dir, move full_2_4 2 dir
                 = Returned {| out_tiles :=
                                 filter (λ t, tile_dead t = false) (collect b 2);
                               out_moved := false; out_gained := 0%Z |})
       ∧ (anyMovesLeft b = true →
          ∃ dir out, dir ∈ directions
                     ∧ move full_2_4 2 dir = Returned out
                     ∧ out_moved out = true).
Proof. apply (game_over_iff_stuck full_2_4 2); [by_computation|done]. Defined.

(** X12. Without tiles the game is stuck and never over: [move] on the
    empty tile set returns no tile, [moved = false] and [gained = 0], for
    every size and direction, while [anyMovesLeft] is true on the empty
    board of a positive size. *)
Theorem move_empty n dir :
  move [] n dir
  = Returned {| out_tiles := []; out_moved := false; out_gained := 0%Z |}
  ∧ anyMovesLeft (empty (S n)) = true.
Proof.
  split.
  - unfold move, move_run. simpl.
    assert (∀ L, L < n →
              blocked (line_of (horizontal dir) (empty n) n L) (slide_dir dir))
      as Hbl.
    { intros L HL. apply blocked_empty.
      intros x (k & -> & Hk%elem_of_seq)%list_elem_of_fmap.
      unfold cget. destruct (horizontal dir); apply bget_empty; lia. }
    rewrite move_loop_blocked_moved, move_loop_blocked_gained
      by (done || apply shape_empty).
    do 2 f_equal.
    assert (collect (mv_board (move_loop (empty n) n dir)) n = []) as ->; [|done].
    apply elem_of_nil_inv. intros t (r & c & Hr & Hc & Ht)%collect_elem.
    rewrite move_loop_blocked_cells in Ht by (done || apply shape_empty).
    by rewrite bget_empty in Ht.
  - unfold anyMovesLeft. rewrite length_empty.
    apply existsb_exists. exists 0. split; [apply list_elem_of_In, elem_of_seq; lia|].
    apply existsb_exists. exists 0. split; [apply list_elem_of_In, elem_of_seq; lia|].
    unfold moves_at. by rewrite bget_empty by lia.
Qed.

(** ** Identities *)

Lemma slide_run_ids line dir :
  dir = 1%Z ∨ dir = (-1)%Z → Undefined ∉ line →
  ids (tiles_of (st_line (slide_run line dir)))
  `sublist_of` ids (tiles_of line).
Proof.
  intros Hdir Hdef.
  rewrite (slide_run_squashed line dir Hdir Hdef). unfold squashed. cbv zeta.
  rewrite tiles_of_toward, tiles_of_packed, tiles_of_toward.
  case_decide.
  - unfold ids. rewrite fmap_reverse.
    rewrite <- (reverse_involutive (tile_id <$> tiles_of line)).
    apply sublist_reverse. rewrite <- fmap_reverse. apply squash_ids.
  - apply squash_ids.
Qed.

Lemma fmap_relabelled {B} (f : tile → B) h L (a : list cell) n :
  (∀ r c t, f (at_cell r c t) = f t) →
  length a = n →
  f <$> tiles_of ((λ k, relabel_in h L k (aget a k)) <$> seq 0 n)
  = f <$> tiles_of a.
Proof.
  intros Hf Hlen.
  assert (f <$> tiles_of a
          = f <$> tiles_of ((λ k, aget a k) <$> seq 0 n)) as ->
    by (by rewrite <- array_tabulate).
  unfold tiles_of. rewrite !list_fmap_bind, !fmap_bind_comm.
  apply list_bind_ext; [|done]. intros k. simpl.
  unfold relabel_in. destruct h, (aget a k); simpl; by rewrite ?Hf.
Qed.

Lemma bind_submseteq {A B} (f g : A → list B) (l : list A) :
  (∀ x, x ∈ l → f x ⊆+ g x) → l ≫= f ⊆+ l ≫= g.
Proof.
  induction l as [|x l IH]; intros H; [done|].
  rewrite !bind_cons. apply submseteq_app.
  - apply H. by left.
  - apply IH. intros y Hy. apply H. by right.
Qed.

Lemma NoDup_submseteq_inv {A} (l k : list A) : l ⊆+ k → NoDup k → NoDup l.
Proof.
  intros [k' Hk]%submseteq_Permutation Hnd. rewrite Hk in Hnd.
  by apply NoDup_app in Hnd as [? _].
Qed.

Section move_identities.
Variables (n : nat) (dir : string) (b0 : board).
Hypothesis Hshape : shape n b0.
Hypothesis Hsolid : solid n b0.
Local Abbreviation h := (horizontal dir).
Local Abbreviation d := (slide_dir dir).
Local Abbreviation m := (move_loop b0 n dir).

Lemma move_loop_fmap {B} (f : tile → B) :
  (∀ r c t, f (at_cell r c t) = f t) →
  f <$> collect (mv_board m) n
  ≡ₚ seq 0 n ≫= λ L, f <$> tiles_of (st_line (run h n d b0 L)).
Proof.
  intros Hf. rewrite (collect_lines h). rewrite fmap_bind_comm.
  apply reflexive_eq, Forall_bind_ext, Forall_forall.
  intros L HL%elem_of_seq.
  rewrite move_loop_line by (done || lia).
  apply fmap_relabelled; [done|]. unfold run.
  rewrite slide_run_length by apply slide_dir_unit.
  apply length_line_of.
Qed.

Lemma move_loop_ids : ids (collect (mv_board m) n) ⊆+ ids (collect b0 n).
Proof.
  unfold ids. rewrite move_loop_fmap by done.
  rewrite (collect_lines h b0), fmap_bind_comm.
  apply bind_submseteq. intros L HL%elem_of_seq.
  apply sublist_submseteq, slide_run_ids; [apply slide_dir_unit|].
  apply line_of_solid; [done|lia].
Qed.

End move_identities.

Lemma move_out_ids n dir b0 tiles :
  shape n b0 → solid n b0 → collect b0 n ≡ₚ tiles →
  ids (filter (λ t, tile_dead t = false)
         (collect (mv_board (move_loop b0 n dir)) n)) ⊆+ ids tiles.
Proof.
  intros Hs Hsolid Hperm.
  etrans; [apply sublist_submseteq, fmap_sublist, sublist_filter|].
  etrans; [by apply move_loop_ids|]. unfold ids. by rewrite Hperm.
Qed.

Lemma fresh_submseteq next tiles tiles' :
  ids tiles' ⊆+ ids tiles → fresh_ids next tiles → fresh_ids next tiles'.
Proof.
  intros Hsub [Hnd Hlt]. split.
  - by eapply NoDup_submseteq_inv.
  - apply Forall_forall. intros t Ht.
    assert (tile_id t ∈ ids tiles) as Hin.
    { eapply elem_of_submseteq; [|exact Hsub]. by apply list_elem_of_fmap_2. }
    apply list_elem_of_fmap in Hin as (t' & -> & Ht').
    rewrite Forall_forall in Hlt. by apply Hlt.
Qed.

(** X13. [move] invents no identity: for a well-formed tile set, the
    identities of the tiles it returns are, with multiplicity, among those
    of the input. Identities that are pairwise distinct and below the
    counter of [uid] stay so. *)
Theorem move_keeps_identities tiles n dir :
  wellFormed n tiles →
  ∃ out, move tiles n dir = Returned out
         ∧ ids (out_tiles out) ⊆+ ids tiles
         ∧ ∀ next, fresh_ids next tiles → fresh_ids next (out_tiles out).
Proof.
  intros Hwf.
  destruct (move_returns tiles n dir Hwf)
    as (b0 & _ & Hs & _ & Hsolid & Hperm & _ & Hmove).
  eexists. split; [exact Hmove|]. simpl.
  pose proof (move_out_ids n dir b0 tiles Hs Hsolid Hperm) as Hsub.
  split; [done|]. intros next. by apply fresh_submseteq.
Qed.

Lemma move_keeps_identities_witness :
  ∃ out, move two_twos 4 "L" = Returned out
         ∧ ids (out_tiles out) ⊆+ ids two_twos
         ∧ ∀ next, fresh_ids next two_twos → fresh_ids next (out_tiles out).
Proof. apply (move_keeps_identities two_twos 4 "L"). by_computation. Defined.

(** ** Values and counts *)

Lemma power_of_two_double v : power_of_two v → power_of_two (v * 2).
Proof.
  intros [Hv Hp]. split; [lia|].
  rewrite (Z.mul_comm v 2), Z.log2_double by lia.
  rewrite Z.pow_succ_r by apply Z.log2_nonneg. lia.
Qed.

Lemma total_nonneg (vs : list Z) : Forall (λ v, (0 ≤ v)%Z) vs → (0 ≤ total vs)%Z.
Proof. induction 1; simpl; lia. Qed.

Lemma products_elem log p :
  p ∈ products log → ∃ i ni t u, Merged i ni t u ∈ log ∧ p = merged u.
Proof.
  unfold products. intros (e & Hp & He)%list_elem_of_bind.
  destruct e as [|i ni t u]; [by apply elem_of_nil in Hp|].
  apply list_elem_of_singleton in Hp. by exists i, ni, t, u.
Qed.

Lemma operands_products log :
  length (operands log) = 2 * length (products log).
Proof.
  induction log as [|e log IH]; [done|].
  unfold operands, products in *. rewrite !bind_cons, !length_app, IH.
  destruct e; simpl; lia.
Qed.

Lemma merge_cells_products h (log : list (nat * event)) :
  length (merge_cells h log) = length (products log.*2).
Proof.
  induction log as [|[L e] log IH]; [done|].
  unfold merge_cells, products in *. rewrite fmap_cons, bind_cons, length_app.
  simpl. destruct e; simpl; rewrite <- IH; done.
Qed.

Section move_tiles.
Variables (n : nat) (dir : string) (b0 : board).
Hypothesis Hshape : shape n b0.
Local Abbreviation h := (horizontal dir).
Local Abbreviation d := (slide_dir dir).
Local Abbreviation m := (move_loop b0 n dir).

Lemma move_loop_tiles (P : tile → Prop) :
  (∀ u, P u → P (merged u)) →
  (∀ r c t, P t → P (at_cell r c t)) →
  (∀ t, t ∈ collect b0 n → P t) →
  ∀ t, t ∈ collect (mv_board m) n → P t.
Proof.
  intros Hmerged Hat HP t Ht.
  apply collect_elem in Ht as (r & c & Hr & Hc & Ht).
  rewrite (bget_cget h) in Ht.
  assert (∃ L k t', L < n ∧ aget (st_line (run h n d b0 L)) k = Obj t'
                    ∧ ∃ r c, t = at_cell r c t') as (L & k & t' & HL & Hk & Heq).
  { pose proof (move_loop_cells n dir b0 Hshape r c Hr Hc) as H1.
    pose proof (move_loop_cells n dir b0 Hshape c r Hc Hr) as H2.
    unfold relabel_in in *.
    destruct h; [rewrite H1 in Ht|rewrite H2 in Ht].
    - destruct (aget _ c) as [| |t'] eqn:Ha; simpl in Ht; try done.
      injection Ht as <-. exists r, c, t'. eauto.
    - destruct (aget _ r) as [| |t'] eqn:Ha; simpl in Ht; try done.
      injection Ht as <-. exists c, r, t'. eauto. }
  destruct Heq as (r' & c' & ->). apply Hat.
  apply (slide_run_tiles P (line_of h b0 n L) d (slide_dir_unit dir)).
  - done.
  - intros t0 Ht0. apply HP. by eapply line_tiles_collect.
  - by eapply tiles_of_elem.
Qed.

Lemma move_loop_gained_nonneg :
  (∀ t, t ∈ collect b0 n → (0 ≤ tile_value t)%Z) → (0 ≤ mv_gained m)%Z.
Proof.
  intros Hpos. rewrite (move_loop_gained n dir b0 Hshape).
  apply total_nonneg, Forall_forall.
  intros v (p & -> & Hp)%list_elem_of_fmap.
  apply products_elem in Hp as (i & ni & t & u & He & ->).
  apply (move_loop_event n dir b0 Hshape) in He as (L & HL & He).
  destruct (inv_operands _ _ _ _
              (slide_run_inv _ d (slide_dir_unit dir)) _ _ _ _ He)
    as (_ & Hu & _).
  assert (0 ≤ tile_value u)%Z
    by (apply Hpos; by eapply line_tiles_collect).
  simpl. lia.
Qed.

Lemma move_loop_count :
  length (collect (mv_board m) n) + length (merge_cells h (mv_log m))
  = length (collect b0 n).
Proof.
  pose proof (move_loop_conserved n dir b0 Hshape) as Hc.
  apply Permutation_length in Hc.
  unfold values in Hc. rewrite !length_app, !length_fmap in Hc.
  rewrite operands_products in Hc. rewrite merge_cells_products. lia.
Qed.

End move_tiles.

Lemma spawn_cases tiles n bias u1 u2 next tiles' next' :
  spawn tiles n bias u1 u2 next = Returned (tiles', next') →
  tiles' = tiles
  ∨ ∃ r c, tiles' = tiles ++ [spawned next r c
                                (if Qlt_le_dec u2 bias then 2 else 4)%Z].
Proof.
  unfold spawn. destruct (toBoard tiles n) as [b|]; [|done].
  case_decide; [intros [= <- <-]; by left|].
  destruct (free_cells b n !! rnd (length (free_cells b n)) u1)
    as [[r c]|]; [|done].
  simpl. intros [= <- <-]. right. by exists r, c.
Qed.

Lemma move_out_powers n dir b0 tiles :
  shape n b0 → collect b0 n ≡ₚ tiles →
  Forall (λ t, power_of_two (tile_value t)) tiles →
  Forall (λ t, power_of_two (tile_value t))
    (filter (λ t, tile_dead t = false)
       (collect (mv_board (move_loop b0 n dir)) n)).
Proof.
  intros Hs Hperm Hpow.
  apply Forall_forall. intros t [_ Ht]%list_elem_of_filter. revert t Ht.
  apply (move_loop_tiles n dir b0 Hs (λ t, power_of_two (tile_value t)));
    [|done|].
  - intros u Hu. by apply power_of_two_double.
  - intros t Ht. rewrite Forall_forall in Hpow. apply Hpow. by rewrite <- Hperm.
Qed.

Lemma spawned_power next r c (b : bool) :
  power_of_two (tile_value (spawned next r c (if b then 2 else 4)%Z)).
Proof. destruct b; by_computation. Qed.

(** X14. For a well-formed tile set whose values are powers of two from 2
    on, so is every value that [move] returns, and every value after the
    [spawn] that follows; the score gained is not negative. *)
Theorem move_keeps_powers_of_two tiles n dir :
  wellFormed n tiles →
  Forall (λ t, power_of_two (tile_value t)) tiles →
  ∃ out, move tiles n dir = Returned out
         ∧ Forall (λ t, power_of_two (tile_value t)) (out_tiles out)
         ∧ (0 ≤ out_gained out)%Z
         ∧ ∀ bias u1 u2 next tiles' next',
             spawn (out_tiles out) n bias u1 u2 next = Returned (tiles', next') →
             Forall (λ t, power_of_two (tile_value t)) tiles'.
Proof.
  intros Hwf Hpow.
  destruct (move_returns tiles n dir Hwf)
    as (b0 & _ & Hs & _ & _ & Hperm & _ & Hmove).
  eexists. split; [exact Hmove|]. simpl.
  pose proof (move_out_powers n dir b0 tiles Hs Hperm Hpow) as Hout.
  split_and!; [done| |].
  - apply move_loop_gained_nonneg; [done|].
    intros t Ht. rewrite Forall_forall in Hpow.
    destruct (Hpow t) as [? _]; [by rewrite <- Hperm|lia].
  - intros bias u1 u2 next tiles' next' Hsp.
    apply spawn_cases in Hsp as [->|(r & c & ->)]; [done|].
    apply Forall_app. split; [done|]. apply Forall_singleton.
    destruct (Qlt_le_dec u2 bias); [apply (spawned_power _ _ _ true)|
                                    apply (spawned_power _ _ _ false)].
Qed.

Lemma move_keeps_powers_of_two_witness :
  ∃ out, move two_twos 4 "L" = Returned out
         ∧ Forall (λ t, power_of_two (tile_value t)) (out_tiles out)
         ∧ (0 ≤ out_gained out)%Z
         ∧ ∀ bias u1 u2 next tiles' next',
             spawn (out_tiles out) 4 bias u1 u2 next = Returned (tiles', next') →
             Forall (λ t, power_of_two (tile_value t)) tiles'.
Proof. apply (move_keeps_powers_of_two two_twos 4 "L"); by_computation. Defined.

(** X15. [move] drops one tile for each merge and no other: for a
    well-formed tile set without [dead] marks, the number of tiles it
    returns plus the number of cells merged into is the number of input
    tiles. *)
Theorem move_tile_count tiles n dir :
  wellFormed n tiles → alive tiles →
  ∃ m out,
    move_run tiles n dir = Returned m
    ∧ move tiles n dir = Returned out
    ∧ length (out_tiles out) + length (merge_cells (horizontal dir) (mv_log m))
      = length tiles.
Proof.
  intros Hwf Halive.
  destruct (move_returns tiles n dir Hwf)
    as (b0 & _ & Hs & _ & _ & Hperm & Hrun & Hmove).
  eexists _, _. split; [exact Hrun|]. split; [exact Hmove|]. simpl.
  assert (alive (collect b0 n)) as Halive0
    by (unfold alive in *; by rewrite Hperm).
  rewrite filter_all by (by apply move_loop_alive).
  rewrite move_loop_count by done. by rewrite Hperm.
Qed.

Lemma move_tile_count_witness :
  ∃ m out,
    move_run two_twos 4 "L" = Returned m
    ∧ move two_twos 4 "L" = Returned out
    ∧ length (out_tiles out) + length (merge_cells (horizontal "L") (mv_log m))
      = length two_twos.
Proof. apply (move_tile_count two_twos 4 "L"); by_computation. Defined.

Lemma squash_covers ts :
  (∀ t, t ∈ ts → (0 ≤ tile_value t)%Z) →
  ∀ t, t ∈ ts → ∃ t', t' ∈ squash ts ∧ (tile_value t ≤ tile_value t')%Z.
Proof.
  assert (∀ k ts, length ts ≤ k →
            (∀ t, t ∈ ts → (0 ≤ tile_value t)%Z) →
            ∀ t, t ∈ ts →
              ∃ t', t' ∈ squash ts ∧ (tile_value t ≤ tile_value t')%Z) as H.
  { clear ts. induction k as [|k IH]; intros [|t [|u rest]] Hlen Hpos x Hx;
      simpl in Hlen; try lia; try (by apply elem_of_nil in Hx).
    - exists x. split; [done|lia].
    - rewrite squash_two. case_bool_decide as Heq.
      + assert (0 ≤ tile_value t)%Z by (apply Hpos; by left).
        apply elem_of_cons in Hx as [->|Hx].
        { exists (merged t). split; [by left|simpl; lia]. }
        apply elem_of_cons in Hx as [->|Hx].
        { exists (merged t). split; [by left|simpl; lia]. }
        destruct (IH rest ltac:(lia)
                    (λ y Hy, Hpos y ltac:(by do 2 right)) x Hx)
          as (t' & Ht' & Hle).
        exists t'. split; [by right|done].
      + apply elem_of_cons in Hx as [->|Hx].
        { exists t. split; [by left|lia]. }
        destruct (IH (u :: rest) ltac:(simpl; lia)
                    (λ y Hy, Hpos y ltac:(by right)) x Hx)
          as (t' & Ht' & Hle).
        exists t'. split; [by right|done]. }
  by apply (H (length ts)).
Qed.

Lemma slide_run_covers line dir :
  dir = 1%Z ∨ dir = (-1)%Z → Undefined ∉ line →
  (∀ t, t ∈ tiles_of line → (0 ≤ tile_value t)%Z) →
  ∀ t, t ∈ tiles_of line →
    ∃ t', t' ∈ tiles_of (st_line (slide_run line dir))
          ∧ (tile_value t ≤ tile_value t')%Z.
Proof.
  intros Hdir Hdef Hpos t Ht.
  rewrite (slide_run_squashed line dir Hdir Hdef). unfold squashed. cbv zeta.
  rewrite tiles_of_toward, tiles_of_packed, tiles_of_toward.
  case_decide.
  - assert (∀ y, y ∈ reverse (tiles_of line) → (0 ≤ tile_value y)%Z) as Hpos'
      by (intros y Hy; rewrite elem_of_reverse in Hy; by apply Hpos).
    assert (t ∈ reverse (tiles_of line)) as Ht' by (by apply elem_of_reverse).
    destruct (squash_covers _ Hpos' t Ht') as (t' & Hin & Hle).
    exists t'. split; [by apply elem_of_reverse|done].
  - by apply squash_covers.
Qed.

(** X16. The largest tile never shrinks: for a well-formed tile set
    without [dead] marks whose values are not negative, every input tile
    has a tile of at least its value among the tiles that [move]
    returns. *)
Theorem move_keeps_largest tiles n dir :
  wellFormed n tiles → alive tiles →
  Forall (λ t, (0 ≤ tile_value t)%Z) tiles →
  ∃ out, move tiles n dir = Returned out
         ∧ ∀ t, t ∈ tiles →
             ∃ t', t' ∈ out_tiles out ∧ (tile_value t ≤ tile_value t')%Z.
Proof.
  intros Hwf Halive Hpos.
  destruct (move_returns tiles n dir Hwf)
    as (b0 & _ & Hs & _ & Hsolid & Hperm & _ & Hmove).
  eexists. split; [exact Hmove|]. simpl. intros t Ht.
  assert (alive (collect b0 n)) as Halive0
    by (unfold alive in *; by rewrite Hperm).
  rewrite filter_all by (by apply move_loop_alive).
  rewrite <- Hperm in Ht.
  pose proof (collect_lines (horizontal dir) b0 n) as Hlines.
  rewrite Hlines in Ht. apply list_elem_of_bind in Ht as (L & Ht & HL).
  apply elem_of_seq in HL.
  assert (∀ y, y ∈ tiles_of (line_of (horizontal dir) b0 n L) →
            (0 ≤ tile_value y)%Z) as Hpos'.
  { intros y Hy. rewrite Forall_forall in Hpos. apply Hpos.
    rewrite <- Hperm. eapply line_tiles_collect; [|done]. lia. }
  destruct (slide_run_covers (line_of (horizontal dir) b0 n L) (slide_dir dir)
              (slide_dir_unit dir)
              (line_of_solid _ b0 n L Hsolid ltac:(lia)) Hpos' t Ht)
    as (t' & Ht' & Hle).
  assert (tile_value t' ∈ tile_value <$>
            collect (mv_board (move_loop b0 n dir)) n) as Hin.
  { rewrite (move_loop_fmap n dir b0 Hs tile_value) by done.
    apply list_elem_of_bind. exists L. split; [|apply elem_of_seq; lia].
    by apply list_elem_of_fmap_2. }
  apply list_elem_of_fmap in Hin as (t'' & Heq & Hin).
  exists t''. split; [done|lia].
Qed.

Lemma move_keeps_largest_witness :
  ∃ out, move two_twos 4 "L" = Returned out
         ∧ ∀ t, t ∈ two_twos →
             ∃ t', t' ∈ out_tiles out ∧ (tile_value t ≤ tile_value t')%Z.
Proof. apply (move_keeps_largest two_twos 4 "L"); by_computation. Defined.

(** ** The start of a game *)

(** X19. A game starts with two tiles: for a grid of side 2 at least and
    draws in [0, 1), [spawn(spawn([], n, bias), n, bias)], the tile set of
    a new game in [reset] and in the first state, holds two tiles of value
    2 or 4 in two different cells of the grid; their identities are the
    value of the counter of [uid] and the next one, and the counter is
    left two higher. *)
Theorem new_game_tiles n bias u1 u2 u3 u4 next :
  2 ≤ n →
  (0 <= u1)%Q → (u1 < 1)%Q → (0 <= u3)%Q → (u3 < 1)%Q →
  ∃ t1 t2,
    spawn [] n bias u1 u2 next = Returned ([t1], (next + 1)%Z)
    ∧ spawn [t1] n bias u3 u4 (next + 1) = Returned ([t1; t2], (next + 2)%Z)
    ∧ tile_id t1 = next ∧ tile_id t2 = (next + 1)%Z
    ∧ position t1 ≠ position t2
    ∧ wellFormed n [t1; t2]
    ∧ alive [t1; t2]
    ∧ fresh_ids (next + 2) [t1; t2]
    ∧ Forall (λ t, tile_value t = 2%Z ∨ tile_value t = 4%Z) [t1; t2].
Proof.
  intros Hn H0 H1 H2 H3.
  destruct (spawn_spec [] n bias u1 u2 next ltac:(done) H0 H1)
    as [[Hfull _]|(r & c & Hr & Hc & Hfree & Hsp)].
  { exfalso. apply Hfull. exists 0, 0. split_and!; [lia..|].
    intros t Ht. by apply elem_of_nil in Ht. }
  set (t1 := spawned next r c (if Qlt_le_dec u2 bias then 2 else 4)%Z) in *.
  assert (wellFormed n [t1]) as Hwf1.
  { apply (wellFormed_snoc n [] t1); simpl; [|lia|lia|].
    - split; [constructor|done].
    - intros t Ht. by apply elem_of_nil in Ht. }
  destruct (spawn_spec [t1] n bias u3 u4 (next + 1)
              (wellFormed_rows _ _ Hwf1) H2 H3)
    as [[Hfull _]|(r' & c' & Hr' & Hc' & Hfree' & Hsp')].
  { exfalso. apply Hfull.
    destruct (decide (c = 0)) as [->|Hc0].
    - exists 0, 1. split_and!; [lia..|].
      intros t ->%list_elem_of_singleton Hpos.
      apply (f_equal snd) in Hpos. simpl in Hpos. lia.
    - exists 0, 0. split_and!; [lia..|].
      intros t ->%list_elem_of_singleton Hpos.
      apply (f_equal snd) in Hpos. simpl in Hpos. lia. }
  set (t2 := spawned (next + 1) r' c'
               (if Qlt_le_dec u4 bias then 2 else 4)%Z) in *.
  exists t1, t2. split; [exact Hsp|].
  split; [by replace (next + 2)%Z with (next + 1 + 1)%Z by lia|].
  assert (wellFormed n [t1; t2]) as Hwf2.
  { apply (wellFormed_snoc n [t1] t2); simpl; [done|lia|lia|].
    intros t Ht Hpos. by apply (Hfree' t Ht). }
  split_and!; [done|done| |done| | |].
  - apply Hfree'. by left.
  - by repeat constructor.
  - split.
    + simpl. apply NoDup_cons. split; [|apply NoDup_singleton].
      intros Hin%list_elem_of_singleton. simpl in Hin. lia.
    + repeat constructor; simpl; lia.
  - apply Forall_cons. split; [|apply Forall_singleton]; simpl.
    + destruct (Qlt_le_dec u2 bias); auto.
    + destruct (Qlt_le_dec u4 bias); auto.
Qed.

Lemma new_game_tiles_witness :
  ∃ t1 t2,
    spawn [] 4 (9 # 10) 0 0 1 = Returned ([t1], (1 + 1)%Z)
    ∧ spawn [t1] 4 (9 # 10) 0 0 (1 + 1) = Returned ([t1; t2], (1 + 2)%Z)
    ∧ tile_id t1 = 1%Z ∧ tile_id t2 = (1 + 1)%Z
    ∧ position t1 ≠ position t2
    ∧ wellFormed 4 [t1; t2]
    ∧ alive [t1; t2]
    ∧ fresh_ids (1 + 2) [t1; t2]
    ∧ Forall (λ t, tile_value t = 2%Z ∨ tile_value t = 4%Z) [t1; t2].
Proof.
  apply (new_game_tiles 4 (9 # 10) 0 0 0 0 1);
    [lia|apply Qle_refl|reflexivity|apply Qle_refl|reflexivity].
Defined.

(** ** A move that moved changed the board *)

Lemma isum_rank_truthy n dir (a a' : list cell) : ∀ k,
  Forall2 (λ x y, truthy x = truthy y) a a' →
  isum (rank n dir) k a = isum (rank n dir) k a'.
Proof.
  intros k H. revert k. induction H as [|x y a a' Hxy _ IH]; intros k; [done|].
  simpl. rewrite IH. unfold rank. by rewrite Hxy.
Qed.

Lemma potential_truthy n dir (a a' : list cell) :
  length a = length a' →
  (∀ k, k < length a → truthy (aget a k) = truthy (aget a' k)) →
  potential n dir a = potential n dir a'.
Proof.
  intros Hlen Hk. apply isum_rank_truthy.
  apply Forall2_same_length_lookup. split; [done|].
  intros i x y Hx Hy. pose proof (lookup_lt_Some _ _ _ Hx) as Hi.
  specialize (Hk i Hi). unfold aget in Hk. by rewrite Hx, Hy in Hk.
Qed.

Lemma slide_run_moved_occupancy line dir :
  dir = 1%Z ∨ dir = (-1)%Z →
  st_moved (slide_run line dir) = true →
  ¬ ∀ k, k < length line →
      truthy (aget (st_line (slide_run line dir)) k) = truthy (aget line k).
Proof.
  intros Hdir Hm Hsame.
  pose proof (slide_run_inv line dir Hdir) as Hinv.
  rewrite (inv_moved _ _ _ _ Hinv) in Hm. apply bool_decide_eq_true in Hm.
  pose proof (inv_potential _ _ _ _ Hinv) as Hpot.
  pose proof (inv_length _ _ _ _ Hinv) as Hlen.
  rewrite (potential_truthy _ _ (st_line (slide_run line dir)) line) in Hpot.
  - destruct (st_log (slide_run line dir)); [done|]. simpl in Hpot. lia.
  - done.
  - intros k Hk. apply Hsame. lia.
Qed.

Lemma occupied_iff n b r c :
  labelled n b → r < n → c < n →
  truthy (bget b r c) = true ↔ cell_pos r c ∈ position <$> collect b n.
Proof.
  intros Hlab Hr Hc. split.
  - destruct (bget b r c) as [| |t] eqn:Ht; [done..|]. intros _.
    apply list_elem_of_fmap. exists t. split.
    + symmetry. by apply (Hlab r c).
    + apply collect_elem. eauto.
  - intros (t & Hpos & Ht)%list_elem_of_fmap.
    apply collect_elem in Ht as (r' & c' & Hr' & Hc' & Ht).
    rewrite (Hlab _ _ _ Hr' Hc' Ht) in Hpos.
    apply cell_pos_inj in Hpos as [-> ->]. by rewrite Ht.
Qed.

(** X20. [moved = true] is never reported for a move that left every tile
    in place: for a well-formed tile set without [dead] marks, when [move]
    reports [moved = true] the cells that the returned tiles occupy are
    not the cells that the input tiles occupied. *)
Theorem move_moved_changes tiles n dir out :
  wellFormed n tiles → alive tiles →
  move tiles n dir = Returned out → out_moved out = true →
  ¬ (position <$> out_tiles out ≡ₚ position <$> tiles).
Proof.
  intros Hwf Halive Hout Hm Hperm.
  destruct (move_returns tiles n dir Hwf)
    as (b0 & _ & Hs & Hlab & _ & Hperm0 & _ & Hmove).
  rewrite Hmove in Hout. injection Hout as <-. simpl in *.
  assert (alive (collect b0 n)) as Halive0
    by (unfold alive in *; by rewrite Hperm0).
  rewrite filter_all in Hperm by (by apply move_loop_alive).
  rewrite <- Hperm0 in Hperm.
  pose proof (move_loop_labelled n dir b0 Hs) as Hlab'.
  assert (∀ r c, r < n → c < n →
            truthy (bget (mv_board (move_loop b0 n dir)) r c)
            = truthy (bget b0 r c)) as Hocc.
  { intros r c Hr Hc.
    pose proof (occupied_iff n _ r c Hlab' Hr Hc) as H1.
    pose proof (occupied_iff n _ r c Hlab Hr Hc) as H2.
    rewrite Hperm in H1. rewrite <- H2 in H1.
    destruct (truthy (bget b0 r c)), (truthy (bget _ r c)); try done.
    - by apply H1.
    - symmetry. by apply H1. }
  rewrite (mi_moved _ _ _ _ _ _ (move_loop_inv n dir b0 Hs)) in Hm.
  apply existsb_exists in Hm as (L & HL & Hm).
  apply list_elem_of_In, elem_of_seq in HL.
  apply (slide_run_moved_occupancy _ _ (slide_dir_unit dir) Hm).
  rewrite length_line_of. intros k Hk. rewrite aget_line_of by done.
  pose proof (move_loop_cells n dir b0 Hs L k ltac:(lia) Hk) as Hcell.
  assert (truthy (cget (horizontal dir) (mv_board (move_loop b0 n dir)) L k)
          = truthy (cget (horizontal dir) b0 L k)) as Hc.
  { unfold cget. destruct (horizontal dir); apply Hocc; lia. }
  rewrite Hcell in Hc. rewrite <- Hc. unfold run, relabel_in, relabel.
  by destruct (horizontal dir), (aget _ k).
Qed.

Lemma move_moved_changes_witness :
  ¬ (position <$> [T 1 0 0 2] ≡ₚ position <$> [T 1 0 3 2]).
Proof.
  apply (move_moved_changes [T 1 0 3 2] 4 "L"
           {| out_tiles := [T 1 0 0 2]; out_moved := true; out_gained := 0 |}).
  - by_computation.
  - by_computation.
  - vm_compute. reflexivity.
  - reflexivity.
Defined.

(** ** The mark [bump] *)

(** X21. [move] never clears the mark [bump]. For a well-formed tile set,
    a returned tile without the mark is an input tile without the mark,
    with its identity and value (a merged tile always carries it, and a
    tile that carried it keeps it); when all input tiles carry the mark,
    all returned tiles do. *)
Theorem move_keeps_bump tiles n dir :
  wellFormed n tiles →
  ∃ out, move tiles n dir = Returned out
         ∧ (∀ t', t' ∈ out_tiles out → tile_bump t' = false →
              ∃ t, t ∈ tiles ∧ tile_bump t = false
                   ∧ tile_id t = tile_id t' ∧ tile_value t = tile_value t')
         ∧ (Forall (λ t, tile_bump t = true) tiles →
            Forall (λ t, tile_bump t = true) (out_tiles out)).
Proof.
  intros Hwf.
  destruct (move_returns tiles n dir Hwf)
    as (b0 & _ & Hs & _ & _ & Hperm & _ & Hmove).
  eexists. split; [exact Hmove|]. simpl. split.
  - intros t' [_ Ht']%list_elem_of_filter. revert t' Ht'.
    apply (move_loop_tiles n dir b0 Hs
             (λ t', tile_bump t' = false →
                    ∃ t, t ∈ tiles ∧ tile_bump t = false
                         ∧ tile_id t = tile_id t'
                         ∧ tile_value t = tile_value t')).
    + intros u _ Hb. done.
    + intros r c t IH Hb. apply IH, Hb.
    + intros t Ht Hb. exists t. rewrite <- Hperm. done.
  - intros Hall. apply Forall_forall.
    intros t' [_ Ht']%list_elem_of_filter. revert t' Ht'.
    apply (move_loop_tiles n dir b0 Hs (λ t, tile_bump t = true)); [done..|].
    intros t Ht. rewrite Forall_forall in Hall. apply Hall. by rewrite <- Hperm.
Qed.

Lemma move_keeps_bump_witness :
  ∃ out, move [merged (T 1 0 3 2)] 4 "L" = Returned out
         ∧ (∀ t', t' ∈ out_tiles out → tile_bump t' = false →
              ∃ t, t ∈ [merged (T 1 0 3 2)] ∧ tile_bump t = false
                   ∧ tile_id t = tile_id t' ∧ tile_value t = tile_value t')
         ∧ (Forall (λ t, tile_bump t = true) [merged (T 1 0 3 2)] →
            Forall (λ t, tile_bump t = true) (out_tiles out)).
Proof. apply (move_keeps_bump [merged (T 1 0 3 2)] 4 "L"). by_computation. Defined.

(** ** The invariant of a game *)

Lemma fresh_snoc next tiles t :
  fresh_ids next tiles → tile_id t = next → fresh_ids (next + 1) (tiles ++ [t]).
Proof.
  intros [Hnd Hlt] Hid. rewrite Forall_forall in Hlt. split.
  - unfold ids. rewrite fmap_app. apply NoDup_app. split_and!; [done| |].
    + intros i (t' & -> & Ht')%list_elem_of_fmap Hin.
      apply list_elem_of_singleton in Hin. specialize (Hlt t' Ht'). lia.
    + apply NoDup_singleton.
  - apply Forall_app. split.
    + apply Forall_forall. intros t' Ht'. specialize (Hlt t' Ht'). lia.
    + apply Forall_singleton. lia.
Qed.

(** X22. The invariant of a game: when the tiles are well-formed, carry no
    [dead] mark, have pairwise distinct identities below the counter of
    [uid] and values that are powers of two, so are the tiles that [move]
    returns, in whatever direction, and so are the tiles after the [spawn]
    that [step] runs on them, with the counter that [spawn] leaves. *)
Theorem move_then_spawn_keeps_game_inv tiles n dir bias u1 u2 next :
  game_inv n next tiles → (0 <= u1)%Q → (u1 < 1)%Q →
  ∃ out tiles' next',
    move tiles n dir = Returned out
    ∧ game_inv n next (out_tiles out)
    ∧ spawn (out_tiles out) n bias u1 u2 next = Returned (tiles', next')
    ∧ game_inv n next' tiles'.
Proof.
  intros (Hwf & Halive & Hfresh & Hpow) H0 H1.
  destruct (move_returns tiles n dir Hwf)
    as (b0 & _ & Hs & _ & Hsolid & Hperm & _ & Hmove).
  pose proof (move_loop_labelled n dir b0 Hs) as Hlab'.
  set (out := filter (λ t, tile_dead t = false)
                (collect (mv_board (move_loop b0 n dir)) n)) in *.
  assert (game_inv n next out) as Hvalid.
  { split_and!.
    - by apply collect_wellFormed.
    - apply Forall_forall. by intros t [? _]%list_elem_of_filter.
    - apply (fresh_submseteq next tiles); [|done]. by apply move_out_ids.
    - by apply (move_out_powers n dir b0 tiles). }
  destruct Hvalid as (Hwf' & Halive' & Hfresh' & Hpow').
  destruct (spawn_spec out n bias u1 u2 next (wellFormed_rows _ _ Hwf') H0 H1)
    as [[_ Hsp]|(r & c & Hr & Hc & Hfree & Hsp)].
  - eexists _, out, next. split; [exact Hmove|]. simpl.
    split; [done|]. split; [done|]. done.
  - eexists _, _, _. split; [exact Hmove|]. simpl.
    split; [done|]. split; [exact Hsp|]. split_and!.
    + apply wellFormed_snoc; simpl; [done|lia|lia|].
      intros t' Ht'. by apply Hfree.
    + apply Forall_app. split; [done|]. by apply Forall_singleton.
    + by apply fresh_snoc.
    + apply Forall_app. split; [done|]. apply Forall_singleton.
      destruct (Qlt_le_dec u2 bias); [apply (spawned_power _ _ _ true)|
                                      apply (spawned_power _ _ _ false)].
Qed.

Lemma move_then_spawn_keeps_game_inv_witness :
  ∃ out tiles' next',
    move two_twos 4 "L" = Returned out
    ∧ game_inv 4 3 (out_tiles out)
    ∧ spawn (out_tiles out) 4 (9 # 10) 0 0 3 = Returned (tiles', next')
    ∧ game_inv 4 next' tiles'.
Proof.
  apply (move_then_spawn_keeps_game_inv two_twos 4 "L" (9 # 10) 0 0 3);
    [by_computation|apply Qle_refl|reflexivity].
Defined.


(** ** Layout and touch *)

(** X23. A value without an entry in the table of [tileStyle] (4096 and
    8192 among them) is shown as 2048 is, in both themes; the class string
    is always the gradient prefix followed by an entry of a table. *)
Theorem tileStyle_fallback v theme :
  v ∉ (swatches_light.*1) →
  tileStyle v theme = tileStyle 2048 theme
  ∧ ∃ sw, sw ∈ (swatches_light.*2 ++ swatches_dark.*2)
          ∧ tileStyle v theme = ("bg-gradient-to-br " +:+ sw)%string.
Proof.
  intros Hv. simpl in Hv.
  repeat (apply not_elem_of_cons in Hv as [? Hv]).
  unfold tileStyle. case_decide; simpl.
  - rewrite !lookup_insert_ne, lookup_empty by done.
    split; [done|]. eexists. split; [|done]. set_solver.
  - rewrite !lookup_insert_ne, lookup_empty by done.
    split; [done|]. eexists. split; [|done]. set_solver.
Qed.

Lemma tileStyle_fallback_witness :
  tileStyle 4096 "dark" = tileStyle 2048 "dark"
  ∧ ∃ sw, sw ∈ (swatches_light.*2 ++ swatches_dark.*2)
          ∧ tileStyle 4096 "dark" = ("bg-gradient-to-br " +:+ sw)%string.
Proof. apply (tileStyle_fallback 4096 "dark"). by_computation. Defined.

(** X24. The cell size that [measure] sets is 56 at least. When a board of
    cells of size 56 fits the container (its width, capped at 620), the
    board of side [sizePx] fits it too and the cell size is the largest
    for which it does; otherwise the cell size is 56. *)
Theorem measure_fits clientWidth n :
  (0 < n)%Z →
  let size := Z.min clientWidth 620 in
  let cell := measure clientWidth n in
  (56 ≤ cell)%Z
  ∧ ((sizePx 56 n ≤ size)%Z →
     (sizePx cell n ≤ size < sizePx (cell + 1) n)%Z)
  ∧ ((size < sizePx 56 n)%Z → cell = 56%Z).
Proof.
  intros Hn size cell. unfold cell, measure, sizePx, GAP. fold size.
  set (q := ((size - 12 * (n + 1)) / n)%Z).
  pose proof (Z.mul_div_le (size - 12 * (n + 1)) n Hn) as Hle.
  pose proof (Z.mul_succ_div_gt (size - 12 * (n + 1)) n Hn) as Hgt.
  fold q in Hle, Hgt.
  split_and!.
  - lia.
  - intros Hfit. assert (56 ≤ q)%Z by (apply Z.div_le_lower_bound; lia).
    rewrite Z.max_r by done. nia.
  - intros Hno. assert (q < 56)%Z by (apply Z.div_lt_upper_bound; lia).
    lia.
Qed.

Lemma measure_fits_witness :
  let size := Z.min 400 620 in
  let cell := measure 400 4 in
  (56 ≤ cell)%Z
  ∧ ((sizePx 56 4 ≤ size)%Z →
     (sizePx cell 4 ≤ size < sizePx (cell + 1) 4)%Z)
  ∧ ((size < sizePx 56 4)%Z → cell = 56%Z).
Proof. apply (measure_fits 400 4). lia. Defined.

(** X25. A swipe is ignored when it is shorter than 28 on both axes.
    Otherwise [onTouchEnd] gives [step] one of the four directions: a
    direction of the rows exactly when the swipe is wider than tall, and
    one that slides to the higher indices exactly when the finger moved to
    the right, or down. *)
Theorem swipe_direction dx dy :
  match onTouchEnd dx dy with
  | None => (Qabs dx < 28)%Q ∧ (Qabs dy < 28)%Q
  | Some dir =>
      (28 <= Qabs dx ∨ 28 <= Qabs dy)%Q
      ∧ dir ∈ directions
      ∧ (horizontal dir = true ↔ (Qabs dy < Qabs dx)%Q)
      ∧ (slide_dir dir = 1%Z
         ↔ if horizontal dir then (0 < dx)%Q else (0 < dy)%Q)
  end.
Proof.
  unfold onTouchEnd.
  destruct (Qlt_le_dec (Qmax (Qabs dx) (Qabs dy)) 28) as [Hshort|Hlong].
  - split.
    + eapply Qle_lt_trans; [apply Q.le_max_l|exact Hshort].
    + eapply Qle_lt_trans; [apply Q.le_max_r|exact Hshort].
  - split.
    { destruct (Q.max_spec (Qabs dx) (Qabs dy)) as [[_ Heq]|[_ Heq]];
        rewrite Heq in Hlong; auto. }
    destruct (Qlt_le_dec (Qabs dy) (Qabs dx)) as [Hh|Hv].
    + destruct (Qlt_le_dec 0 dx) as [Hpos|Hneg].
      * split_and!; [unfold directions; set_solver|done|done].
      * split_and!; [unfold directions; set_solver|done|].
        split; [done|]. intros Hpos. by apply Qlt_not_le in Hpos.
    + destruct (Qlt_le_dec 0 dy) as [Hpos|Hneg].
      * split_and!; [unfold directions; set_solver| |done].
        split; [done|]. intros Hh. by apply Qlt_not_le in Hh.
      * split_and!; [unfold directions; set_solver| |].
        -- split; [done|]. intros Hh. by apply Qlt_not_le in Hh.
        -- split; [done|]. intros Hpos. by apply Qlt_not_le in Hpos.
Qed.

